(* ===== verification/_CoqProject ===== *)
-Q . S2P
Prelude.v
Python.v
Board.v
Win.v
Eval.v
Checked.v
Search.v
Engine.v
Store.v
Spec.v
Driver.v
Session.v
Tests.v
