(* ===== verification/Prelude.v ===== *)
(** * Connect-Four with a minimax engine: a verification development

    The program verified is [src/main.py]: a Connect-Four board (class
    [Board]), a four-in-a-row detector ([Board.is_winning]), a heuristic
    ([eval_board]), a depth-bounded minimax search with alpha-beta pruning
    ([minimax]) and a command loop ([main]) that reads [PLAY], [MOVE:n]
    and [RESET] from standard input.  Every definition below is a
    translation of the Python source, executable in Rocq, so that the
    concrete games of the development are run by [vm_compute].

    ** The parts, and where they are modelled

    - [Prelude] (this file): hint databases, tactics on boolean tests,
      the loop that builds a list by [append], grids, that is lists of
      rows read with [g[r][c]] and written in place, and the counting and
      list lemmas the components share.
    - [Python]: the fragment of Python the source relies on.  Values
      ([pyval]: ints, strs, [None]) with [str], [repr] and [==]; the str
      methods [strip], [in], [replace] and the parser [int] on ASCII text;
      exceptions ([pyerr]) and results ([res]); checked subscripts
      ([getitem]); scores ([num]: ints with [-math.inf] and [math.inf]),
      their order and the tactic [num_lia] that decides it; [str] of an
      int read back by [int] ([int_of_str_pretty]); the monad
      [ST S] of computations over a state [S] that return, raise or
      exhaust their fuel, its instance [M] over the random generator, the
      predicate transformer [wp] (total correctness), [det] (independence
      of the state) and the definedness order [⊑] with its [Proper]
      instance for [bind].
    - [Board]: class [Board].  The object is the record [Board] (fields
      [board], [history], [last_move], [valid_locations] as in
      [__init__]); [can_play], [get_next_open_row], [play],
      [get_valid_locations] and [print_board] are the methods.  [play],
      the only method that mutates the object, is a function to
      [res Board]: [Raise] leaves the caller with the board it had.
    - [Win]: [Board.is_winning], the four loop nests ([horizontal],
      [vertical], [diagonal_down], [diagonal_up]), and its specification
      [has_four].
    - [Eval]: [eval_board].
    - [Checked]: the methods of [Board] and [eval_board] once more, with
      every subscript checked as Python checks it ([getitem], [setitem]:
      [IndexError] outside the list, negative indices from the end).
    - [Search]: [minimax] with its two loops ([max_loop], [min_loop]),
      over the interface [Position] (the four things [minimax] asks of a
      board), and the reference [exhaustive], minimax without window.
      [copy.deepcopy] followed by an in-place [play] is the functional
      [pos_play] on a value, which [Store] justifies.
    - [Engine]: [Board] as an instance of [Position]; [choose], the call
      [main] makes; concrete positions.
    - [Store]: boards as objects.  The store is a list of objects (the
      rows, the list of rows, the history list, the list of valid
      locations, the [Board] instance), a location an index into it.
      [new_board] is [Board()], [play_obj] is [Board.play] with its three
      assignments as writes, [deepcopy] is [copy.deepcopy] with its memo,
      [branch] the two statements that open an iteration of the loops of
      [minimax], and [minimax_obj] the search on locations.  [holds h b
      bd] says that the object at [b] holds the value [bd] and that no
      two rows of it are the same object.
    - [Spec]: the game as the specification describes it, with no Python
      value in it: two pieces ([Piece], [other]), a state of seven stacks
      ([GameState], [drop_piece], [legalColumns]), [wins], [evaluate] and the
      minimax [value]; and the relation [refines] between a board and the
      state it shows.
    - [Driver]: [main].  The world is the lines still to be read, the
      texts written and the generator; [iteration] is the body of the
      [while True], made of the handlers [on_play], [on_move], [on_reset]
      and [finish]; [loop] is the loop and [main] starts it from
      [start_new].  [end_logic], [change_turn], [start_new] and
      [player_loop] are the functions of the same names.
    - [Session]: [main] once more, with the board of a session as an
      object of the store.  The state is the store and the world;
      [start_new_obj] allocates the board with [new_board], the handlers
      [on_play_obj] and [on_move_obj] write into it with [play_obj], the
      search is [minimax_obj], and [RESET] runs [main_obj] on a board of
      its own.  [ssim] relates a computation on the store and the world
      to one on the world; [changes_only] names the objects it may
      write.
    - [Tests]: the test case [TestBoard] of [src/tests/main_test.py],
      run on the store and the world: [setUp], [test_hello_world],
      [test_play_middle].

    ** What is proved

    - Search ([Search], [Engine]).  [minimax] with the full window
      returns the value of [exhaustive] ([minimax_exhaustive]); within
      any window it keeps the fail-soft promise ([minimax_window_exact]);
      at the root it returns the first column of largest exhaustive value
      ([minimax_first_best]); it returns from every generator state,
      without exception, with a finite score and a playable column
      ([minimax_terminates], [minimax_move_legal]); its result does not
      depend on the generator ([minimax_rng_independent]) nor on the fuel
      ([minimax_fuel_irrelevant]) nor on anything of the board but its
      grid ([search_ignores_history]); terminal and horizon nodes are
      scored as the source says.  The rule [minimax_invariant] carries a
      property of the static scores to the result of every call; with
      it, on the board, the recursion ends for every depth, negative
      ones included, because every move fills a cell
      ([minimax_terminates_any_depth]), and the score returned is
      1000000, -1000000 or between 0 and 18 ([minimax_score_range]).
      With a negative depth there is no horizon, and the score is the
      exhaustive value to the end of the game ([minimax_unbounded],
      [minimax_no_horizon]).
      On the board, the engine given the
      piece as the int that [main] passes takes its own mark for the
      opponent's ([opponent_of_int]) and misses a win in one
      ([choose_int_misses_win]).
    - Refinement ([Spec]).  [play], [can_play] and
      [get_valid_locations] implement [drop_piece], [canPlay] and
      [legalColumns] ([play_refines_drop], [play_all_refines]);
      [is_winning], the terminal test and [eval_board] implement [wins],
      [terminal] and [evaluate] ([scoring_refines]); [minimax] called
      with the str of a player returns the value of the game and the
      specification's move ([minimax_refines_value],
      [minimax_refines_move]); when a column wins at once it returns the
      score 1000000 and a column from which the win is forced, at depth
      1 a column that wins ([engine_takes_win]); called with the int 1
      of the second player it returns the value of the game as well
      ([second_player_refines]), called with the int 0 of the first it
      does not ([int_piece_diverges]); called with a negative depth it
      returns the value of the game played to the end
      ([minimax_solves_game], run on a position six moves before a draw
      in [endgame_solved]).
    - Objects ([Store]).  [play_obj] implements [play] and writes to the
      object it is called on only ([play_obj_refines]); a copy is made
      of fresh locations and shares nothing with the original
      ([deepcopy_independent]); after the copy and the move the child
      holds the new position and the caller's board the old one
      ([branch_isolated]); the search on the store returns what the
      search on values returns and changes no object that existed
      ([minimax_obj_refines]).  With [copy.copy] in place of [deepcopy]
      a move on the copy shows on the original
      ([shallow_copy_aliases]).
    - Sessions on objects ([Session]).  [main_obj] reads, prints, draws
      and ends as [main] does, from any store, and changes no object
      that existed ([main_obj_refines]), so that what is proved of
      [main] holds of the program on objects ([main_obj_terminates]);
      the session that [RESET] starts leaves the board of the session
      that received the command ([reset_keeps_board]).
    - Tests ([Tests]).  The tests of the repository pass from every
      store and world, one after the other ([test_play_middle_passes],
      [TestBoard_passes]).
    - Win detection ([Win]).  [is_winning] holds exactly when four cells
      in a line hold the piece ([is_winning_iff]); a move creates a win
      for the piece moved only and destroys none.  Boards with the same
      grid ([same_grid]) are not told apart by any method ([Proper]
      instances).
    - Board ([Board]).  Legality of columns ([legality]), the effect of
      [play] on every branch ([play_spec], [play_rejects]), the shape and
      gravity invariants of every reachable board
      ([reachable_invariant]), what [history] and [last_move] record
      ([history_invariant]) and what the cells can hold ([cells_typed]);
      the text of [print_board] read back line by line and bar by bar
      is the grid ([print_board_roundtrip], with [split] the inverse of
      [join]), so boards that print alike have the same grid
      ([print_board_inj]).
    - Evaluation ([Eval]).  The three cases of [eval_board] and its
      bounds.
    - Subscripts ([Checked]).  On a board of 6 rows of 7 cells no
      subscript of [can_play], [get_next_open_row], [play],
      [get_valid_locations], [is_winning] and [eval_board] raises
      [IndexError], and the checked methods return what the total ones
      return ([checked_methods_agree]); without the shape they differ
      ([can_play_checked_needs_shape]).
    - Driver ([Driver]).  [main] halts on every finite input
      ([main_terminates]) and its outcome does not depend on the fuel
      ([main_fuel_irrelevant]); it returns only on a win
      ([main_returns_on_win]); the invariant of a session
      ([session_invariant]); what each command does ([move_command],
      [play_command], [play_on_full_board], [reset_resumes_session],
      [unknown_command_passes_turn]); the column printed in a [MOVE]
      command is the column read ([move_roundtrip]); a game of the
      engine against itself ends ([self_play_ends]); a won and a drawn
      game run through ([session_game], [session_draw]), and the end
      of the game the engine plays against itself, where the first
      player does not block and loses ([self_play_game]).

    ** Bounds and fuel

    The grid is 6 by 7 as in the source ([ROWS], [COLS]); ints are
    unbounded as in Python.  [minimax] recurses on [depth - 1] and is
    defined by recursion on fuel: for a depth that is not negative
    [depth + 1] units are enough, which [choose] gives it, and more fuel
    changes nothing.  With a negative depth the source recurses until the
    board is terminal: one unit more than there are empty cells, 43 at
    most, is enough then.  [loop] reads one line
    per iteration, a nested session included: one unit of fuel more than
    there are lines is enough, for every input.

    ** What is not modelled

    Outside [Store] and [Session] objects are values.  The store has
    the objects of a [Board] only: methods that only read are functions
    of the value the object holds, and the ints, strs and tuples the
    driver passes around are values.  Objects are never freed: the
    store grows with every copy the search makes, which is why the
    concrete sessions run on the store are games of [MOVE] commands.
    Text is ASCII:
    [strip] and [int] do not know the non-ASCII white space and digits
    that Python accepts, nor the limit on the length of an int literal;
    [repr] of a str is exact for printable text without quotes.  The
    buffering of standard output and the traceback printed when [main]
    raises are outside the model. *)

From stdpp Require Export base tactics option list numbers strings pretty.
From stdpp Require Export sorting.

(** ** Hint databases

    [c4] collects the resolution hints of the development (shape and
    gravity preservation, legality facts), [leaf] those on the scores a
    search returns; [grid] is the rewrite database
    that normalises reads after writes on the grid. *)

Create HintDb c4 discriminated.
Create HintDb leaf discriminated.
Create Rewrite HintDb grid.

(** ** Tactics *)

(** Case analysis on the first [bool_decide] or boolean test in the goal. *)
Ltac case_bool :=
  match goal with
  | |- context [bool_decide ?P] => destruct (decide P);
      [rewrite ?(bool_decide_eq_true_2 P) by assumption
      |rewrite ?(bool_decide_eq_false_2 P) by assumption]
  | |- context [if ?b then _ else _] => destruct b eqn:?
  end.

(** Turn boolean hypotheses into propositions. *)
Ltac bool_hyps :=
  repeat match goal with
  | H : _ && _ = true |- _ => apply andb_true_iff in H; destruct H
  | H : _ || _ = false |- _ => apply orb_false_iff in H; destruct H
  | H : negb _ = true |- _ => apply negb_true_iff in H
  | H : negb _ = false |- _ => apply negb_false_iff in H
  | H : bool_decide _ = true |- _ => apply bool_decide_eq_true_1 in H
  | H : bool_decide _ = false |- _ => apply bool_decide_eq_false_1 in H
  | H : (_ <=? _)%Z = true |- _ => apply Z.leb_le in H
  | H : (_ <=? _)%Z = false |- _ => apply Z.leb_gt in H
  | H : (_ <? _)%Z = true |- _ => apply Z.ltb_lt in H
  | H : (_ <? _)%Z = false |- _ => apply Z.ltb_ge in H
  | H : (_ =? _)%Z = true |- _ => apply Z.eqb_eq in H
  | H : (_ =? _)%Z = false |- _ => apply Z.eqb_neq in H
  end.

(** ** Loops that build a list

    [for x in xs: if p(x): acc.append(x)] is a left fold that appends; it
    computes [filter]. *)

Section append_loop.
Context {A : Type} (p : A → bool).

Definition append_if (acc : list A) (x : A) : list A :=
  if p x then acc ++ [x] else acc.

Lemma foldl_append_if acc l :
  foldl append_if acc l = acc ++ filter (λ x, p x = true) l.
Proof.
  revert acc; induction l as [|x l IH]; intros acc; simpl.
  - by rewrite app_nil_r.
  - rewrite IH. unfold append_if. rewrite filter_cons.
    destruct (p x) eqn:Hp.
    + rewrite decide_True by done. by rewrite <-app_assoc.
    + rewrite decide_False by congruence. done.
Qed.
End append_loop.

Lemma StronglySorted_filter {A} (R : relation A) (P : A → Prop)
    `{∀ x, Decision (P x)} (l : list A) :
  StronglySorted R l → StronglySorted R (filter P l).
Proof.
  induction 1 as [|x l _ IH Hx]; [constructor|].
  rewrite filter_cons. case_decide; [|done].
  constructor; [done|]. rewrite Forall_forall in Hx |- *.
  intros y [_ Hy]%list_elem_of_filter. by apply Hx.
Qed.

(** ** Grids: lists of rows

    A Python list of lists read with [g[r][c]] and written in place with
    [g[r][c] = x].  Reads outside the grid yield the default [d] here and
    writes outside do nothing; [Python.getitem] is the checked read, and
    [grid_get_checked] relates the two on a grid of known shape. *)

Section grid.
Context {A : Type}.
Implicit Types (g : list (list A)) (r c : nat) (x d : A).

Definition grid_get d g r c : A := default d (g !! r ≫= (.!! c)).

Definition grid_set g r c x : list (list A) := alter (<[c := x]>) r g.

(** Every one of the [n] rows has [m] cells. *)
Definition grid_shape (n m : nat) g : Prop :=
  length g = n ∧ Forall (λ row, length row = m) g.

Lemma grid_shape_row n m g r row :
  grid_shape n m g → g !! r = Some row → length row = m.
Proof. intros [_ Hrows] Hr. by eapply (Forall_lookup_1 _ _ _ _ Hrows). Qed.

Lemma grid_shape_lookup n m g r c :
  grid_shape n m g → r < n → c < m →
  ∃ row x, g !! r = Some row ∧ row !! c = Some x.
Proof.
  intros Hs Hr Hc. destruct (lookup_lt_is_Some_2 g r) as [row Hrow].
  { destruct Hs as [-> _]. done. }
  destruct (lookup_lt_is_Some_2 row c) as [x Hx].
  { by rewrite (grid_shape_row _ _ _ _ _ Hs Hrow). }
  eauto.
Qed.

Lemma grid_set_shape n m g r c x :
  grid_shape n m g → grid_shape n m (grid_set g r c x).
Proof.
  intros [Hn Hrows]. split; unfold grid_set.
  - by rewrite length_alter.
  - apply Forall_alter; [done|]. intros row _ <-. apply length_insert.
Qed.

Lemma grid_get_set_eq d g r c x row :
  g !! r = Some row → c < length row →
  grid_get d (grid_set g r c x) r c = x.
Proof.
  intros Hr Hc. unfold grid_get, grid_set.
  rewrite list_lookup_alter_eq, Hr. simpl.
  by rewrite list_lookup_insert_eq.
Qed.

Lemma grid_get_set_ne d g r c x r' c' :
  (r, c) ≠ (r', c') →
  grid_get d (grid_set g r c x) r' c' = grid_get d g r' c'.
Proof.
  intros Hne. unfold grid_get, grid_set.
  destruct (decide (r = r')) as [<-|Hr].
  - rewrite list_lookup_alter_eq. destruct (g !! r) as [row|]; [simpl|done].
    rewrite list_lookup_insert_ne; [done | congruence].
  - by rewrite list_lookup_alter_ne.
Qed.

(** A write that stores what is already there changes nothing. *)
Lemma grid_set_same d g r c row :
  g !! r = Some row → c < length row →
  grid_set g r c (grid_get d g r c) = g.
Proof.
  intros Hr Hc. unfold grid_get, grid_set. rewrite Hr. simpl.
  destruct (lookup_lt_is_Some_2 row c Hc) as [x Hx]. rewrite Hx. simpl.
  apply list_eq. intros i. destruct (decide (r = i)) as [<-|].
  - rewrite list_lookup_alter_eq, Hr. simpl. by rewrite list_insert_id.
  - by rewrite list_lookup_alter_ne.
Qed.
End grid.

#[export] Hint Resolve grid_set_shape : c4.
#[export] Hint Rewrite @grid_get_set_ne using congruence : grid.

(** ** Lists as stores *)

Lemma alter_insert {A} (f : A → A) (l : list A) (i : nat) (y : A) :
  l !! i = Some y → alter f i l = <[i := f y]> l.
Proof.
  intros Hi. apply list_eq. intros j. destruct (decide (i = j)) as [<-|].
  - rewrite list_lookup_alter_eq, list_lookup_insert_eq, Hi;
      [done | by eapply lookup_lt_Some].
  - by rewrite list_lookup_alter_ne, list_lookup_insert_ne.
Qed.

(** A list that agrees with an extension of [l] on the indices of [l]
    extends [l]. *)
Lemma prefix_agree {A} (l l1 l2 : list A) :
  l `prefix_of` l1 → length l1 ≤ length l2 →
  (∀ i, i < length l → l2 !! i = l1 !! i) → l `prefix_of` l2.
Proof.
  intros Hp Hlen Hag. pose proof (prefix_length _ _ Hp).
  exists (drop (length l) l2). rewrite <-(take_drop (length l) l2) at 1.
  f_equal. apply list_eq. intros i. destruct (decide (i < length l)) as [Hi|Hi].
  - rewrite lookup_take_lt, Hag by done.
    destruct (lookup_lt_is_Some_2 l i Hi) as [x Hx]. rewrite Hx.
    by eapply prefix_lookup_Some.
  - rewrite lookup_take_ge by lia. symmetry. apply lookup_ge_None_2. lia.
Qed.

(** ** Counting with [filter] *)

Lemma if_bool_decide {B} (P : Prop) `{Decision P} (x y : B) :
  (if bool_decide P then x else y) = (if decide P then x else y).
Proof.
  destruct (decide P);
    [by rewrite bool_decide_eq_true_2 | by rewrite bool_decide_eq_false_2].
Qed.

Lemma filter_none {A} (P : A → Prop) `{∀ x, Decision (P x)} (l : list A) :
  Forall (λ x, ¬ P x) l → filter P l = [].
Proof.
  induction 1 as [|x l Hx _ IH]; [done|]. by rewrite filter_cons, decide_False.
Qed.

Lemma filter_ext_in {A} (P Q : A → Prop) `{∀ x, Decision (P x)}
    `{∀ x, Decision (Q x)} (l : list A) :
  (∀ x, x ∈ l → P x ↔ Q x) → filter P l = filter Q l.
Proof.
  induction l as [|x l IH]; intros HPQ; [done|].
  assert (P x ↔ Q x) as Hx by (apply HPQ; left).
  rewrite !filter_cons, IH by (intros; apply HPQ; by right).
  destruct (decide (P x)), (decide (Q x)); try done; tauto.
Qed.

Lemma length_filter_fmap {A B} (f : A → B) (P : B → Prop)
    `{∀ y, Decision (P y)} (l : list A) :
  length (filter P (f <$> l)) = length (filter (λ x, P (f x)) l).
Proof.
  induction l as [|x l IH]; [done|]. rewrite fmap_cons, !filter_cons.
  case_decide; simpl; by rewrite IH.
Qed.

(** Counting the positions that hold [x] counts the occurrences of [x]. *)
Lemma length_filter_lookup {A} `{EqDecision A} (l : list A) (x : A) (n : nat) :
  length l ≤ n →
  length (filter (λ j, l !! j = Some x) (seq 0 n))
  = length (filter (λ y, y = x) l).
Proof.
  revert n. induction l as [|y l IH]; intros n Hn.
  { rewrite (filter_none (λ j, [] !! j = Some x)); [done|].
    by apply Forall_forall. }
  destruct n as [|n]; simpl in Hn; [lia|].
  specialize (IH n ltac:(lia)).
  cbn [seq]. rewrite <-fmap_S_seq, !filter_cons. cbn [lookup list_lookup].
  destruct (decide (Some y = Some x)), (decide (y = x)); simplify_eq;
    cbn [length]; rewrite length_filter_fmap; cbn [lookup list_lookup];
    first [exact IH | f_equal; exact IH].
Qed.

(** Overwriting an element that satisfies [P] by one that does not
    leaves one element less that satisfies [P]. *)
Lemma length_filter_insert {A} (P : A → Prop) `{∀ x, Decision (P x)}
    (l : list A) (i : nat) (x y : A) :
  l !! i = Some y → P y → ¬ P x →
  S (length (filter P (<[i:=x]> l))) = length (filter P l).
Proof.
  revert i. induction l as [|z l IH]; intros [|i] Hi Hy Hx; simplify_eq/=.
  - by rewrite !filter_cons, (decide_False (P := P x)),
      (decide_True (P := P y)).
  - rewrite !filter_cons. case_decide; simpl; by rewrite (IH i).
Qed.

(** The same for a sum over the rows of a grid. *)
Lemma sum_list_alter_S {A} (f : A → nat) (h : A → A) (l : list A) (i : nat)
    (y : A) :
  l !! i = Some y → S (f (h y)) = f y →
  S (sum_list (f <$> alter h i l)) = sum_list (f <$> l).
Proof.
  revert i. induction l as [|z l IH]; intros [|i] Hi Hy; simplify_eq/=.
  - lia.
  - specialize (IH i Hi Hy). lia.
Qed.

Lemma sum_list_fmap_le {A} (f : A → nat) (l : list A) (m : nat) :
  Forall (λ y, f y ≤ m) l → sum_list (f <$> l) ≤ length l * m.
Proof.
  induction 1 as [|y l Hy _ IH]; [done|].
  rewrite fmap_cons. simpl. lia.
Qed.

Lemma sum_list_fmap_lookup {A} (f : A → nat) (l : list A) i x :
  l !! i = Some x → f x ≤ sum_list (f <$> l).
Proof.
  revert i. induction l as [|y l IH]; intros [|i] Hi; simplify_eq/=; [lia|].
  specialize (IH _ Hi). lia.
Qed.

Lemma length_filter_elem {A} (P : A → Prop) `{∀ x, Decision (P x)}
    (l : list A) x :
  x ∈ l → P x → 0 < length (filter P l).
Proof.
  intros Hx HP. assert (x ∈ filter P l) as Hin by by apply list_elem_of_filter.
  destruct (filter P l); [by apply elem_of_nil in Hin | simpl; lia].
Qed.

Lemma fmap_sub_seq (n : nat) : (λ r, n - 1 - r) <$> seq 0 n = reverse (seq 0 n).
Proof.
  apply list_eq. intros i. rewrite list_lookup_fmap.
  destruct (decide (i < n)) as [Hi|Hi].
  - rewrite reverse_lookup, length_seq by (by rewrite length_seq).
    rewrite !lookup_seq_lt by lia. simpl. f_equal. lia.
  - rewrite lookup_seq_ge by lia. symmetry. apply lookup_ge_None_2.
    rewrite length_reverse, length_seq. lia.
Qed.

(** Counting from the other end. *)
Lemma length_filter_rev_index (P : nat → Prop) `{∀ j, Decision (P j)} (n : nat) :
  length (filter (λ r, P (n - 1 - r)) (seq 0 n)) = length (filter P (seq 0 n)).
Proof.
  rewrite <-(length_filter_fmap (λ r, n - 1 - r) P), fmap_sub_seq.
  by rewrite filter_reverse, length_reverse.
Qed.

(** ** Lists related element by element *)

Section related.
Context {A B C : Type}.

Lemma Forall2_omap (R : B → C → Prop) (f : A → option B) (g : A → option C)
    (l : list A) :
  (∀ x, x ∈ l → option_Forall2 R (f x) (g x)) →
  Forall2 R (omap f l) (omap g l).
Proof.
  induction l as [|x l IH]; intros Hfg; [constructor|]. simpl.
  destruct (Hfg x ltac:(left)); [constructor; [done|]|];
    apply IH; intros; apply Hfg; by right.
Qed.

Lemma Forall2_fmap_eq {D} (f : A → D) (g : B → D) (l : list A) (k : list B) :
  Forall2 (λ x y, f x = g y) l k → f <$> l = g <$> k.
Proof. induction 1; [done|]. rewrite !fmap_cons. congruence. Qed.
End related.
