(* ===== verification/Python.v ===== *)
(** * Python: the values, numbers, exceptions and effects [src/main.py] uses

    The program is dynamically typed and the engine's behaviour depends on
    it: a piece is the int [0] or [1] in [main] and the str ['0'] or ['1']
    in the grid, and [==] between an int and a str is [False].  This file
    models what the source relies on:
    - [pyval]: the values a piece or a move can be, with [str()],
      [repr()] and [==];
    - [pyerr], [res]: the exceptions the code can raise, and results;
    - [strip], [contains], [replace], [int_of_str]: the str operations of
      the command loop, on ASCII text;
    - [getitem]: checked list indexing (negative indices, [IndexError]);
    - [num]: the scores, which mix ints with [math.inf] and [-math.inf];
    - [ST S]: computations over a state [S]: the state is threaded, an
      exception aborts, and recursion can run out of fuel; [M] is the
      instance for the search, whose state is the random generator;
      [wp] is the total-correctness predicate transformer, [⊑] the
      definedness order in which more fuel gives more. *)

From Stdlib Require Import Ascii.
From S2P Require Import Prelude.

(** ** Values *)

Inductive pyval : Type :=
  | PyInt (z : Z)
  | PyStr (s : string)
  | PyNone.

#[export] Instance pyval_eq_dec : EqDecision pyval.
Proof. solve_decision. Defined.

(** [str(v)] *)
Definition py_str (v : pyval) : string :=
  match v with
  | PyInt z => pretty z
  | PyStr s => s
  | PyNone => "None"
  end.

(** [a == b]: values of different types are never equal. *)
Definition py_eq (a b : pyval) : bool := bool_decide (a = b).

(** ** Exceptions *)

Inductive pyerr : Type :=
  | ValueError (msg : string)
  | TypeError
  | IndexError
  | EOFError
  | AssertionError.

#[export] Instance pyerr_eq_dec : EqDecision pyerr.
Proof. solve_decision. Defined.

Inductive res (A : Type) : Type :=
  | Ok (a : A)
  | Raise (e : pyerr).
Arguments Ok {A} a.
Arguments Raise {A} e.

Definition is_ok {A} (r : res A) : bool :=
  match r with Ok _ => true | Raise _ => false end.

(** Results form a monad: an exception aborts what follows. *)
#[export] Instance res_ret : MRet res := @Ok.

#[export] Instance res_bind : MBind res :=
  λ A B f r, match r with Ok a => f a | Raise e => Raise e end.

(** Two results related by [R]: both succeed, with related values, or
    both raise the same exception. *)
Definition res_rel {A1 A2 : Type} (R : A1 → A2 → Prop)
    (r1 : res A1) (r2 : res A2) : Prop :=
  match r1, r2 with
  | Ok a1, Ok a2 => R a1 a2
  | Raise e1, Raise e2 => e1 = e2
  | _, _ => False
  end.

(** ** Strings

    Strings are sequences of ASCII characters: what follows is Python's
    behaviour on ASCII text. *)

(** [c.isspace()]: tab to carriage return, the four separators and the
    space. *)
Definition is_space (c : ascii) : bool :=
  let n := nat_of_ascii c in
  (9 <=? n) && (n <=? 13) || (28 <=? n) && (n <=? 32).

Fixpoint lstrip (s : string) : string :=
  match s with
  | String c s' => if is_space c then lstrip s' else s
  | EmptyString => EmptyString
  end.

(** [s.strip()] *)
Definition strip (s : string) : string :=
  String.rev (lstrip (String.rev (lstrip s))).

(** [sub in s] *)
Fixpoint contains (sub s : string) : bool :=
  String.prefix sub s
  || match s with
     | String _ s' => contains sub s'
     | EmptyString => false
     end.

(** [s.replace(old, new)] for an [old] that is not empty: occurrences are
    replaced from the left and do not overlap; [skip] counts the
    characters of a matched occurrence still to drop. *)
Fixpoint replace_go (old new : string) (skip : nat) (s : string) : string :=
  match s with
  | EmptyString => EmptyString
  | String c s' =>
      match skip with
      | S k => replace_go old new k s'
      | 0 =>
          if String.prefix old s then
            new +:+ replace_go old new (String.length old - 1) s'
          else String c (replace_go old new 0 s')
      end
  end.

Definition replace (old new s : string) : string := replace_go old new 0 s.

(** The digits of an int literal: decimal digits, single underscores
    allowed between two of them. *)
Fixpoint digits_go (acc : Z) (after_digit : bool) (s : string) : option Z :=
  match s with
  | EmptyString => if after_digit then Some acc else None
  | String c s' =>
      match Ascii.is_nat c with
      | Some d => digits_go (10 * acc + Z.of_nat d) true s'
      | None =>
          if Ascii.eqb c "_"%char && after_digit then digits_go acc false s'
          else None
      end
  end.

Definition parse_int (s : string) : option Z :=
  match strip s with
  | String "+"%char r => digits_go 0 false r
  | String "-"%char r => Z.opp <$> digits_go 0 false r
  | r => digits_go 0 false r
  end.

(** [repr(v)]; for a str, exact when it has no quote, no backslash and no
    control character. *)
Definition py_repr (v : pyval) : string :=
  match v with
  | PyInt z => pretty z
  | PyStr s => "'" +:+ s +:+ "'"
  | PyNone => "None"
  end.

(** [int(s)] *)
Definition int_of_str (s : string) : res Z :=
  match parse_int s with
  | Some z => Ok z
  | None =>
      Raise (ValueError ("invalid literal for int() with base 10: "
                         +:+ py_repr (PyStr s)))
  end.

(** Every character of [s] satisfies [p]. *)
Fixpoint all_chars (p : ascii → bool) (s : string) : bool :=
  match s with
  | EmptyString => true
  | String c s' => p c && all_chars p s'
  end.

(** [sep not in s], for a separator of one character. *)
Definition without_char (sep : ascii) (s : string) : bool :=
  all_chars (λ c, negb (Ascii.eqb c sep)) s.

(** [s.split(sep)], for a separator of one character. *)
Fixpoint split (sep : ascii) (s : string) : list string :=
  match s with
  | EmptyString => [EmptyString]
  | String c s' =>
      if Ascii.eqb c sep then EmptyString :: split sep s'
      else match split sep s' with
           | [] => [String c EmptyString]
           | x :: xs => String c x :: xs
           end
  end.

Definition is_digit (c : ascii) : bool := bool_decide (is_Some (Ascii.is_nat c)).

(** The characters of [str] of an int. *)
Definition is_int_char (c : ascii) : bool := is_digit c || Ascii.eqb c "-".

(** ** List indexing: [l[i]] *)

Definition getitem {A} (l : list A) (i : Z) : res A :=
  let n := Z.of_nat (length l) in
  let j := if (i <? 0)%Z then (i + n)%Z else i in
  if (0 <=? j)%Z && (j <? n)%Z then
    match l !! Z.to_nat j with
    | Some x => Ok x
    | None => Raise IndexError
    end
  else Raise IndexError.

(** [l[i] = x] *)
Definition setitem {A} (l : list A) (i : Z) (x : A) : res (list A) :=
  let n := Z.of_nat (length l) in
  let j := if (i <? 0)%Z then (i + n)%Z else i in
  if (0 <=? j)%Z && (j <? n)%Z then Ok (<[Z.to_nat j := x]> l)
  else Raise IndexError.

(** A loop that returns [True] at the first element for which [f] does,
    as [any] over a generator; and [all], that returns [False] at the
    first for which it does not.  An exception of [f] ends the loop. *)
Fixpoint any_res {A} (f : A → res bool) (l : list A) : res bool :=
  match l with
  | [] => Ok false
  | x :: l' => v ← f x; if v : bool then Ok true else any_res f l'
  end.

Fixpoint all_res {A} (f : A → res bool) (l : list A) : res bool :=
  match l with
  | [] => Ok true
  | x :: l' => v ← f x; if v : bool then all_res f l' else Ok false
  end.

(** [[f(x) for x in l]] *)
Fixpoint map_res {A B} (f : A → res B) (l : list A) : res (list B) :=
  match l with
  | [] => Ok []
  | x :: l' => y ← f x; ys ← map_res f l'; Ok (y :: ys)
  end.

(** ** Scores: ints together with [math.inf] and [-math.inf] *)

Inductive num : Type :=
  | NegInf
  | Fin (z : Z)
  | PosInf.

#[export] Instance num_eq_dec : EqDecision num.
Proof. solve_decision. Defined.

(** The order is lexicographic on ([rank], [fin_part]); stating it this
    way lets [lia] decide goals about scores. *)
Definition rank (x : num) : Z :=
  match x with NegInf => -1 | Fin _ => 0 | PosInf => 1 end.

Definition fin_part (x : num) : Z :=
  match x with Fin z => z | _ => 0 end.

Definition num_lt (x y : num) : Prop :=
  (rank x < rank y ∨ (rank x = rank y ∧ fin_part x < fin_part y))%Z.

Definition num_le (x y : num) : Prop :=
  (rank x < rank y ∨ (rank x = rank y ∧ fin_part x ≤ fin_part y))%Z.

#[export] Instance num_lt_dec x y : Decision (num_lt x y).
Proof. unfold num_lt. apply _. Defined.
#[export] Instance num_le_dec x y : Decision (num_le x y).
Proof. unfold num_le. apply _. Defined.

(** [max(a, b)] returns [a] unless [b] is strictly greater; [min(a, b)]
    returns [a] unless [b] is strictly smaller. *)
Definition num_max (a b : num) : num := if decide (num_lt a b) then b else a.
Definition num_min (a b : num) : num := if decide (num_lt b a) then b else a.

Definition is_fin (x : num) : Prop := rank x = 0%Z.

(** For proofs: scores strictly inside (-[K], [K]) embed in [Z] with the
    infinities sent to -[K] and [K], and the embedding preserves and
    reflects the order. *)
Definition emb (K : Z) (x : num) : Z :=
  match x with NegInf => - K | Fin z => z | PosInf => K end.

Definition within (K : Z) (x : num) : Prop := (- K < fin_part x < K)%Z.

Declare Scope num_scope.
Delimit Scope num_scope with num.
Bind Scope num_scope with num.
Infix "<" := num_lt : num_scope.
Infix "≤" := num_le : num_scope.

(** ** Effects: random state, exceptions, fuel *)

(** The generator is the stream of its future draws. *)
Definition rng : Type := nat → nat.

Definition rng_next (g : rng) : rng := λ n, g (S n).

Inductive outcome (A : Type) : Type :=
  | Val (a : A)
  | Exc (e : pyerr)
  | OutOfFuel.
Arguments Val {A} a.
Arguments Exc {A} e.
Arguments OutOfFuel {A}.

(** A computation over a state [S]: from a state it returns a value and
    a new state, raises, or exhausts its fuel. *)
Definition ST (S A : Type) : Type := S → outcome (A * S).

(** The computations of the search: the state is the generator. *)
Definition M : Type → Type := ST rng.

#[export] Instance rng_inhabited : Inhabited rng := populate (λ _, 0).

Definition ret {S A} (a : A) : ST S A := λ g, Val (a, g).

Definition bind {S A B} (m : ST S A) (k : A → ST S B) : ST S B :=
  λ g, match m g with
       | Val (a, g') => k a g'
       | Exc e => Exc e
       | OutOfFuel => OutOfFuel
       end.

Definition raise {S A} (e : pyerr) : ST S A := λ _, Exc e.

Definition out_of_fuel {S A} : ST S A := λ _, OutOfFuel.

Definition lift {S A} (r : res A) : ST S A :=
  match r with Ok a => ret a | Raise e => raise e end.

(** [random.choice(l)]: [IndexError] on an empty sequence, else the
    element at a drawn index below [len(l)]. *)
Definition random_choice {A} (l : list A) : M A :=
  λ g, match l !! (g 0 `mod` length l)%nat with
       | Some x => Val (x, rng_next g)
       | None => Exc IndexError
       end.

Declare Scope py_scope.
Delimit Scope py_scope with py.
Notation "x <- m ;; k" := (bind m (λ x, k))
  (at level 20, m at level 99, k at level 200, only parsing) : py_scope.
Notation "' pat <- m ;; k" := (bind m (λ x, match x with pat => k end))
  (at level 20, pat pattern, m at level 99, k at level 200, only parsing)
  : py_scope.

(** The value of a run, the final state dropped. *)
Definition run {S A} (m : ST S A) (g : S) : outcome A :=
  match m g with
  | Val (a, _) => Val a
  | Exc e => Exc e
  | OutOfFuel => OutOfFuel
  end.

(** [wp m Q]: from every state, [m] returns a value (no exception, enough
    fuel) and the value satisfies [Q]. *)
Definition wp {S A} (m : ST S A) (Q : A → Prop) : Prop :=
  ∀ g, ∃ a g', m g = Val (a, g') ∧ Q a.

(** [det m]: [m] returns, and the same value from every state. *)
Definition det {S A} (m : ST S A) : Prop := ∃ a, wp m (λ x, x = a).

(** The definedness order: an outcome that ran out of fuel is below every
    outcome, and any other outcome only below itself.  A computation is
    below another when it is from every state: more fuel can only turn
    [OutOfFuel] into a result. *)
#[export] Instance outcome_below {A} : SqSubsetEq (outcome A) :=
  λ o1 o2, o1 = OutOfFuel ∨ o1 = o2.

#[export] Instance st_below {S A} : SqSubsetEq (ST S A) :=
  λ m1 m2, ∀ s, m1 s ⊑ m2 s.

(** * Lemmas *)

Section values.
Lemma py_eq_spec a b : py_eq a b = true ↔ a = b.
Proof. unfold py_eq. apply bool_decide_eq_true. Qed.

(** An int is never equal to a str, whatever they print as. *)
Lemma py_eq_int_str z s : py_eq (PyInt z) (PyStr s) = false.
Proof. done. Qed.

Lemma py_str_str s : py_str (PyStr s) = s.
Proof. done. Qed.

Lemma py_str_idemp v : py_str (PyStr (py_str v)) = py_str v.
Proof. done. Qed.

(** The two pieces of [main] print as the two marks of the grid. *)
Lemma py_str_int0 : py_str (PyInt 0) = "0".
Proof. reflexivity. Qed.

Lemma py_str_int1 : py_str (PyInt 1) = "1".
Proof. reflexivity. Qed.
End values.

(** ** Strings: [str] of an int read back by [int] *)

Section strings.
Implicit Types (s t : string) (c : ascii) (p : ascii → bool).

Lemma rev_app_rev_app s t u :
  String.rev_app (String.rev_app s t) u = String.rev_app t (s +:+ u).
Proof. revert t. induction s as [|a s IH]; intros t; [done|]. apply IH. Qed.

Lemma app_empty_r s : s +:+ "" = s.
Proof. induction s as [|a s IH]; [done|]. by rewrite <-IH at 2. Qed.

Lemma rev_involutive s : String.rev (String.rev s) = s.
Proof. unfold String.rev. by rewrite rev_app_rev_app, app_empty_r. Qed.

Lemma all_chars_rev_app p s t :
  all_chars p (String.rev_app s t) = all_chars p s && all_chars p t.
Proof.
  revert t. induction s as [|a s IH]; intros t; [done|]. simpl.
  rewrite IH. simpl. by destruct (p a), (all_chars p s).
Qed.

Lemma all_chars_impl p q s :
  (∀ c, p c = true → q c = true) → all_chars p s = true → all_chars q s = true.
Proof.
  intros Hpq. induction s as [|a s IH]; [done|]. simpl.
  intros [Ha Hs]%andb_true_iff. by rewrite (Hpq _ Ha), IH.
Qed.

Lemma all_chars_app p s t :
  all_chars p (s +:+ t) = all_chars p s && all_chars p t.
Proof.
  induction s as [|a s IH]; [done|].
  change (String a s +:+ t) with (String a (s +:+ t)). cbn [all_chars].
  rewrite IH. by destruct (p a).
Qed.

Lemma string_app_assoc s t u : (s +:+ t) +:+ u = s +:+ (t +:+ u).
Proof.
  induction s as [|a s IH]; [done|].
  change (String a ((s +:+ t) +:+ u) = String a (s +:+ (t +:+ u))).
  by rewrite IH.
Qed.

(** [split] undoes what putting a separator between two texts does. *)
Lemma split_without sep s : without_char sep s = true → split sep s = [s].
Proof.
  induction s as [|a s IH]; [done|]. cbn [split].
  intros [Ha%negb_true_iff Hs]%andb_true_iff. by rewrite Ha, (IH Hs).
Qed.

Lemma split_app sep s t :
  without_char sep s = true →
  split sep (s +:+ String sep t) = s :: split sep t.
Proof.
  induction s as [|a s IH].
  - intros _. change ("" +:+ String sep t) with (String sep t).
    cbn [split]. by rewrite Ascii.eqb_refl.
  - intros [Ha%negb_true_iff Hs]%andb_true_iff.
    change (String a s +:+ String sep t) with (String a (s +:+ String sep t)).
    cbn [split]. by rewrite Ha, (IH Hs).
Qed.

Lemma without_char_app sep s t :
  without_char sep (s +:+ t) = without_char sep s && without_char sep t.
Proof. apply all_chars_app. Qed.

Section without.
Context (p : ascii → bool).

Lemma lstrip_all s :
  (∀ c, p c = true → is_space c = false) → all_chars p s = true → lstrip s = s.
Proof.
  intros Hp. destruct s as [|a s]; [done|]. simpl.
  intros [Ha _]%andb_true_iff. by rewrite (Hp _ Ha).
Qed.

(** [strip] leaves a str without white space as it is. *)
Lemma strip_all s :
  (∀ c, p c = true → is_space c = false) → all_chars p s = true → strip s = s.
Proof.
  intros Hp Hs. unfold strip. rewrite (lstrip_all s), (lstrip_all (String.rev s));
    try done; [apply rev_involutive|].
  unfold String.rev. by rewrite all_chars_rev_app, Hs.
Qed.

Lemma prefix_first o old c s :
  c ≠ o → String.prefix (String o old) (String c s) = false.
Proof. intros Hc. simpl. by destruct (ascii_dec o c). Qed.

(** A str in which the first character of [old] does not occur has no
    occurrence of [old]. *)
Lemma contains_all o old s :
  (∀ c, p c = true → c ≠ o) → all_chars p s = true →
  contains (String o old) s = false.
Proof.
  intros Hp. induction s as [|a s IH]; [done|].
  intros [Ha Hs]%andb_true_iff. cbn [contains].
  by rewrite prefix_first, IH by auto.
Qed.

Lemma replace_all o old new s :
  (∀ c, p c = true → c ≠ o) → all_chars p s = true →
  replace (String o old) new s = s.
Proof.
  intros Hp. unfold replace. induction s as [|a s IH]; [done|].
  intros [Ha Hs]%andb_true_iff. cbn [replace_go].
  by rewrite prefix_first, IH by auto.
Qed.
End without.

Lemma prefix_app old s : String.prefix old (old +:+ s) = true.
Proof.
  induction old as [|a old IH]; [by destruct s|].
  change (String a old +:+ s) with (String a (old +:+ s)). simpl.
  by destruct (ascii_dec a a).
Qed.

Lemma replace_go_skip old new t s :
  replace_go old new (String.length t) (t +:+ s) = replace_go old new 0 s.
Proof. induction t as [|a t IH]; [done|]. apply IH. Qed.

(** An occurrence of [old] at the start is replaced by [new]. *)
Lemma replace_prefix o old new s :
  replace (String o old) new (String o old +:+ s)
  = new +:+ replace (String o old) new s.
Proof.
  unfold replace.
  change (String o old +:+ s) with (String o (old +:+ s)) at 1.
  cbn [replace_go].
  change (String o (old +:+ s)) with (String o old +:+ s).
  rewrite prefix_app. cbn [String.length]. rewrite Nat.sub_1_r. cbn [Nat.pred].
  by rewrite replace_go_skip.
Qed.

Lemma is_nat_pretty_char (d : N) :
  (d < 10)%N → Ascii.is_nat (pretty_N_char d) = Some (N.to_nat d).
Proof.
  intros Hd.
  assert (d = 0 ∨ d = 1 ∨ d = 2 ∨ d = 3 ∨ d = 4 ∨ d = 5 ∨ d = 6 ∨ d = 7
          ∨ d = 8 ∨ d = 9)%N as Hc by lia.
  repeat (destruct Hc as [->|Hc]; [done|]). by subst.
Qed.

Lemma is_digit_pretty_char (d : N) : is_digit (pretty_N_char d) = true.
Proof. unfold pretty_N_char. by repeat case_match. Qed.

Lemma is_int_char_not_space c : is_int_char c = true → is_space c = false.
Proof. by destruct c as [[] [] [] [] [] [] [] []]. Qed.

Lemma is_int_char_not_letter c (o : ascii) :
  is_int_char o = false → is_int_char c = true → c ≠ o.
Proof. by intros Ho Hc ->; rewrite Ho in Hc. Qed.

(** The digits of [x] written before [s]. *)
Lemma pretty_N_go_chars p (x : N) s :
  (∀ d, p (pretty_N_char d) = true) → all_chars p s = true →
  all_chars p (pretty_N_go x s) = true.
Proof.
  intros Hp. revert s. induction (N.lt_wf_0 x) as [x _ IH]; intros s Hs.
  destruct (decide (x = 0)%N) as [->|]; [by rewrite pretty_N_go_0|].
  rewrite pretty_N_go_step by lia. apply IH; [apply N.div_lt; lia|].
  simpl. by rewrite Hp.
Qed.

(** Reading the digits of [x] gives [x]. *)
Lemma digits_go_pretty (x : N) s (b : bool) :
  (0 < x)%N → digits_go 0 b (pretty_N_go x s) = digits_go (Z.of_N x) true s.
Proof.
  revert s b. induction (N.lt_wf_0 x) as [x _ IH]; intros s b Hx.
  rewrite pretty_N_go_step by done.
  pose proof (N.div_mod x 10 ltac:(lia)) as Hdm.
  pose proof (N.mod_upper_bound x 10 ltac:(lia)) as Hm.
  destruct (decide (x `div` 10 = 0)%N) as [Hq|Hq].
  - rewrite Hq, pretty_N_go_0. cbn [digits_go].
    rewrite is_nat_pretty_char by done. f_equal. lia.
  - rewrite IH by (apply N.div_lt || idtac; lia). cbn [digits_go].
    rewrite is_nat_pretty_char by done. f_equal. lia.
Qed.

Lemma pretty_pos (q : positive) : pretty (Z.pos q) = pretty_N_go (N.pos q) "".
Proof. done. Qed.

Lemma pretty_neg (q : positive) :
  pretty (Z.neg q) = String "-" (pretty_N_go (N.pos q) "").
Proof. done. Qed.

Lemma pretty_Z_chars (z : Z) : all_chars is_int_char (pretty z) = true.
Proof.
  assert (∀ d, is_int_char (pretty_N_char d) = true) as Hd.
  { intros d. unfold is_int_char. by rewrite is_digit_pretty_char. }
  destruct z as [|q|q]; [done|..]; rewrite ?pretty_pos, ?pretty_neg; simpl;
    by apply pretty_N_go_chars.
Qed.

(** [str] of an int has none of the other characters in it. *)
Lemma pretty_Z_without (z : Z) (o : ascii) :
  is_int_char o = false → without_char o (pretty z) = true.
Proof.
  intros Ho. eapply all_chars_impl; [|apply pretty_Z_chars].
  intros c Hc. apply negb_true_iff, Ascii.eqb_neq.
  by apply is_int_char_not_letter.
Qed.

(** An int literal that starts with a digit has no sign. *)
Lemma unsigned_digits c r :
  is_digit c = true →
  match String c r with
  | String "+"%char r' => digits_go 0 false r'
  | String "-"%char r' => Z.opp <$> digits_go 0 false r'
  | r' => digits_go 0 false r'
  end = digits_go 0 false (String c r).
Proof. by destruct c as [[] [] [] [] [] [] [] []]. Qed.

Lemma pretty_pos_digits (q : positive) :
  ∃ c r, pretty_N_go (N.pos q) "" = String c r ∧ is_digit c = true.
Proof.
  pose proof (pretty_N_go_chars is_digit (N.pos q) ""
                is_digit_pretty_char eq_refl) as Hall.
  pose proof (digits_go_pretty (N.pos q) "" false ltac:(lia)) as Hval.
  destruct (pretty_N_go (N.pos q) "") as [|c r]; [done|].
  apply andb_true_iff in Hall as [Hc _]. eauto.
Qed.

Lemma parse_int_pretty (z : Z) : parse_int (pretty z) = Some z.
Proof.
  unfold parse_int.
  rewrite (strip_all is_int_char)
    by auto using is_int_char_not_space, pretty_Z_chars.
  destruct z as [|q|q]; [done|..]; rewrite ?pretty_pos, ?pretty_neg.
  - destruct (pretty_pos_digits q) as (c & r & Heq & Hc).
    rewrite Heq, unsigned_digits, <-Heq by done.
    by rewrite digits_go_pretty.
  - by rewrite digits_go_pretty.
Qed.

(** [int(str(z))] is [z]. *)
Lemma int_of_str_pretty (z : Z) : int_of_str (py_str (PyInt z)) = Ok z.
Proof. unfold int_of_str. simpl. by rewrite parse_int_pretty. Qed.
End strings.

Section getitem.
Context {A : Type}.
Implicit Types (l : list A) (i : Z).

Lemma getitem_nonneg l (n : nat) x :
  l !! n = Some x → getitem l (Z.of_nat n) = Ok x.
Proof.
  intros Hx. pose proof (lookup_lt_Some _ _ _ Hx). unfold getitem.
  rewrite (proj2 (Z.ltb_ge _ _)) by lia.
  rewrite (proj2 (Z.leb_le _ _)), (proj2 (Z.ltb_lt _ _)) by lia.
  simpl. by rewrite Nat2Z.id, Hx.
Qed.

Lemma getitem_error l i :
  (i < - Z.of_nat (length l) ∨ Z.of_nat (length l) ≤ i)%Z →
  getitem l i = Raise IndexError.
Proof.
  intros Hi. unfold getitem.
  destruct (Z.ltb_spec i 0); [|rewrite (proj2 (Z.ltb_ge _ _)) by lia;
                               by rewrite andb_false_r].
  destruct Hi; [|lia]. by rewrite (proj2 (Z.leb_gt _ _)) by lia.
Qed.
End getitem.

(** Reading a cell of a grid of known shape never raises, and agrees with
    the total read [grid_get]. *)
Lemma grid_get_checked {A} (d : A) n m (g : list (list A)) (r c : nat) :
  grid_shape n m g → r < n → c < m →
  getitem g (Z.of_nat r) = Ok (default [] (g !! r)) ∧
  getitem (default [] (g !! r)) (Z.of_nat c) = Ok (grid_get d g r c).
Proof.
  intros Hs Hr Hc.
  destruct (grid_shape_lookup _ _ _ _ _ Hs Hr Hc) as (row & x & Hrow & Hx).
  unfold grid_get. rewrite Hrow. simpl. rewrite Hx. simpl.
  split; by apply getitem_nonneg.
Qed.

Lemma setitem_nonneg {A} (l : list A) (n : nat) (x : A) :
  n < length l → setitem l (Z.of_nat n) x = Ok (<[n := x]> l).
Proof.
  intros Hn. unfold setitem.
  rewrite (proj2 (Z.ltb_ge _ _)) by lia.
  rewrite (proj2 (Z.leb_le _ _)), (proj2 (Z.ltb_lt _ _)) by lia.
  simpl. by rewrite Nat2Z.id.
Qed.

(** Loops whose body never raises. *)
Section loops_ok.
Context {A B : Type}.

Lemma any_res_ok (f : A → res bool) (g : A → bool) (l : list A) :
  (∀ x, x ∈ l → f x = Ok (g x)) → any_res f l = Ok (existsb g l).
Proof.
  induction l as [|x l IH]; intros Hf; [done|]. simpl.
  rewrite (Hf x) by left. simpl. destruct (g x); [done|].
  apply IH. intros. apply Hf. by right.
Qed.

Lemma all_res_ok (f : A → res bool) (g : A → bool) (l : list A) :
  (∀ x, x ∈ l → f x = Ok (g x)) → all_res f l = Ok (forallb g l).
Proof.
  induction l as [|x l IH]; intros Hf; [done|]. simpl.
  rewrite (Hf x) by left. simpl. destruct (g x); [|done].
  apply IH. intros. apply Hf. by right.
Qed.

Lemma map_res_ok (f : A → res B) (g : A → B) (l : list A) :
  (∀ x, x ∈ l → f x = Ok (g x)) → map_res f l = Ok (g <$> l).
Proof.
  induction l as [|x l IH]; intros Hf; [done|]. simpl.
  rewrite (Hf x) by left. simpl. rewrite IH; [done|].
  intros. apply Hf. by right.
Qed.
End loops_ok.

(** ** Scores *)

Lemma num_eq_iff (x y : num) :
  x = y ↔ rank x = rank y ∧ fin_part x = fin_part y.
Proof. split; [by intros ->|]. destruct x, y; simpl; intros [??]; by simplify_eq. Qed.

Lemma rank_range (x : num) :
  (-1 ≤ rank x ≤ 1)%Z ∧ (rank x ≠ 0%Z → fin_part x = 0%Z).
Proof. destruct x; simpl; lia. Qed.

Section embedding.
Implicit Types (K : Z) (x y : num).
Local Open Scope Z_scope.

Lemma within_exists (l : list num) : ∃ K, Forall (within K) l.
Proof.
  induction l as [|x l [K HK]]; [by exists 1|].
  exists (Z.max K (Z.abs (fin_part x) + 1)). constructor.
  - unfold within. lia.
  - eapply Forall_impl; [done|]. unfold within. lia.
Qed.

Lemma emb_lt K x y :
  within K x → within K y → (x < y)%num ↔ emb K x < emb K y.
Proof. unfold within, num_lt. destruct x, y; simpl; lia. Qed.

Lemma emb_le K x y :
  within K x → within K y → (x ≤ y)%num ↔ emb K x ≤ emb K y.
Proof. unfold within, num_le. destruct x, y; simpl; lia. Qed.

Lemma emb_eq K x y : within K x → within K y → x = y ↔ emb K x = emb K y.
Proof. unfold within. rewrite num_eq_iff. destruct x, y; simpl; lia. Qed.

Lemma emb_fin K x : within K x → is_fin x ↔ - K < emb K x < K.
Proof. unfold within, is_fin. destruct x; simpl; lia. Qed.

Lemma emb_range K x : within K x → - K ≤ emb K x ≤ K.
Proof. unfold within. destruct x; simpl; lia. Qed.
End embedding.

(** [num_lia] decides goals about the order of scores: it collects the
    scores compared in the goal and the hypotheses, embeds them in [Z]
    below a common bound, and calls [lia]. *)
Ltac num_mem t l :=
  lazymatch l with
  | nil => constr:(false)
  | t :: _ => constr:(true)
  | _ :: ?l' => num_mem t l'
  end.

Ltac num_add t acc :=
  let b := num_mem t acc in
  lazymatch b with true => acc | false => constr:(t :: acc) end.

Ltac num_new t acc :=
  let b := num_mem t acc in
  lazymatch b with true => fail | false => idtac end.

Ltac num_terms acc :=
  match goal with
  | H : context [num_lt ?x ?y] |- _ => num_pair x y acc
  | H : context [num_le ?x ?y] |- _ => num_pair x y acc
  | H : context [@eq num ?x ?y] |- _ => num_pair x y acc
  | H : context [is_fin ?x] |- _ => num_pair x x acc
  | |- context [num_lt ?x ?y] => num_pair x y acc
  | |- context [num_le ?x ?y] => num_pair x y acc
  | |- context [@eq num ?x ?y] => num_pair x y acc
  | |- context [is_fin ?x] => num_pair x x acc
  | _ => acc
  end
with num_pair x y acc :=
  let _ := match goal with _ => first [num_new x acc | num_new y acc] end in
  let acc := num_add x acc in
  let acc := num_add y acc in
  num_terms acc.

Ltac num_embed K :=
  repeat match goal with
  | H : context [num_lt ?x ?y] |- _ => rewrite (emb_lt K x y) in H by assumption
  | H : context [num_le ?x ?y] |- _ => rewrite (emb_le K x y) in H by assumption
  | H : context [@eq num ?x ?y] |- _ => rewrite (emb_eq K x y) in H by assumption
  | H : context [is_fin ?x] |- _ => rewrite (emb_fin K x) in H by assumption
  | |- context [num_lt ?x ?y] => rewrite (emb_lt K x y) by assumption
  | |- context [num_le ?x ?y] => rewrite (emb_le K x y) by assumption
  | |- context [@eq num ?x ?y] => rewrite (emb_eq K x y) by assumption
  | |- context [is_fin ?x] => rewrite (emb_fin K x) by assumption
  end.

Ltac num_lia :=
  intros; unfold num_max, num_min in *; repeat case_decide;
  let l := num_terms (@nil num) in
  let K := fresh "K" in
  let HK := fresh "HK" in
  destruct (within_exists l) as [K HK];
  repeat (apply Forall_cons in HK; destruct HK as [? HK]); clear HK;
  num_embed K;
  repeat match goal with
  | H : within K _ |- _ => pose proof (emb_range _ _ H); unfold within in H
  end;
  simpl in *; lia.

Section num_order.
Implicit Types x y z : num.
Local Open Scope num_scope.

Lemma num_lt_irrefl x : ¬ x < x.
Proof. num_lia. Qed.
Lemma num_le_refl x : x ≤ x.
Proof. num_lia. Qed.
Lemma num_le_trans x y z : x ≤ y → y ≤ z → x ≤ z.
Proof. num_lia. Qed.
Lemma num_lt_le_trans x y z : x < y → y ≤ z → x < z.
Proof. num_lia. Qed.
Lemma num_le_lt_trans x y z : x ≤ y → y < z → x < z.
Proof. num_lia. Qed.
Lemma num_le_antisym x y : x ≤ y → y ≤ x → x = y.
Proof. num_lia. Qed.
Lemma num_not_lt x y : ¬ x < y ↔ y ≤ x.
Proof. split; num_lia. Qed.
Lemma num_not_le x y : ¬ x ≤ y ↔ y < x.
Proof. split; num_lia. Qed.
Lemma num_lt_total x y : x < y ∨ x = y ∨ y < x.
Proof.
  destruct (decide (x < y)), (decide (y < x)); auto.
  right; left. num_lia.
Qed.

Lemma num_max_ub a b : a ≤ num_max a b ∧ b ≤ num_max a b.
Proof. split; num_lia. Qed.
Lemma num_max_lub a b c : a ≤ c → b ≤ c → num_max a b ≤ c.
Proof. num_lia. Qed.
Lemma num_min_lb a b : num_min a b ≤ a ∧ num_min a b ≤ b.
Proof. split; num_lia. Qed.
Lemma num_min_glb a b c : c ≤ a → c ≤ b → c ≤ num_min a b.
Proof. num_lia. Qed.

Lemma neg_inf_least x : NegInf ≤ x.
Proof. num_lia. Qed.
Lemma pos_inf_greatest x : x ≤ PosInf.
Proof. num_lia. Qed.
Lemma fin_between (k : Z) : NegInf < Fin k ∧ Fin k < PosInf.
Proof. split; num_lia. Qed.
Lemma fin_lt_iff (a b : Z) : Fin a < Fin b ↔ (a < b)%Z.
Proof. split; num_lia. Qed.
Lemma fin_le_iff (a b : Z) : Fin a ≤ Fin b ↔ (a ≤ b)%Z.
Proof. split; num_lia. Qed.
Lemma is_fin_iff x : is_fin x ↔ ∃ k : Z, x = Fin k.
Proof.
  split; [|by intros [k ->]].
  destruct x; unfold is_fin; simpl; try lia. eauto.
Qed.
End num_order.

#[export] Instance num_le_preorder : PreOrder num_le.
Proof. split; [exact num_le_refl | exact num_le_trans]. Qed.
#[export] Instance num_lt_strict : StrictOrder num_lt.
Proof. split; [exact num_lt_irrefl | intros x y z; num_lia]. Qed.

#[export] Hint Resolve num_le_refl neg_inf_least pos_inf_greatest : c4.

(** ** The program logic of [ST] *)

Section wp.
Context {S A B : Type}.
Implicit Types (m : ST S A) (k : A → ST S B).

Lemma wp_ret (a : A) (Q : A → Prop) : Q a → wp (S := S) (ret a) Q.
Proof. intros HQ g. by exists a, g. Qed.

Lemma wp_bind m k (Q : B → Prop) :
  wp m (λ a, wp (k a) Q) → wp (bind m k) Q.
Proof.
  intros Hm g. destruct (Hm g) as (a & g' & Hg & Hk).
  destruct (Hk g') as (b & g'' & Hb & HQ).
  exists b, g''. unfold bind. by rewrite Hg.
Qed.

Lemma wp_mono m (P Q : A → Prop) :
  wp m P → (∀ a, P a → Q a) → wp m Q.
Proof. intros Hm HPQ g. destruct (Hm g) as (a & g' & ? & ?). eauto 6. Qed.

Lemma wp_and m (P Q : A → Prop) :
  wp m P → wp m Q → wp m (λ a, P a ∧ Q a).
Proof.
  intros HP HQ g. destruct (HP g) as (a & g' & Hg & ?).
  destruct (HQ g) as (a' & g'' & Hg' & ?).
  rewrite Hg in Hg'. simplify_eq. by exists a', g''.
Qed.

Lemma wp_lift_ok (a : A) (Q : A → Prop) : Q a → wp (S := S) (lift (Ok a)) Q.
Proof. apply wp_ret. Qed.

Lemma wp_ext m m' (Q : A → Prop) : (∀ g, m g = m' g) → wp m' Q → wp m Q.
Proof. intros Heq Hm g. rewrite Heq. apply Hm. Qed.

(** A computation that satisfies a [wp] neither raises nor runs out of
    fuel, from any generator state. *)
Lemma wp_run m (Q : A → Prop) g : wp m Q → ∃ a, run m g = Val a ∧ Q a.
Proof.
  intros Hm. destruct (Hm g) as (a & g' & Hg & ?).
  exists a. unfold run. by rewrite Hg.
Qed.

(** With a postcondition that pins the value, the result does not
    depend on the generator. *)
Lemma wp_deterministic m (a : A) g1 g2 :
  wp m (λ x, x = a) → run m g1 = run m g2.
Proof.
  intros Hm. destruct (wp_run m _ g1 Hm) as (? & -> & ->).
  by destruct (wp_run m _ g2 Hm) as (? & -> & ->).
Qed.
End wp.

(** ** The definedness order *)

#[export] Instance outcome_below_preorder {A} : PreOrder (⊑@{outcome A}).
Proof.
  split; [by right|]. intros o1 o2 o3 [->| ->] H23; [by left | done].
Qed.

Section below.
Context {S A B : Type}.
Implicit Types (m : ST S A) (k : A → ST S B) (o : outcome A).

#[export] Instance st_below_preorder : PreOrder (⊑@{ST S A}).
Proof.
  split; [by right|]. intros m1 m2 m3 H12 H23 s.
  etrans; [apply H12 | apply H23].
Qed.

(** An outcome that is not [OutOfFuel] is final. *)
Lemma below_defined o1 o2 : o1 ⊑ o2 → o1 ≠ OutOfFuel → o1 = o2.
Proof. by intros [?| ->]. Qed.

Lemma below_Val o (x : A) : Val x ⊑ o → o = Val x.
Proof. by intros [?| ->]. Qed.

Lemma bind_below m1 m2 k1 k2 :
  m1 ⊑ m2 → (∀ a, k1 a ⊑ k2 a) → bind m1 k1 ⊑ bind m2 k2.
Proof.
  intros Hm Hk s. unfold bind. destruct (Hm s) as [->| ->]; [by left|].
  destruct (m2 s) as [[a s']| |]; [apply Hk|by right..].
Qed.

#[export] Instance bind_proper :
  Proper ((⊑) ==> pointwise_relation A (⊑) ==> (⊑)) (bind (S := S) (B := B)).
Proof. intros m1 m2 Hm k1 k2 Hk. by apply bind_below. Qed.

Lemma out_of_fuel_below (m : ST S A) : out_of_fuel ⊑ m.
Proof. intros s. by left. Qed.

(** What a [bind] that returns went through. *)
Lemma bind_Val_inv m k s b s'' :
  bind m k s = Val (b, s'') → ∃ a s', m s = Val (a, s') ∧ k a s' = Val (b, s'').
Proof. unfold bind. destruct (m s) as [[a s']| |]; [eauto|done..]. Qed.

Lemma bind_Val m k s a s' : m s = Val (a, s') → bind m k s = k a s'.
Proof. unfold bind. by intros ->. Qed.
End below.

Lemma is_ok_true {A} (r : res A) : is_ok r = true ↔ ∃ a, r = Ok a.
Proof. destruct r; simpl; split; (done || eauto || by intros [??]). Qed.

(** A call that cannot raise, followed by [k]. *)
Lemma wp_bind_lift {S A B} (r : res A) (k : A → ST S B) (Q : B → Prop) :
  is_ok r = true → (∀ a, r = Ok a → wp (k a) Q) → wp (bind (lift r) k) Q.
Proof.
  intros [a ->]%is_ok_true Hk. apply wp_bind, wp_ret. by apply Hk.
Qed.

Section det.
Context {S A B : Type} `{Inhabited S}.
Implicit Types (m : ST S A) (k : A → ST S B).

Lemma det_ret (a : A) : det (S := S) (ret a).
Proof. exists a. by apply wp_ret. Qed.

Lemma det_bind m k : det m → (∀ a, det (k a)) → det (bind m k).
Proof.
  intros [a Ha] Hk. destruct (Hk a) as [b Hb]. exists b.
  apply wp_bind. eapply wp_mono; [done|]. by intros ? ->.
Qed.

Lemma det_wp m (Q : A → Prop) : det m → wp m Q → ∃ a, Q a ∧ wp m (λ x, x = a).
Proof.
  intros [a Ha] HQ. exists a. split; [|done].
  destruct (wp_and _ _ _ Ha HQ inhabitant) as (? & _ & _ & -> & ?). done.
Qed.

Lemma det_run m g1 g2 : det m → run m g1 = run m g2.
Proof. intros [a Ha]. by eapply wp_deterministic. Qed.
End det.

Lemma wp_random_choice {A} (l : list A) (Q : A → Prop) :
  l ≠ [] → (∀ x, x ∈ l → Q x) → wp (random_choice l) Q.
Proof.
  intros Hl HQ g. unfold random_choice.
  assert (g 0 `mod` length l < length l)%nat as Hlt.
  { apply Nat.mod_upper_bound. by destruct l. }
  destruct (lookup_lt_is_Some_2 _ _ Hlt) as [x Hx]. rewrite Hx.
  exists x, (rng_next g). split; [done|]. apply HQ. by eapply list_elem_of_lookup_2.
Qed.

Lemma random_choice_empty {A} g : random_choice (@nil A) g = Exc IndexError.
Proof. done. Qed.
