(* ===== verification/Board.v ===== *)
(** * Board: the game state of [class Board] in [src/main.py]

    The grid is the list of rows [self.board], row 0 on top; a cell is the
    str [' '] when empty and [str(piece)] once played.  The record holds
    the four attributes [__init__] creates.  An in-place mutation of the
    object is a function from the old record to the new one, and a
    [raise] is a [Raise] result that leaves the old record to the caller.

    Definitions: [init], [can_play], [get_next_open_row], [play],
    [get_valid_locations], [print_board]; the invariants [shape] and
    [gravity]; the boards [reachable] from [init] by [play]. *)

From Stdlib Require Import Ascii.
From S2P Require Import Prelude Python.

(** ** State *)

Definition ROWS : nat := 6.
Definition COLS : nat := 7.

Record Board : Type := mkBoard {
  board : list (list string);
  history : list (pyval * Z);
  last_move : option (nat * Z);
  valid_locations : list Z;
}.

(** [Board()] *)
Definition init : Board :=
  {| board := replicate ROWS (replicate COLS " ");
     history := [];
     last_move := None;
     valid_locations := [] |}.

(** ['1' if piece == '0' else '0']: the other piece, as [minimax] and
    [eval_board] compute it.  The comparison is with the str ['0']. *)
Definition opponent (piece : pyval) : pyval :=
  if py_eq piece (PyStr "0") then PyStr "1" else PyStr "0".

(** [self.board[r][c]] *)
Definition cell (b : Board) (r c : nat) : string := grid_get "" (board b) r c.

(** ** Operations *)

Definition can_play (b : Board) (col : Z) : bool :=
  (0 <=? col)%Z && (col <? Z.of_nat COLS)%Z
  && bool_decide (cell b 0 (Z.to_nat col) = " ").

(** The loop of [get_next_open_row], about to visit rows [n-1] down to 0. *)
Fixpoint next_open_from (b : Board) (col : nat) (n : nat) : option nat :=
  match n with
  | 0 => None
  | S r => if bool_decide (cell b r col = " ") then Some r
           else next_open_from b col r
  end.

(** [col] is a column index: the only caller, [play], has checked it. *)
Definition get_next_open_row (b : Board) (col : nat) : option nat :=
  next_open_from b col ROWS.

(** The three assignments that end [play]. *)
Definition place (b : Board) (row : nat) (col : Z) (piece : pyval) : Board :=
  {| board := grid_set (board b) row (Z.to_nat col) (py_str piece);
     history := history b ++ [(piece, col)];
     last_move := Some (row, col);
     valid_locations := valid_locations b |}.

(** A row that is [None] would make the subscript raise [TypeError]. *)
Definition play (b : Board) (col : Z) (piece : pyval) : res Board :=
  if negb (can_play b col) then
    Raise (ValueError "Column is full or out of bounds")
  else
    match get_next_open_row b (Z.to_nat col) with
    | None => Raise TypeError
    | Some row => Ok (place b row col piece)
    end.

Definition get_valid_locations (b : Board) : list Z :=
  foldl (append_if (can_play b)) [] (seqZ 0 (Z.of_nat COLS)).

(** A sequence of moves played from [b]; the first illegal one raises. *)
Fixpoint play_all (b : Board) (moves : list (Z * pyval)) : res Board :=
  match moves with
  | [] => Ok b
  | (col, piece) :: rest =>
      match play b col piece with
      | Ok b' => play_all b' rest
      | Raise e => Raise e
      end
  end.

Definition newline : string := String (Ascii.ascii_of_nat 10) EmptyString.

(** [sep.join(l)] *)
Definition join (sep : string) (l : list string) : string :=
  match l with
  | [] => ""
  | x :: l' => foldl (λ acc y, acc +:+ sep +:+ y) x l'
  end.

Definition print_board (b : Board) : string :=
  let rows := (λ row, "|" +:+ join "|" row +:+ "|") <$> board b in
  let board_str := join newline rows in
  let col_str := " " +:+ join " " (pretty <$> seq 0 COLS) in
  board_str +:+ newline +:+ col_str.

(** The text of a cell that [print_board] shows as it is: without the
    bar and the line feed that separate the cells and the rows. *)
Definition plain (x : string) : bool :=
  without_char "|"%char x && without_char (Ascii.ascii_of_nat 10) x.

(** Reading a printed row and a printed board back. *)
Definition parse_row (s : string) : list string :=
  match split "|"%char s with
  | _ :: cells => removelast cells
  | [] => []
  end.

Definition parse_board (s : string) : list (list string) :=
  parse_row <$> removelast (split (Ascii.ascii_of_nat 10) s).

(** ** Invariants *)

(** The grid has [ROWS] rows of [COLS] cells. *)
Definition shape (b : Board) : Prop := grid_shape ROWS COLS (board b).

(** An empty cell has only empty cells above it. *)
Definition gravity (b : Board) : Prop :=
  ∀ r c, S r < ROWS → c < COLS → cell b (S r) c = " " → cell b r c = " ".

(** The boards a game can reach. *)
Inductive reachable : Board → Prop :=
  | reachable_init : reachable init
  | reachable_play b col piece b' :
      reachable b → play b col piece = Ok b' → reachable b'.

(** Boards with the same grid: they may differ in [history],
    [last_move] and [valid_locations], which no method reads. *)
Record same_grid (b1 b2 : Board) : Prop := SameGrid {
  same_grid_board : board b1 = board b2;
}.

(** The number of empty cells. *)
Definition count_empty (b : Board) : nat :=
  sum_list ((λ row, length (filter (λ x, x = " ") row)) <$> board b).

(** The moves a history records, in the form [play_all] takes them. *)
Definition moves_of (h : list (pyval * Z)) : list (Z * pyval) :=
  (λ pc, (pc.2, pc.1)) <$> h.

(** What [history] and [last_move] say of the grid: replaying the history
    from the empty board gives the board; [last_move] is [None] before
    the first move and afterwards the cell that holds the piece of the
    last entry; and each entry accounts for one cell, unless a piece that
    prints as a space was played. *)
Record recorded (b : Board) : Prop := Recorded {
  recorded_replay : play_all init (moves_of (history b)) = Ok b;
  recorded_last :
    match last_move b with
    | None => history b = []
    | Some (row, col) =>
        ∃ piece, last (history b) = Some (piece, col)
                 ∧ cell b row (Z.to_nat col) = py_str piece
    end;
  recorded_count :
    Forall (λ pc, py_str pc.1 ≠ " ") (history b) →
    length (history b) + count_empty b = ROWS * COLS;
}.

(** * Lemmas *)

Section reads.
Implicit Types (b : Board) (r c : nat).

(** An empty cell is a cell of the grid: the default of an out-of-range
    read is not [' ']. *)
Lemma cell_space_inv b r c :
  cell b r c = " " → ∃ row, board b !! r = Some row ∧ c < length row.
Proof.
  unfold cell, grid_get. destruct (board b !! r) as [row|]; [simpl|done].
  destruct (row !! c) eqn:Hc; [simpl|done].
  intros _. exists row. split; [done|]. by eapply lookup_lt_Some.
Qed.

Lemma can_play_spec b col :
  can_play b col = true ↔
  (0 ≤ col < Z.of_nat COLS)%Z ∧ cell b 0 (Z.to_nat col) = " ".
Proof.
  unfold can_play. rewrite !andb_true_iff, bool_decide_eq_true.
  rewrite Z.leb_le, Z.ltb_lt. tauto.
Qed.

Lemma can_play_out_of_range b col :
  (col < 0 ∨ Z.of_nat COLS ≤ col)%Z → can_play b col = false.
Proof.
  intros Hcol. apply not_true_iff_false. rewrite can_play_spec. lia.
Qed.
End reads.

Section next_open.
Implicit Types (b : Board) (col r n : nat).

Lemma next_open_from_Some b col n r :
  next_open_from b col n = Some r ↔
  r < n ∧ cell b r col = " " ∧ ∀ r', r < r' < n → cell b r' col ≠ " ".
Proof.
  induction n as [|n IH]; simpl.
  - split; [done | lia].
  - case_bool.
    + split.
      * intros [= <-]. split_and!; [lia | done | lia].
      * intros (Hr & He & Hlow). f_equal.
        destruct (decide (r = n)) as [|Hne]; [done|].
        exfalso. apply (Hlow n); [lia | done].
    + rewrite IH. split; intros (Hr & He & Hlow).
      * split_and!; [lia | done |]. intros r' Hr'.
        destruct (decide (r' = n)) as [->|]; [done | apply Hlow; lia].
      * assert (r ≠ n) by congruence.
        split_and!; [lia | done |]. intros r' Hr'. apply Hlow. lia.
Qed.

Lemma next_open_from_None b col n :
  next_open_from b col n = None ↔ ∀ r, r < n → cell b r col ≠ " ".
Proof.
  induction n as [|n IH]; simpl.
  - split; [lia | done].
  - case_bool.
    + split; [done|]. intros Hn. by destruct (Hn n); [lia|].
    + rewrite IH. split; intros Hn r Hr.
      * destruct (decide (r = n)) as [->|]; [done | apply Hn; lia].
      * apply Hn. lia.
Qed.

Lemma get_next_open_row_Some b col r :
  get_next_open_row b col = Some r ↔
  r < ROWS ∧ cell b r col = " " ∧ ∀ r', r < r' < ROWS → cell b r' col ≠ " ".
Proof. apply next_open_from_Some. Qed.

Lemma get_next_open_row_None b col :
  get_next_open_row b col = None ↔ ∀ r, r < ROWS → cell b r col ≠ " ".
Proof. apply next_open_from_None. Qed.

(** When the top cell is empty the loop finds a row. *)
Lemma get_next_open_row_top b col :
  cell b 0 col = " " → is_Some (get_next_open_row b col).
Proof.
  intros Htop. destruct (get_next_open_row b col) eqn:Hn; [done|].
  rewrite get_next_open_row_None in Hn.
  destruct (Hn 0); [unfold ROWS; lia | done].
Qed.
End next_open.


Section play.
Implicit Types (b : Board) (col : Z) (piece : pyval) (row r c : nat).

Lemma play_illegal b col piece :
  can_play b col = false →
  play b col piece = Raise (ValueError "Column is full or out of bounds").
Proof. intros Hc. unfold play. by rewrite Hc. Qed.

Lemma play_legal b col piece :
  can_play b col = true →
  ∃ row, get_next_open_row b (Z.to_nat col) = Some row
         ∧ play b col piece = Ok (place b row col piece).
Proof.
  intros Hc. unfold play. rewrite Hc. simpl.
  apply can_play_spec in Hc as [_ Htop].
  destruct (get_next_open_row_top _ _ Htop) as [row Hrow].
  exists row. by rewrite Hrow.
Qed.

Lemma play_Ok_inv b col piece b' :
  play b col piece = Ok b' →
  can_play b col = true
  ∧ ∃ row, get_next_open_row b (Z.to_nat col) = Some row
           ∧ b' = place b row col piece.
Proof.
  unfold play. destruct (can_play b col); [simpl|done].
  destruct (get_next_open_row _ _) as [row|]; [|done].
  intros [= <-]. eauto.
Qed.

Lemma play_ok_iff b col piece :
  is_ok (play b col piece) = true ↔ can_play b col = true.
Proof.
  split.
  - intros [b' Hp]%is_ok_true. by apply play_Ok_inv in Hp as [? _].
  - intros Hc. by destruct (play_legal b col piece Hc) as (row & _ & ->).
Qed.

(** The cell written is the one [last_move] names, and it holds
    [str(piece)]. *)
Lemma place_cell_eq b row col piece :
  cell b row (Z.to_nat col) = " " →
  cell (place b row col piece) row (Z.to_nat col) = py_str piece.
Proof.
  intros He. destruct (cell_space_inv _ _ _ He) as (rw & Hrw & Hlt).
  unfold cell, place. simpl. by eapply grid_get_set_eq.
Qed.

Lemma place_cell_ne b row col piece r c :
  (row, Z.to_nat col) ≠ (r, c) →
  cell (place b row col piece) r c = cell b r c.
Proof. intros Hne. unfold cell, place. simpl. by apply grid_get_set_ne. Qed.

Lemma place_shape b row col piece :
  shape b → shape (place b row col piece).
Proof. unfold shape, place. simpl. auto with c4. Qed.

Lemma place_gravity b row col piece :
  get_next_open_row b (Z.to_nat col) = Some row →
  gravity b → gravity (place b row col piece).
Proof.
  intros (Hrow & He & Hlow)%get_next_open_row_Some Hg r c Hr Hc Hbelow.
  destruct (decide ((row, Z.to_nat col) = (r, c))) as [[= <- <-]|Hne1].
  - exfalso. rewrite place_cell_ne in Hbelow by (intros [=]; lia).
    by apply (Hlow (S row)); [lia|].
  - rewrite place_cell_ne by done.
    destruct (decide ((row, Z.to_nat col) = (S r, c))) as [[= -> <-]|Hne2].
    + by apply Hg.
    + rewrite place_cell_ne in Hbelow by done. by apply Hg.
Qed.
End play.

#[export] Hint Resolve place_shape place_gravity : c4.

Section invariants.
Implicit Types (b : Board) (col : Z) (piece : pyval).

Lemma init_shape : shape init.
Proof.
  split; [done|]. apply Forall_replicate, length_replicate.
Qed.

Lemma init_cell r c : r < ROWS → c < COLS → cell init r c = " ".
Proof.
  intros Hr Hc. unfold cell, grid_get.
  change (board init) with (replicate ROWS (replicate COLS " ")).
  rewrite lookup_replicate_2 by done. cbn [mbind option_bind].
  by rewrite lookup_replicate_2 by done.
Qed.

Lemma init_gravity : gravity init.
Proof. intros r c Hr Hc _. apply init_cell; [lia | done]. Qed.

Lemma play_shape b col piece b' :
  shape b → play b col piece = Ok b' → shape b'.
Proof. intros Hs (_ & row & _ & ->)%play_Ok_inv. auto with c4. Qed.

Lemma play_gravity b col piece b' :
  gravity b → play b col piece = Ok b' → gravity b'.
Proof. intros Hg (_ & row & Hrow & ->)%play_Ok_inv. auto with c4. Qed.


(** A move fills an empty cell, unless the piece prints as a space. *)
Lemma play_count_empty b col piece b' :
  py_str piece ≠ " " → play b col piece = Ok b' →
  S (count_empty b') = count_empty b.
Proof.
  intros Hp (_ & row & Hrow & ->)%play_Ok_inv.
  apply get_next_open_row_Some in Hrow as (_ & Hcell & _).
  destruct (cell_space_inv _ _ _ Hcell) as (l & Hl & Hc).
  unfold count_empty, place, grid_set. cbn [board].
  apply sum_list_alter_S with l; [done|].
  apply length_filter_insert with " "; [|done..].
  unfold cell, grid_get in Hcell. rewrite Hl in Hcell. simpl in Hcell.
  destruct (l !! Z.to_nat col) as [x|]; by simplify_eq/=.
Qed.

(** An empty cell is counted. *)
Lemma cell_space_count b r c : cell b r c = " " → 0 < count_empty b.
Proof.
  unfold cell, grid_get, count_empty.
  destruct (board b !! r) as [row|] eqn:Hr; [simpl|done].
  destruct (row !! c) as [x|] eqn:Hc; [simpl|done]. intros ->.
  pose proof (sum_list_fmap_lookup (λ row, length (filter (λ x, x = " ") row))
                _ _ _ Hr) as Hle.
  pose proof (length_filter_elem (λ x, x = " ") row " "
                (list_elem_of_lookup_2 _ _ _ Hc) eq_refl).
  cbv beta in Hle. lia.
Qed.

Lemma count_empty_le b : shape b → count_empty b ≤ ROWS * COLS.
Proof.
  intros [<- Hrows]. apply sum_list_fmap_le.
  eapply Forall_impl; [done|]. intros row <-. apply length_filter.
Qed.

Lemma opponent_not_space piece : py_str (opponent piece) ≠ " ".
Proof. unfold opponent. by case_bool. Qed.

Lemma play_all_app b moves1 moves2 :
  play_all b (moves1 ++ moves2)
  = b' ← play_all b moves1; play_all b' moves2.
Proof.
  revert b. induction moves1 as [|[col piece] rest IH]; intros b; [done|].
  simpl. destruct (play b col piece); [apply IH | done].
Qed.

Lemma init_recorded : recorded init.
Proof. by split. Qed.

Lemma play_recorded b col piece b' :
  recorded b → play b col piece = Ok b' → recorded b'.
Proof.
  intros [Hreplay _ Hcount] Hplay.
  pose proof Hplay as (_ & row & Hrow & ->)%play_Ok_inv.
  apply get_next_open_row_Some in Hrow as (_ & Hcell & _).
  split; cbn [history last_move place].
  - unfold moves_of. rewrite fmap_app, play_all_app.
    fold (moves_of (history b)). rewrite Hreplay. cbn -[play].
    by rewrite Hplay.
  - exists piece. by rewrite last_snoc, place_cell_eq.
  - intros [Hh [Hp _]%Forall_cons]%Forall_app. specialize (Hcount Hh).
    simpl in Hp. apply play_count_empty in Hplay; [|done].
    rewrite length_app. cbn [length]. lia.
Qed.

Lemma reachable_recorded b : reachable b → recorded b.
Proof. induction 1; eauto using init_recorded, play_recorded. Qed.

(** The cells of a board: spaces and the strs of the pieces played. *)
Lemma play_cells b col piece b' r c :
  play b col piece = Ok b' →
  cell b' r c = cell b r c ∨ cell b' r c = py_str piece.
Proof.
  intros (_ & row & Hrow & ->)%play_Ok_inv.
  apply get_next_open_row_Some in Hrow as (_ & Hcell & _).
  destruct (decide ((row, Z.to_nat col) = (r, c))) as [[= <- <-]|Hne].
  - right. by apply place_cell_eq.
  - left. by apply place_cell_ne.
Qed.

Lemma reachable_shape b : reachable b → shape b.
Proof. induction 1; [apply init_shape | by eapply play_shape]. Qed.

Lemma reachable_cells b r c :
  reachable b → r < ROWS → c < COLS →
  cell b r c = " " ∨ ∃ pc, pc ∈ history b ∧ cell b r c = py_str pc.1.
Proof.
  intros Hb Hr Hc. induction Hb as [|b col piece b' _ IH Hplay].
  { left. by apply init_cell. }
  pose proof Hplay as (_ & row & _ & Heq)%play_Ok_inv.
  assert (history b' = history b ++ [(piece, col)]) as -> by by subst b'.
  setoid_rewrite elem_of_app. setoid_rewrite list_elem_of_singleton.
  destruct (play_cells _ _ _ _ r c Hplay) as [-> | ->].
  - destruct IH as [?|(pc & ? & ?)]; eauto.
  - right. exists (piece, col). eauto.
Qed.

Lemma play_all_reachable b moves b' :
  reachable b → play_all b moves = Ok b' → reachable b'.
Proof.
  revert b. induction moves as [|[col piece] rest IH]; intros b Hb; simpl.
  - by intros [= <-].
  - destruct (play b col piece) as [b1|] eqn:Hp; [|done].
    apply IH. by eapply reachable_play.
Qed.
End invariants.

Section valid_locations.
Implicit Types (b : Board) (col : Z).

(** The loop of [get_valid_locations] computes a filter of the columns. *)
Lemma get_valid_locations_filter b :
  get_valid_locations b
  = filter (λ col, can_play b col = true) (seqZ 0 (Z.of_nat COLS)).
Proof. unfold get_valid_locations. by rewrite foldl_append_if. Qed.

Lemma elem_of_get_valid_locations b col :
  col ∈ get_valid_locations b ↔ can_play b col = true.
Proof.
  rewrite get_valid_locations_filter, list_elem_of_filter, elem_of_seqZ.
  split; [tauto|]. intros Hc. split; [done|].
  apply can_play_spec in Hc. lia.
Qed.

Lemma get_valid_locations_sorted b :
  StronglySorted Z.lt (get_valid_locations b).
Proof.
  rewrite get_valid_locations_filter. apply StronglySorted_filter.
  by apply (bool_decide_unpack _).
Qed.

Lemma get_valid_locations_NoDup b : NoDup (get_valid_locations b).
Proof.
  rewrite get_valid_locations_filter. apply NoDup_filter, NoDup_seqZ.
Qed.

Lemma get_valid_locations_nil b :
  get_valid_locations b = [] ↔ ∀ col, can_play b col = false.
Proof.
  split.
  - intros Hnil col. apply not_true_iff_false.
    rewrite <-elem_of_get_valid_locations, Hnil. apply not_elem_of_nil.
  - intros Hfull. apply elem_of_nil_inv. intros col.
    rewrite elem_of_get_valid_locations, Hfull. done.
Qed.
End valid_locations.

(** ** Printing and reading back *)

Section printing.
Implicit Types (sep x : string) (l row : list string) (c : ascii).

Lemma join_foldl sep x y l :
  foldl (λ acc z, acc +:+ sep +:+ z) (x +:+ y) l
  = x +:+ foldl (λ acc z, acc +:+ sep +:+ z) y l.
Proof.
  revert y. induction l as [|z l IH]; intros y; [done|]. cbn [foldl].
  by rewrite <-IH, string_app_assoc.
Qed.

Lemma join_cons sep x y l :
  join sep (x :: y :: l) = x +:+ sep +:+ join sep (y :: l).
Proof. unfold join. cbn [foldl]. by rewrite !join_foldl. Qed.

Lemma join_snoc sep l x :
  l ≠ [] → join sep (l ++ [x]) = join sep l +:+ sep +:+ x.
Proof.
  destruct l as [|y l]; [done|]. intros _. unfold join. cbn [app].
  by rewrite foldl_snoc.
Qed.

Lemma without_char_join c sep l :
  without_char c sep = true → Forall (λ x, without_char c x = true) l →
  without_char c (join sep l) = true.
Proof.
  intros Hsep Hl. destruct Hl as [|x l Hx Hl]; [done|].
  unfold join. revert x Hx. induction Hl as [|y l Hy _ IH]; intros x Hx; [done|].
  cbn [foldl]. apply IH. by rewrite !without_char_app, Hx, Hsep, Hy.
Qed.

(** [sep.join(l).split(sep)] is [l], when no text of [l] has the
    separator in it and [l] is not empty. *)
Lemma split_join c l :
  l ≠ [] → Forall (λ y, without_char c y = true) l →
  split c (join (String c "") l) = l.
Proof.
  destruct l as [|x l]; [done|]. intros _. revert x.
  induction l as [|y l IH]; intros x [Hx Hl]%Forall_cons.
  { by apply split_without. }
  rewrite join_cons.
  change (String c "" +:+ ?t) with (String c t).
  by rewrite split_app, IH.
Qed.

Lemma parse_row_join row :
  row ≠ [] → Forall (λ x, plain x = true) row →
  parse_row ("|" +:+ join "|" row +:+ "|") = row.
Proof.
  intros Hne Hrow. unfold parse_row.
  change ("|" +:+ ?t) with (String "|" t). cbn [split].
  rewrite Ascii.eqb_refl.
  replace (join "|" row +:+ "|") with (join "|" (row ++ [""]))
    by by rewrite join_snoc.
  rewrite split_join; [apply removelast_last | by destruct row |].
  apply Forall_app. split; [|by repeat constructor].
  eapply Forall_impl; [done|]. by intros ? [? _]%andb_true_iff.
Qed.

Lemma row_text_line row :
  Forall (λ x, plain x = true) row →
  without_char (ascii_of_nat 10) ("|" +:+ join "|" row +:+ "|") = true.
Proof.
  intros Hrow. rewrite !without_char_app, without_char_join; [done..|].
  eapply Forall_impl; [done|]. by intros ? [_ ?]%andb_true_iff.
Qed.

(** The printed board read back, for rows that are not empty. *)
Lemma parse_board_print b :
  board b ≠ [] → Forall (λ row, row ≠ []) (board b) →
  Forall (Forall (λ x, plain x = true)) (board b) →
  parse_board (print_board b) = board b.
Proof.
  intros Hne Hrows Hplain. unfold parse_board, print_board. cbv zeta.
  rewrite <-join_snoc by by destruct (board b).
  unfold newline. rewrite split_join, removelast_last.
  - rewrite <-list_fmap_compose. etrans; [|apply list_fmap_id].
    apply Forall_fmap_ext, Forall_forall. intros row Hrow.
    change (parse_row ("|" +:+ join "|" row +:+ "|") = row).
    apply parse_row_join;
      [exact (proj1 (Forall_forall _ _) Hrows row Hrow)
      |exact (proj1 (Forall_forall _ _) Hplain row Hrow)].
  - by destruct (board b).
  - apply Forall_app. split; [|by repeat constructor].
    apply Forall_fmap. eapply Forall_impl; [done|]. apply row_text_line.
Qed.

(** The cells of a board reached with pieces that print plainly. *)
Lemma reachable_plain b :
  reachable b → Forall (λ pc, plain (py_str pc.1) = true) (history b) →
  Forall (Forall (λ x, plain x = true)) (board b).
Proof.
  intros Hb Hh. pose proof (reachable_shape b Hb) as [Hlen Hcols].
  apply Forall_lookup. intros r row Hr. apply Forall_lookup. intros c x Hc.
  assert (cell b r c = x) as <-.
  { unfold cell, grid_get. by rewrite Hr; simpl; rewrite Hc. }
  pose proof (lookup_lt_Some _ _ _ Hr). pose proof (lookup_lt_Some _ _ _ Hc).
  rewrite (Forall_lookup_1 _ _ _ _ Hcols Hr) in *.
  destruct (reachable_cells b r c Hb) as [->|(pc & Hpc & ->)]; [lia..|done|].
  by apply (proj1 (Forall_forall _ _) Hh).
Qed.
End printing.

(** * Properties *)

Section properties.
Implicit Types (b : Board) (col : Z) (piece : pyval).

(** C10 (functional). Legality: [can_play(col)] holds exactly when
    [0 <= col < 7] and the top cell of the column is empty; the columns
    [get_valid_locations] returns are exactly those; and [play] succeeds
    exactly on those. *)
Theorem legality b col piece :
  ((0 ≤ col < Z.of_nat COLS)%Z ∧ cell b 0 (Z.to_nat col) = " "
     ↔ can_play b col = true)
  ∧ (col ∈ get_valid_locations b ↔ can_play b col = true)
  ∧ (is_ok (play b col piece) = true ↔ can_play b col = true).
Proof.
  split_and!; [symmetry; apply can_play_spec
              | apply elem_of_get_valid_locations | apply play_ok_iff].
Qed.

(** C11 (functional). A successful [play] drops the piece in the lowest
    empty cell of the column: that cell was empty, every cell below it
    in the column is occupied, it now holds [str(piece)], no other cell
    changed, [last_move] names it and the move is appended to
    [history]. *)
Theorem play_spec b col piece b' :
  play b col piece = Ok b' →
  ∃ row, row < ROWS
    ∧ cell b row (Z.to_nat col) = " "
    ∧ (∀ r, row < r < ROWS → cell b r (Z.to_nat col) ≠ " ")
    ∧ cell b' row (Z.to_nat col) = py_str piece
    ∧ (∀ r c, (row, Z.to_nat col) ≠ (r, c) → cell b' r c = cell b r c)
    ∧ last_move b' = Some (row, col)
    ∧ history b' = history b ++ [(piece, col)]
    ∧ valid_locations b' = valid_locations b.
Proof.
  intros (_ & row & Hrow & ->)%play_Ok_inv. exists row.
  apply get_next_open_row_Some in Hrow as (? & ? & ?).
  split_and!; try done; [by apply place_cell_eq|].
  intros r c. apply place_cell_ne.
Qed.

(** C36 (error). [play] on an illegal column (out of the range [0, 7) or
    full) raises [ValueError] with the program's message; the caller's
    board is not changed, as no new state is produced. *)
Theorem play_rejects b col piece :
  (col < 0 ∨ Z.of_nat COLS ≤ col)%Z ∨ cell b 0 (Z.to_nat col) ≠ " " →
  play b col piece = Raise (ValueError "Column is full or out of bounds").
Proof.
  intros Hbad. apply play_illegal, not_true_iff_false.
  rewrite can_play_spec. intros [? ?]. destruct Hbad; [lia | done].
Qed.

(** C9 (invariant). Every board reached from the empty board by
    successful [play] calls has 6 rows of 7 cells and satisfies gravity:
    an empty cell has only empty cells above it, so the pieces of a
    column form a contiguous run from the bottom row. *)
Theorem reachable_invariant b : reachable b → shape b ∧ gravity b.
Proof.
  induction 1 as [|b col piece b' _ [IHs IHg] Hplay].
  - split; [apply init_shape | apply init_gravity].
  - split; [by eapply play_shape | by eapply play_gravity].
Qed.

(** C29 (invariant). What a game records: on every board reached from
    the empty board, replaying [history] from the empty board gives the
    board itself; [last_move] is [None] before the first move and
    afterwards names the column of the last entry of [history] and a cell
    that holds its piece; and, when no piece prints as a space, the
    entries of [history] and the empty cells together are the 42 cells. *)
Theorem history_invariant b :
  reachable b →
  play_all init (moves_of (history b)) = Ok b
  ∧ match last_move b with
    | None => history b = []
    | Some (row, col) =>
        ∃ piece, last (history b) = Some (piece, col)
                 ∧ cell b row (Z.to_nat col) = py_str piece
    end
  ∧ (Forall (λ pc, py_str pc.1 ≠ " ") (history b) →
     length (history b) + count_empty b = ROWS * COLS).
Proof. by intros [? ? ?]%reachable_recorded. Qed.

(** C32 (roundtrip). The text of [print_board] shows the grid: on every
    board reached from the empty board with pieces whose [str] has no
    bar and no line feed in it, splitting the text at the line feeds,
    dropping the line of column numbers and splitting each line at the
    bars gives back the grid, cell by cell. *)
Theorem print_board_roundtrip b :
  reachable b → Forall (λ pc, plain (py_str pc.1) = true) (history b) →
  parse_board (print_board b) = board b.
Proof.
  intros Hb Hh. destruct (reachable_shape b Hb) as [Hlen Hcols].
  apply parse_board_print; [| |by apply reachable_plain].
  - intros Hnil. by rewrite Hnil in Hlen.
  - eapply Forall_impl; [done|]. by intros row Hrow ->.
Qed.

(** Two boards of a game that print alike have the same grid; the
    pieces of [main], the ints 0 and 1, print plainly. *)
Corollary print_board_inj b1 b2 :
  reachable b1 → reachable b2 →
  Forall (λ pc, plain (py_str pc.1) = true) (history b1) →
  Forall (λ pc, plain (py_str pc.1) = true) (history b2) →
  print_board b1 = print_board b2 → same_grid b1 b2.
Proof.
  intros Hb1 Hb2 Hh1 Hh2 Heq. split.
  rewrite <-(parse_board_print b1), <-(parse_board_print b2), Heq; try done;
    try (by apply reachable_plain);
    destruct (reachable_shape _ Hb1) as [Hl1 Hc1],
             (reachable_shape _ Hb2) as [Hl2 Hc2];
    try (by intros Hnil; rewrite Hnil in *);
    (eapply Forall_impl; [done|]; by intros row Hrow ->).
Qed.

Lemma plain_int z : plain (py_str (PyInt z)) = true.
Proof. unfold plain. cbn [py_str]. by rewrite !pretty_Z_without. Qed.

(** C34 (type). The cells of a board are typed by its history: on
    every board reached from the empty board, each of the 42 cells holds
    a space or [str(piece)] for a piece that [history] records; no other
    text is ever written into the grid. *)
Theorem cells_typed b r c :
  reachable b → r < ROWS → c < COLS →
  cell b r c = " " ∨ ∃ pc, pc ∈ history b ∧ cell b r c = py_str pc.1.
Proof. apply reachable_cells. Qed.

(** [get_valid_locations] lists the playable columns
    in strictly ascending order. *)
Theorem get_valid_locations_ascending b :
  StronglySorted Z.lt (get_valid_locations b)
  ∧ get_valid_locations b
    = filter (λ col, can_play b col = true) (seqZ 0 (Z.of_nat COLS)).
Proof.
  split; [apply get_valid_locations_sorted | apply get_valid_locations_filter].
Qed.

(** On a board of the right shape every read
    [self.board[r][c]] the program makes, with [r < 6] and [c < 7], is in
    range: the checked subscripts return the cell and never raise
    [IndexError]. *)
Theorem cell_checked b r c :
  shape b → r < ROWS → c < COLS →
  ∃ row, getitem (board b) (Z.of_nat r) = Ok row
         ∧ getitem row (Z.of_nat c) = Ok (cell b r c).
Proof.
  intros Hs Hr Hc. exists (default [] (board b !! r)).
  by apply (grid_get_checked "" ROWS COLS).
Qed.

(** [get_next_open_row] never returns [None] to [play]:
    [play] raises [ValueError] or succeeds, never [TypeError]. *)
Theorem play_no_type_error b col piece : play b col piece ≠ Raise TypeError.
Proof.
  destruct (can_play b col) eqn:Hc.
  - by destruct (play_legal b col piece Hc) as (row & _ & ->).
  - by rewrite play_illegal.
Qed.

(** The opponent [minimax] and [eval_board] compute
    for an int piece is always the str ['0']: for the int 0 that [main]
    passes for the first player, the opponent is the player's own
    mark. *)
Theorem opponent_of_int z : opponent (PyInt z) = PyStr "0".
Proof. done. Qed.
End properties.

(** ** Boards with the same grid *)

#[export] Instance same_grid_equiv : Equivalence same_grid.
Proof.
  split; [done | by intros b1 b2 [] |].
  intros b1 b2 b3 [H1] [H2]. split. congruence.
Qed.

#[export] Instance cell_proper : Proper (same_grid ==> eq ==> eq ==> eq) cell.
Proof. intros b1 b2 [Hb] ?? -> ?? ->. unfold cell. by rewrite Hb. Qed.

#[export] Instance can_play_proper : Proper (same_grid ==> eq ==> eq) can_play.
Proof. intros b1 b2 [Hb] ?? ->. unfold can_play, cell. by rewrite Hb. Qed.

#[export] Instance next_open_from_proper :
  Proper (same_grid ==> eq ==> eq ==> eq) next_open_from.
Proof.
  intros b1 b2 [Hb] ? col -> ? n ->. induction n as [|n IH]; [done|].
  simpl. unfold cell in *. by rewrite Hb, IH.
Qed.

#[export] Instance get_next_open_row_proper :
  Proper (same_grid ==> eq ==> eq) get_next_open_row.
Proof. intros b1 b2 Hb ?? ->. unfold get_next_open_row. by rewrite Hb. Qed.

#[export] Instance get_valid_locations_proper :
  Proper (same_grid ==> eq) get_valid_locations.
Proof.
  intros b1 b2 Hb. rewrite !get_valid_locations_filter.
  apply list_filter_iff. intros col. by rewrite Hb.
Qed.

#[export] Instance print_board_proper : Proper (same_grid ==> eq) print_board.
Proof. intros b1 b2 [Hb]. unfold print_board. by rewrite Hb. Qed.

(** [play] on boards with the same grid: the same exception, or boards
    with the same grid. *)
(** [play] writes [str(piece)]: pieces that print alike leave the same
    grid. *)
Lemma play_same_grid_str b1 b2 col piece1 piece2 :
  same_grid b1 b2 → py_str piece1 = py_str piece2 →
  res_rel same_grid (play b1 col piece1) (play b2 col piece2).
Proof.
  intros Hb Hp. unfold play, res_rel.
  rewrite (can_play_proper _ _ Hb col col eq_refl),
    (get_next_open_row_proper _ _ Hb _ _ eq_refl).
  destruct (can_play b2 col); [simpl|done].
  destruct (get_next_open_row b2 _); [|done].
  destruct Hb as [Hb]. split. simpl. by rewrite Hb, Hp.
Qed.

Lemma play_same_grid b1 b2 col piece :
  same_grid b1 b2 → res_rel same_grid (play b1 col piece) (play b2 col piece).
Proof. intros. by apply play_same_grid_str. Qed.

(** * Concrete games *)

Definition piece_A : pyval := PyInt 0.
Definition piece_B : pyval := PyInt 1.

(** Six pieces dropped in column 3. *)
Definition column3_moves : list (Z * pyval) :=
  [(3, piece_A); (3, piece_B); (3, piece_A);
   (3, piece_B); (3, piece_A); (3, piece_B)]%Z.

(** The six plays of the specification's scenario. *)
Definition scenario_moves : list (Z * pyval) :=
  [(3, piece_A); (3, piece_A); (3, piece_A);
   (2, piece_B); (2, piece_B); (3, piece_A)]%Z.

(** The board after a sequence of moves from the empty board (the empty
    board itself if a move is illegal). *)
Definition board_after (moves : list (Z * pyval)) : Board :=
  match play_all init moves with
  | Ok b => b
  | Raise _ => init
  end.

(** Six plays into column 3 fill it: the column is then not
    playable and a seventh [play(3, piece)] raises [ValueError], for any
    piece. *)
Example column3_full :
  ∃ b, play_all init column3_moves = Ok b
       ∧ can_play b 3 = false
       ∧ get_valid_locations b = [0; 1; 2; 4; 5; 6]%Z
       ∧ ∀ piece, play b 3 piece
                  = Raise (ValueError "Column is full or out of bounds").
Proof.
  eexists. split; [reflexivity|]. split_and!; [done..|].
  intros piece. by apply play_illegal.
Qed.

(** The scenario of the specification (piece A three
    times into column 3, B twice into column 2, A once more into column
    3) puts four pieces in column 3, which is not full: a further
    [play(3, piece)] succeeds. *)
Example scenario_column3_open :
  ∃ b, play_all init scenario_moves = Ok b
       ∧ can_play b 3 = true
       ∧ cell b 2 3 = "0" ∧ cell b 1 3 = " "
       ∧ ∀ piece, is_ok (play b 3 piece) = true.
Proof.
  eexists. split; [reflexivity|]. split_and!; [done..|].
  intros piece. by apply play_ok_iff.
Qed.

(** [test_play_middle] of the repository's tests:
    after [play(3, 0)] on a new board, [print_board] returns the grid
    with a ['0'] at the bottom of column 3 and the column numbers. *)
Example test_play_middle :
  ∃ b, play init 3 (PyInt 0) = Ok b
       ∧ print_board b
         = "| | | | | | | |" +:+ newline +:+ "| | | | | | | |" +:+ newline
           +:+ "| | | | | | | |" +:+ newline +:+ "| | | | | | | |" +:+ newline
           +:+ "| | | | | | | |" +:+ newline +:+ "| | | |0| | | |" +:+ newline
           +:+ " 0 1 2 3 4 5 6".
Proof. eexists. split; reflexivity. Qed.

(** Witnesses *)

Lemma play_spec_witness :
  ∃ row, row < ROWS
    ∧ cell init row (Z.to_nat 3) = " "
    ∧ (∀ r, row < r < ROWS → cell init r (Z.to_nat 3) ≠ " ")
    ∧ cell (place init 5 3 piece_A) row (Z.to_nat 3) = py_str piece_A
    ∧ (∀ r c, (row, Z.to_nat 3) ≠ (r, c) →
         cell (place init 5 3 piece_A) r c = cell init r c)
    ∧ last_move (place init 5 3 piece_A) = Some (row, 3%Z)
    ∧ history (place init 5 3 piece_A) = history init ++ [(piece_A, 3%Z)]
    ∧ valid_locations (place init 5 3 piece_A) = valid_locations init.
Proof. apply (play_spec init 3 piece_A). reflexivity. Defined.

Lemma play_rejects_witness :
  play init 7 piece_A = Raise (ValueError "Column is full or out of bounds").
Proof. apply play_rejects. left. right. unfold COLS. lia. Defined.

Lemma reachable_invariant_witness :
  shape (place init 5 3 piece_A) ∧ gravity (place init 5 3 piece_A).
Proof.
  apply reachable_invariant.
  apply (reachable_play init 3 piece_A); [constructor | reflexivity].
Defined.

Lemma history_invariant_witness :
  let b := place init 5 3 piece_A in
  play_all init (moves_of (history b)) = Ok b
  ∧ match last_move b with
    | None => history b = []
    | Some (row, col) =>
        ∃ piece, last (history b) = Some (piece, col)
                 ∧ cell b row (Z.to_nat col) = py_str piece
    end
  ∧ (Forall (λ pc, py_str pc.1 ≠ " ") (history b) →
     length (history b) + count_empty b = ROWS * COLS).
Proof.
  apply history_invariant.
  apply (reachable_play init 3 piece_A); [constructor | reflexivity].
Defined.

Lemma cells_typed_witness :
  let b := place init 5 3 piece_A in
  cell b 5 3 = " " ∨ ∃ pc, pc ∈ history b ∧ cell b 5 3 = py_str pc.1.
Proof.
  apply cells_typed; [|unfold ROWS; lia | unfold COLS; lia].
  apply (reachable_play init 3 piece_A); [constructor | reflexivity].
Defined.

Lemma cell_checked_witness :
  ∃ row, getitem (board init) (Z.of_nat 5) = Ok row
         ∧ getitem row (Z.of_nat 3) = Ok (cell init 5 3).
Proof.
  apply cell_checked; [apply init_shape | unfold ROWS; lia | unfold COLS; lia].
Defined.

Lemma print_board_roundtrip_witness :
  parse_board (print_board (board_after [(3%Z, PyInt 0)]))
  = board (board_after [(3%Z, PyInt 0)]).
Proof.
  apply print_board_roundtrip; [|by repeat constructor].
  by apply (reachable_play init 3 (PyInt 0)); [apply reachable_init|].
Defined.
