(* ===== verification/Win.v ===== *)
(** * Win: the four-in-a-row detector [Board.is_winning] of [src/main.py]

    The method is four loop nests, one per direction, each returning
    [True] at the first window of four cells that all compare equal to
    [piece].  The comparison is Python's [==] between the str in the cell
    and whatever [piece] is, so an int piece never wins.

    [has_four] is the specification: some window of four cells along one
    of the four directions lies in the grid and holds the piece. *)

From S2P Require Import Prelude Python Board.

(** ** The detector *)

(** [self.board[r][c] == piece] *)
Definition cell_is (b : Board) (piece : pyval) (r c : nat) : bool :=
  py_eq (PyStr (cell b r c)) piece.

(** [all(f(i) for i in range(4))] *)
Definition all4 (f : nat → bool) : bool := forallb f (seq 0 4).

(** Two nested [for] loops whose body returns [True] when [w] holds. *)
Definition any_start (outer inner : list nat) (w : nat → nat → bool) : bool :=
  existsb (λ x, existsb (w x) inner) outer.

Section scan.
Context (at_ : nat → nat → bool).

Definition horizontal : bool :=
  any_start (seq 0 ROWS) (seq 0 (COLS - 3))
    (λ r c, all4 (λ i, at_ r (c + i))).

Definition vertical : bool :=
  any_start (seq 0 COLS) (seq 0 (ROWS - 3))
    (λ c r, all4 (λ i, at_ (r + i) c)).

Definition diagonal_down : bool :=
  any_start (seq 0 (ROWS - 3)) (seq 0 (COLS - 3))
    (λ r c, all4 (λ i, at_ (r + i) (c + i))).

Definition diagonal_up : bool :=
  any_start (seq 3 (ROWS - 3)) (seq 0 (COLS - 3))
    (λ r c, all4 (λ i, at_ (r - i) (c + i))).
End scan.

Definition is_winning (b : Board) (piece : pyval) : bool :=
  let at_ := cell_is b piece in
  horizontal at_ || vertical at_ || diagonal_down at_ || diagonal_up at_.

(** ** Specification *)

Inductive direction : Type := East | South | SouthEast | NorthEast.

(** Row and column increments, rows growing downwards. *)
Definition delta (d : direction) : Z * Z :=
  match d with
  | East => (0, 1)
  | South => (1, 0)
  | SouthEast => (1, 1)
  | NorthEast => (-1, 1)
  end%Z.

(** The [i]-th cell of the line from ([r], [c]) in direction [d] is in
    the grid and holds [piece]. *)
Definition holds_at (b : Board) (piece : pyval) (d : direction) (r c i : Z)
    : Prop :=
  let r' := (r + i * (delta d).1)%Z in
  let c' := (c + i * (delta d).2)%Z in
  (0 ≤ r' < Z.of_nat ROWS)%Z ∧ (0 ≤ c' < Z.of_nat COLS)%Z
  ∧ PyStr (cell b (Z.to_nat r') (Z.to_nat c')) = piece.

Definition has_four (b : Board) (piece : pyval) : Prop :=
  ∃ d r c, ∀ i, (0 ≤ i < 4)%Z → holds_at b piece d r c i.

(** * Lemmas *)

Section loops.
Implicit Types (f : nat → bool) (w : nat → nat → bool).

Lemma all4_spec f : all4 f = true ↔ ∀ i, i < 4 → f i = true.
Proof.
  unfold all4. rewrite forallb_forall. setoid_rewrite in_seq.
  split; intros Hf i Hi; apply Hf; lia.
Qed.

Lemma any_start_spec outer inner w :
  any_start outer inner w = true ↔
  ∃ x y, x ∈ outer ∧ y ∈ inner ∧ w x y = true.
Proof.
  unfold any_start. rewrite existsb_exists.
  setoid_rewrite existsb_exists. setoid_rewrite <-list_elem_of_In.
  split; [intros (x & ? & y & ? & ?) | intros (x & y & ? & ? & ?)]; eauto 6.
Qed.

Lemma cell_is_spec b piece r c :
  cell_is b piece r c = true ↔ PyStr (cell b r c) = piece.
Proof. apply py_eq_spec. Qed.
End loops.

(** Each loop nest finds exactly the windows of its direction. *)
Section directions.
Context (at_ : nat → nat → bool).

Lemma horizontal_spec :
  horizontal at_ = true ↔
  ∃ r c, r < ROWS ∧ c + 3 < COLS ∧ ∀ i, i < 4 → at_ r (c + i) = true.
Proof.
  unfold horizontal. rewrite any_start_spec.
  setoid_rewrite all4_spec. setoid_rewrite elem_of_seq.
  unfold ROWS, COLS. split; intros (r & c & ? & ? & ?); exists r, c;
    split_and!; (done || lia).
Qed.

Lemma vertical_spec :
  vertical at_ = true ↔
  ∃ r c, r + 3 < ROWS ∧ c < COLS ∧ ∀ i, i < 4 → at_ (r + i) c = true.
Proof.
  unfold vertical. rewrite any_start_spec.
  setoid_rewrite all4_spec. setoid_rewrite elem_of_seq.
  unfold ROWS, COLS. split.
  - intros (c & r & ? & ? & ?). exists r, c. split_and!; (done || lia).
  - intros (r & c & ? & ? & ?). exists c, r. split_and!; (done || lia).
Qed.

Lemma diagonal_down_spec :
  diagonal_down at_ = true ↔
  ∃ r c, r + 3 < ROWS ∧ c + 3 < COLS
         ∧ ∀ i, i < 4 → at_ (r + i) (c + i) = true.
Proof.
  unfold diagonal_down. rewrite any_start_spec.
  setoid_rewrite all4_spec. setoid_rewrite elem_of_seq.
  unfold ROWS, COLS. split; intros (r & c & ? & ? & ?); exists r, c;
    split_and!; (done || lia).
Qed.

Lemma diagonal_up_spec :
  diagonal_up at_ = true ↔
  ∃ r c, 3 ≤ r < ROWS ∧ c + 3 < COLS
         ∧ ∀ i, i < 4 → at_ (r - i) (c + i) = true.
Proof.
  unfold diagonal_up. rewrite any_start_spec.
  setoid_rewrite all4_spec. setoid_rewrite elem_of_seq.
  unfold ROWS, COLS. split; intros (r & c & ? & ? & ?); exists r, c;
    split_and!; (done || lia).
Qed.
End directions.

Section spec.
Implicit Types (b : Board) (piece : pyval).

(** A window in nat coordinates, as the loops index it, is a window of
    the specification. *)
Lemma has_four_window b piece d (r c : Z) (rr cc : nat → nat) :
  (∀ i, i < 4 →
     Z.of_nat (rr i) = (r + Z.of_nat i * (delta d).1)%Z
     ∧ Z.of_nat (cc i) = (c + Z.of_nat i * (delta d).2)%Z
     ∧ rr i < ROWS ∧ cc i < COLS
     ∧ cell_is b piece (rr i) (cc i) = true) →
  has_four b piece.
Proof.
  intros Hw. exists d, r, c. intros i Hi.
  destruct (Hw (Z.to_nat i)) as (Hr & Hc & ? & ? & Hcell); [lia|].
  rewrite Z2Nat.id in Hr, Hc by lia. unfold holds_at. simpl.
  rewrite <-Hr, <-Hc, !Nat2Z.id. apply cell_is_spec in Hcell.
  split_and!; (done || lia).
Qed.

Lemma is_winning_has_four b piece :
  is_winning b piece = true → has_four b piece.
Proof.
  unfold is_winning. cbv zeta. rewrite !orb_true_iff.
  rewrite horizontal_spec, vertical_spec, diagonal_down_spec, diagonal_up_spec.
  unfold ROWS, COLS.
  intros [[[(r & c & ? & ? & Hw)|(r & c & ? & ? & Hw)]
          |(r & c & ? & ? & Hw)]|(r & c & ? & ? & Hw)].
  - apply (has_four_window b piece East (Z.of_nat r) (Z.of_nat c)
             (λ _, r) (λ i, c + i)).
    intros i Hi. simpl. unfold ROWS, COLS. split_and!; auto; lia.
  - apply (has_four_window b piece South (Z.of_nat r) (Z.of_nat c)
             (λ i, r + i) (λ _, c)).
    intros i Hi. simpl. unfold ROWS, COLS. split_and!; auto; lia.
  - apply (has_four_window b piece SouthEast (Z.of_nat r) (Z.of_nat c)
             (λ i, r + i) (λ i, c + i)).
    intros i Hi. simpl. unfold ROWS, COLS. split_and!; auto; lia.
  - apply (has_four_window b piece NorthEast (Z.of_nat r) (Z.of_nat c)
             (λ i, r - i) (λ i, c + i)).
    intros i Hi. simpl. unfold ROWS, COLS. split_and!; auto; lia.
Qed.

(** Conversely, the cells of a window of the specification, read in nat
    coordinates. *)
Lemma has_four_cell b piece d (r c : Z) (i rr cc : nat) :
  (∀ i, (0 ≤ i < 4)%Z → holds_at b piece d r c i) → i < 4 →
  Z.of_nat rr = (r + Z.of_nat i * (delta d).1)%Z →
  Z.of_nat cc = (c + Z.of_nat i * (delta d).2)%Z →
  cell_is b piece rr cc = true.
Proof.
  intros Hw Hi Hr Hc. destruct (Hw (Z.of_nat i)) as (_ & _ & Hcell); [lia|].
  rewrite <-Hr, <-Hc, !Nat2Z.id in Hcell. by apply cell_is_spec.
Qed.

Lemma has_four_is_winning b piece :
  has_four b piece → is_winning b piece = true.
Proof.
  intros (d & r & c & Hw). unfold is_winning. cbv zeta.
  rewrite !orb_true_iff.
  rewrite horizontal_spec, vertical_spec, diagonal_down_spec, diagonal_up_spec.
  pose proof (Hw 0%Z) as (Hr0 & Hc0 & _); [lia|].
  pose proof (Hw 3%Z) as (Hr3 & Hc3 & _); [lia|].
  unfold ROWS, COLS in *.
  destruct d; simpl in *; [left; left; left|left; left; right|left; right|right];
    exists (Z.to_nat r), (Z.to_nat c);
    (split_and!; try lia);
    intros i Hi; eapply has_four_cell; eauto; simpl; lia.
Qed.

End spec.

Section frame.
Implicit Types (b : Board) (piece q : pyval) (row : nat) (col : Z).

(** The answer only depends on which cells hold the piece. *)
Lemma has_four_mono b b' q q' :
  (∀ r c, PyStr (cell b r c) = q → PyStr (cell b' r c) = q') →
  has_four b q → has_four b' q'.
Proof.
  intros Hcells (d & r & c & Hw). exists d, r, c. intros i Hi.
  destruct (Hw i Hi) as (? & ? & ?). unfold holds_at. auto.
Qed.

Lemma is_winning_mono b b' q q' :
  (∀ r c, PyStr (cell b r c) = q → PyStr (cell b' r c) = q') →
  is_winning b q = true → is_winning b' q' = true.
Proof.
  intros Hcells Hw%is_winning_has_four.
  by eapply has_four_is_winning, has_four_mono.
Qed.

Lemma is_winning_ext b b' q :
  (∀ r c, cell b r c = cell b' r c) → is_winning b q = is_winning b' q.
Proof.
  intros Hcells. apply eq_true_iff_eq.
  split; apply is_winning_mono; intros r c; by rewrite Hcells.
Qed.

(** A piece dropped in an empty cell creates a win for no other piece,
    and destroys the win of no piece. *)
Lemma place_no_new_win b row col piece q :
  q ≠ PyStr (py_str piece) →
  cell b row (Z.to_nat col) = " " →
  is_winning (place b row col piece) q = true → is_winning b q = true.
Proof.
  intros Hq He. apply is_winning_mono. intros r c Hc.
  destruct (decide ((row, Z.to_nat col) = (r, c))) as [[= <- <-]|Hne].
  - rewrite place_cell_eq in Hc by done. congruence.
  - by rewrite place_cell_ne in Hc.
Qed.

Lemma place_keeps_win b row col piece q :
  q ≠ PyStr " " →
  cell b row (Z.to_nat col) = " " →
  is_winning b q = true → is_winning (place b row col piece) q = true.
Proof.
  intros Hq He. apply is_winning_mono. intros r c Hc.
  rewrite place_cell_ne; [done|]. intros [= <- <-]. congruence.
Qed.

(** The same for a successful [play]. *)
Lemma play_no_new_win b col piece b' q :
  play b col piece = Ok b' → q ≠ PyStr (py_str piece) →
  is_winning b q = false → is_winning b' q = false.
Proof.
  intros (_ & row & (_ & He & _)%get_next_open_row_Some & ->)%play_Ok_inv Hq Hw.
  apply not_true_iff_false. intros Hw'%place_no_new_win; congruence.
Qed.
End frame.

#[export] Instance is_winning_proper :
  Proper (same_grid ==> eq ==> eq) is_winning.
Proof.
  intros b1 b2 Hb ?? ->. apply is_winning_ext. intros r c. by rewrite Hb.
Qed.

(** * Properties *)

Section properties.
Implicit Types (b : Board) (piece q : pyval) (row : nat) (col : Z).

(** C8 (equivalence). Win detection: [is_winning(piece)] is [True]
    exactly when some four consecutive cells of the grid along a row, a
    column or one of the two diagonals all hold [piece]; the four loop
    nests cover every such window and nothing else. *)
Theorem is_winning_iff b piece : is_winning b piece = true ↔ has_four b piece.
Proof. split; [apply is_winning_has_four | apply has_four_is_winning]. Qed.

(** A piece that is not a str never wins: the cells
    hold strs, and [==] between a str and an int (or [None]) is [False].
    This is why [end_logic] and [minimax] call [str(piece)]. *)
Theorem is_winning_not_str b q :
  (∀ s, q ≠ PyStr s) → is_winning b q = false.
Proof.
  intros Hq. apply not_true_iff_false. intros Hw%is_winning_has_four.
  destruct Hw as (d & r & c & Hw). destruct (Hw 0%Z) as (_ & _ & Hc); [lia|].
  by eapply Hq.
Qed.

(** A move creates no win for a piece other than the one
    it drops: if [q] wins after [piece] was dropped in an empty cell and
    [q] is not [str(piece)], then [q] won before. *)
Theorem is_winning_place_other b row col piece q :
  q ≠ PyStr (py_str piece) →
  is_winning (place b row col piece) q = true →
  cell b row (Z.to_nat col) = " " →
  is_winning b q = true.
Proof.
  intros Hq Hwin He. by eapply place_no_new_win.
Qed.

(** A move keeps the wins that were there: a piece other
    than [' '] that has four in a row still has after any piece is
    dropped in an empty cell. *)
Theorem is_winning_place_mono b row col piece q :
  q ≠ PyStr " " → is_winning b q = true →
  cell b row (Z.to_nat col) = " " →
  is_winning (place b row col piece) q = true.
Proof.
  intros Hq Hwin He. by apply place_keeps_win.
Qed.

(** On the empty board nobody wins, except that
    [is_winning(' ')] is [True]: four empty cells in a row satisfy the
    test. *)
Theorem is_winning_init q : is_winning init q = bool_decide (q = PyStr " ").
Proof.
  apply eq_true_iff_eq. rewrite bool_decide_eq_true. split.
  - intros (d & r & c & Hw)%is_winning_has_four.
    destruct (Hw 0%Z) as (? & ? & <-); [lia|].
    by rewrite init_cell by lia.
  - by intros ->.
Qed.
End properties.

(** * Concrete games *)

(** A wins along the bottom row, columns 0 to 3. *)
Definition horizontal_moves : list (Z * pyval) :=
  [(0, piece_A); (0, piece_B); (1, piece_A); (1, piece_B);
   (2, piece_A); (2, piece_B); (3, piece_A)]%Z.

(** A wins in column 0. *)
Definition vertical_moves : list (Z * pyval) :=
  [(0, piece_A); (1, piece_B); (0, piece_A); (1, piece_B);
   (0, piece_A); (1, piece_B); (0, piece_A)]%Z.

(** A wins on the diagonal from the bottom of column 0 up to column 3. *)
Definition rising_moves : list (Z * pyval) :=
  [(0, piece_A); (1, piece_B); (1, piece_A); (2, piece_B); (2, piece_B);
   (2, piece_A); (3, piece_B); (3, piece_B); (3, piece_B); (3, piece_A)]%Z.

(** A wins on the diagonal from the bottom of column 3 up to column 0. *)
Definition falling_moves : list (Z * pyval) :=
  [(3, piece_A); (2, piece_B); (2, piece_A); (1, piece_B); (1, piece_B);
   (1, piece_A); (0, piece_B); (0, piece_B); (0, piece_B); (0, piece_A)]%Z.

(** The two marks win or not after the moves, as [end_logic] would test
    them with [str(piece)]. *)
Definition winners (moves : list (Z * pyval)) : option (bool * bool) :=
  match play_all init moves with
  | Ok b => Some (is_winning b (PyStr "0"), is_winning b (PyStr "1"))
  | Raise _ => None
  end.

(** The four patterns: A's four pieces along the
    bottom row, in a column and on either diagonal make
    [is_winning('0')] true and [is_winning('1')] false; one move
    earlier neither wins. *)
Example four_patterns :
  Forall (λ moves, winners moves = Some (true, false)
                   ∧ winners (removelast moves) = Some (false, false))
    [horizontal_moves; vertical_moves; rising_moves; falling_moves].
Proof. repeat constructor. Qed.

(** Witnesses *)

Lemma is_winning_not_str_witness : is_winning init (PyInt 0) = false.
Proof. apply is_winning_not_str. intros s. discriminate. Defined.

Lemma is_winning_place_other_witness :
  is_winning (board_after horizontal_moves) (PyStr "0") = true.
Proof.
  apply (is_winning_place_other _ 4 3 piece_B (PyStr "0"));
    [discriminate | reflexivity | reflexivity].
Defined.

Lemma is_winning_place_mono_witness :
  is_winning (place (board_after horizontal_moves) 4 3 piece_B) (PyStr "0")
  = true.
Proof.
  apply is_winning_place_mono; [discriminate | reflexivity | reflexivity].
Defined.
