(* ===== verification/Eval.v ===== *)
(** * Eval: the heuristic [eval_board] of [src/main.py]

    The score of a position at the search horizon: three points per piece
    in the centre column, overridden by a win or a loss.  [count] is
    [list.count], [center_array] the list comprehension over the rows. *)

From S2P Require Import Prelude Python Board Win.

Definition WIN_SCORE : Z := 1000000.

(** [l.count(x)] *)
Definition count (x : string) (l : list string) : nat :=
  length (filter (λ y, y = x) l).

(** [[row[board.COLS // 2] for row in board.board]] *)
Definition center_array (b : Board) : list string :=
  (λ row, default "" (row !! (COLS `div` 2))) <$> board b.

Definition eval_board (b : Board) (piece : pyval) : Z :=
  let score := 0%Z in
  let opponent_piece := opponent piece in
  let center_count := count (py_str piece) (center_array b) in
  let score := (score + Z.of_nat center_count * 3)%Z in
  if is_winning b (PyStr (py_str piece)) then WIN_SCORE
  else if is_winning b (PyStr (py_str opponent_piece)) then (- WIN_SCORE)%Z
  else score.

(** * Lemmas *)

Section eval.
Implicit Types (b : Board) (piece : pyval).

Lemma count_le x l : count x l ≤ length l.
Proof. apply length_filter. Qed.

#[export] Instance center_array_proper :
  Proper (same_grid ==> eq) center_array.
Proof. intros b1 b2 [Hb]. unfold center_array. by rewrite Hb. Qed.

#[export] Instance eval_board_proper :
  Proper (same_grid ==> eq ==> eq) eval_board.
Proof.
  intros b1 b2 Hb ? piece ->. unfold eval_board. cbv zeta.
  by rewrite (center_array_proper _ _ Hb),
    !(is_winning_proper _ _ Hb _ _ eq_refl).
Qed.

Lemma center_array_length b : length (center_array b) = length (board b).
Proof. apply length_fmap. Qed.

Lemma center_array_lookup b r :
  r < length (board b) → center_array b !! r = Some (cell b r 3).
Proof.
  intros Hr. unfold center_array, cell, grid_get.
  rewrite list_lookup_fmap.
  destruct (lookup_lt_is_Some_2 _ _ Hr) as [row ->]. done.
Qed.

(** The centre column, cell by cell. *)
Lemma center_array_cells b :
  center_array b = (λ r, cell b r 3) <$> seq 0 (length (board b)).
Proof.
  apply list_eq. intros r. rewrite list_lookup_fmap.
  destruct (decide (r < length (board b))) as [Hr|Hr].
  - rewrite center_array_lookup, lookup_seq_lt by done. done.
  - rewrite lookup_seq_ge by lia. apply lookup_ge_None_2.
    rewrite center_array_length. lia.
Qed.

Lemma eval_board_win b piece :
  is_winning b (PyStr (py_str piece)) = true → eval_board b piece = WIN_SCORE.
Proof. intros Hw. unfold eval_board. by rewrite Hw. Qed.

Lemma eval_board_loss b piece :
  is_winning b (PyStr (py_str piece)) = false →
  is_winning b (PyStr (py_str (opponent piece))) = true →
  eval_board b piece = (- WIN_SCORE)%Z.
Proof. intros Hw Hl. unfold eval_board. by rewrite Hw, Hl. Qed.

Lemma eval_board_quiet b piece :
  is_winning b (PyStr (py_str piece)) = false →
  is_winning b (PyStr (py_str (opponent piece))) = false →
  eval_board b piece
  = (Z.of_nat (count (py_str piece) (center_array b)) * 3)%Z.
Proof. intros Hw Hl. unfold eval_board. by rewrite Hw, Hl. Qed.

(** The score is a win, a loss, or at most three points per row. *)
Lemma eval_board_range b piece :
  eval_board b piece = WIN_SCORE ∨ eval_board b piece = (- WIN_SCORE)%Z
  ∨ (0 ≤ eval_board b piece ≤ 3 * Z.of_nat (length (board b)))%Z.
Proof.
  unfold eval_board. repeat case_bool; auto.
  right; right. pose proof (count_le (py_str piece) (center_array b)).
  rewrite center_array_length in *. lia.
Qed.
End eval.

(** * Properties *)

Section properties.
Implicit Types (b : Board) (piece : pyval).

(** [eval_board] returns +1000000 when [str(piece)]
    has four in a row; else -1000000 when the piece it takes for the
    opponent has; else three points for each cell of the centre column
    (index 3) that holds [str(piece)]. *)
Theorem eval_board_cases b piece :
  let centre := count (py_str piece) ((λ r, cell b r 3) <$> seq 0 (length (board b))) in
  eval_board b piece = WIN_SCORE
    ∧ is_winning b (PyStr (py_str piece)) = true
  ∨ eval_board b piece = (- WIN_SCORE)%Z
    ∧ is_winning b (PyStr (py_str piece)) = false
    ∧ is_winning b (opponent piece) = true
  ∨ eval_board b piece = (3 * Z.of_nat centre)%Z
    ∧ is_winning b (PyStr (py_str piece)) = false
    ∧ is_winning b (opponent piece) = false.
Proof.
  intros centre. subst centre. rewrite <-center_array_cells.
  assert (PyStr (py_str (opponent piece)) = opponent piece) as Hopp
    by (unfold opponent; by case_bool).
  unfold eval_board. rewrite Hopp. repeat case_bool; auto.
  right; right. split; [lia | done].
Qed.

(** On a board of the right shape the heuristic stays
    within [-1000000, 1000000], and outside a win or a loss within
    [0, 18]: it cannot be mistaken for a terminal score. *)
Theorem eval_board_bound b piece :
  shape b →
  (- WIN_SCORE ≤ eval_board b piece ≤ WIN_SCORE)%Z
  ∧ (eval_board b piece = WIN_SCORE ∨ eval_board b piece = (- WIN_SCORE)%Z
     ∨ (0 ≤ eval_board b piece ≤ 18)%Z).
Proof.
  intros [Hlen _]. pose proof (eval_board_range b piece) as Hr.
  rewrite Hlen in Hr. unfold ROWS, WIN_SCORE in *. lia.
Qed.

(** For the int piece 0, which [main] passes for the
    first player, the heuristic is never negative: the piece taken for
    the opponent is the player's own mark ['0'], so a position where
    ['1'] has four in a row is not scored as a loss. *)
Theorem eval_board_int0_no_loss b : (0 ≤ eval_board b (PyInt 0))%Z.
Proof.
  unfold eval_board. change (opponent (PyInt 0)) with (PyStr "0").
  rewrite py_str_int0, py_str_str.
  destruct (is_winning b (PyStr "0")); [by unfold WIN_SCORE|]. lia.
Qed.
End properties.

(** Witnesses *)

Lemma eval_board_bound_witness :
  (- WIN_SCORE ≤ eval_board init piece_A ≤ WIN_SCORE)%Z
  ∧ (eval_board init piece_A = WIN_SCORE
     ∨ eval_board init piece_A = (- WIN_SCORE)%Z
     ∨ (0 ≤ eval_board init piece_A ≤ 18)%Z).
Proof. apply eval_board_bound, init_shape. Defined.
