(* ===== verification/Checked.v ===== *)
(** * Checked: the subscripts of [class Board], with [IndexError]

    [Board], [Win] and [Eval] read the grid with a total function
    ([cell], which answers the empty str outside the grid).  Python's
    subscripts raise [IndexError] there and count negative indices from
    the end.  This file writes the methods again with checked subscripts
    ([getitem], [setitem]), evaluated in the order of the source, and
    proves that on a board of 6 rows of 7 cells they never raise and
    return what the total definitions return.  [play] keeps that shape,
    so the total definitions are the methods on every board the program
    builds. *)

From S2P Require Import Prelude Python Board Win Eval.

(** ** The methods with checked subscripts *)

(** [self.board[r][c]] *)
Definition getcell (b : Board) (r c : Z) : res string :=
  row ← getitem (board b) r; getitem row c.

(** [self.board[r][c] = x]: the row object is updated in place. *)
Definition setcell (b : Board) (r c : Z) (x : string)
    : res (list (list string)) :=
  row ← getitem (board b) r;
  row' ← setitem row c x;
  setitem (board b) r row'.

Definition can_play_checked (b : Board) (col : Z) : res bool :=
  if (0 <=? col)%Z && (col <? Z.of_nat COLS)%Z then
    s ← getcell b 0 col; Ok (bool_decide (s = " "))
  else Ok false.

Fixpoint next_open_from_checked (b : Board) (col : Z) (n : nat)
    : res (option nat) :=
  match n with
  | 0 => Ok None
  | S r =>
      s ← getcell b (Z.of_nat r) col;
      if bool_decide (s = " ") then Ok (Some r)
      else next_open_from_checked b col r
  end.

Definition get_next_open_row_checked (b : Board) (col : Z) : res (option nat) :=
  next_open_from_checked b col ROWS.

Definition play_checked (b : Board) (col : Z) (piece : pyval) : res Board :=
  ok ← can_play_checked b col;
  if negb ok then Raise (ValueError "Column is full or out of bounds")
  else
    row ← get_next_open_row_checked b col;
    match row with
    | None => Raise TypeError
    | Some row =>
        g ← setcell b (Z.of_nat row) col (py_str piece);
        Ok {| board := g;
              history := history b ++ [(piece, col)];
              last_move := Some (row, col);
              valid_locations := valid_locations b |}
    end.

Definition get_valid_locations_checked (b : Board) : res (list Z) :=
  foldl (λ acc col, l ← acc; ok ← can_play_checked b col;
                    Ok (if ok : bool then l ++ [col] else l))
    (Ok []) (seqZ 0 (Z.of_nat COLS)).

(** [self.board[r][c] == piece] *)
Definition at_checked (b : Board) (piece : pyval) (r c : Z) : res bool :=
  s ← getcell b r c; Ok (py_eq (PyStr s) piece).

(** One loop nest of [is_winning]: [w x y i] is the [i]-th comparison of
    the window that starts at [x], [y]. *)
Definition scan (outer inner : list nat) (w : nat → nat → nat → res bool)
    : res bool :=
  any_res (λ x, any_res (λ y, all_res (w x y) (seq 0 4)) inner) outer.

Definition is_winning_checked (b : Board) (piece : pyval) : res bool :=
  let at_ (r c : Z) := at_checked b piece r c in
  let z := Z.of_nat in
  h ← scan (seq 0 ROWS) (seq 0 (COLS - 3)) (λ r c i, at_ (z r) (z c + z i)%Z);
  if h : bool then Ok true else
  v ← scan (seq 0 COLS) (seq 0 (ROWS - 3)) (λ c r i, at_ (z r + z i)%Z (z c));
  if v : bool then Ok true else
  d ← scan (seq 0 (ROWS - 3)) (seq 0 (COLS - 3))
        (λ r c i, at_ (z r + z i)%Z (z c + z i)%Z);
  if d : bool then Ok true else
  scan (seq 3 (ROWS - 3)) (seq 0 (COLS - 3))
    (λ r c i, at_ (z r - z i)%Z (z c + z i)%Z).

Definition eval_board_checked (b : Board) (piece : pyval) : res Z :=
  let score := 0%Z in
  let opponent_piece := opponent piece in
  center_array ← map_res (λ row, getitem row (Z.of_nat (COLS `div` 2))) (board b);
  let center_count := count (py_str piece) center_array in
  let score := (score + Z.of_nat center_count * 3)%Z in
  won ← is_winning_checked b (PyStr (py_str piece));
  if won : bool then Ok WIN_SCORE else
  lost ← is_winning_checked b (PyStr (py_str opponent_piece));
  if lost : bool then Ok (- WIN_SCORE)%Z else Ok score.

(** * Lemmas *)

Section checked.
Implicit Types (b : Board) (piece : pyval) (r c : nat) (col : Z).

Lemma getcell_ok b r c :
  shape b → r < ROWS → c < COLS →
  getcell b (Z.of_nat r) (Z.of_nat c) = Ok (cell b r c).
Proof.
  intros Hs Hr Hc. unfold getcell.
  destruct (grid_get_checked "" _ _ _ _ _ Hs Hr Hc) as [-> Hcell]. done.
Qed.

Lemma at_checked_ok b piece r c :
  shape b → r < ROWS → c < COLS →
  at_checked b piece (Z.of_nat r) (Z.of_nat c) = Ok (cell_is b piece r c).
Proof. intros. unfold at_checked. by rewrite getcell_ok. Qed.

Lemma setcell_ok b r c x :
  shape b → r < ROWS → c < COLS →
  setcell b (Z.of_nat r) (Z.of_nat c) x = Ok (grid_set (board b) r c x).
Proof.
  intros Hs Hr Hc. unfold setcell.
  destruct (grid_shape_lookup _ _ _ _ _ Hs Hr Hc) as (row & y & Hrow & Hy).
  rewrite (getitem_nonneg _ _ _ Hrow). simpl.
  rewrite setitem_nonneg by by eapply lookup_lt_Some. simpl.
  rewrite setitem_nonneg by by eapply lookup_lt_Some.
  f_equal. unfold grid_set. apply list_eq. intros i.
  destruct (decide (r = i)) as [<-|].
  - rewrite list_lookup_alter_eq, list_lookup_insert_eq, Hrow;
      [done | by eapply lookup_lt_Some].
  - by rewrite list_lookup_alter_ne, list_lookup_insert_ne.
Qed.

Lemma can_play_checked_ok b col :
  shape b → can_play_checked b col = Ok (can_play b col).
Proof.
  intros Hs. unfold can_play_checked, can_play.
  destruct ((0 <=? col)%Z && (col <? Z.of_nat COLS)%Z) eqn:Hcol; [|done].
  bool_hyps. rewrite <-(Z2Nat.id col) at 1 by done.
  rewrite (getcell_ok b 0) by (done || unfold ROWS; lia). done.
Qed.

Lemma next_open_from_checked_ok b c n :
  shape b → c < COLS → n ≤ ROWS →
  next_open_from_checked b (Z.of_nat c) n = Ok (next_open_from b c n).
Proof.
  intros Hs Hc. induction n as [|n IH]; intros Hn; [done|]. simpl.
  rewrite getcell_ok by (done || lia). simpl.
  case_bool; [done | apply IH; lia].
Qed.

(** The scan of a direction, when its windows lie in the grid. *)
Lemma scan_ok outer inner (w : nat → nat → nat → res bool)
    (g : nat → nat → nat → bool) :
  (∀ x y i, x ∈ outer → y ∈ inner → i < 4 → w x y i = Ok (g x y i)) →
  scan outer inner w = Ok (any_start outer inner (λ x y, all4 (g x y))).
Proof.
  intros Hw. unfold scan, any_start, all4.
  apply any_res_ok. intros x Hx. apply any_res_ok. intros y Hy.
  apply all_res_ok. intros i [_ Hi]%elem_of_seq. by apply Hw.
Qed.

Lemma get_next_open_row_checked_ok b col :
  shape b → (0 ≤ col < Z.of_nat COLS)%Z →
  get_next_open_row_checked b col = Ok (get_next_open_row b (Z.to_nat col)).
Proof.
  intros Hs Hcol. unfold get_next_open_row_checked, get_next_open_row.
  rewrite <-(Z2Nat.id col) at 1 by lia.
  apply next_open_from_checked_ok; [done | lia | done].
Qed.

Lemma play_checked_ok b col piece :
  shape b → play_checked b col piece = play b col piece.
Proof.
  intros Hs. unfold play_checked, play. rewrite can_play_checked_ok by done.
  simpl. destruct (can_play b col) eqn:Hcan; [simpl|done].
  apply can_play_spec in Hcan as [Hcol _].
  rewrite get_next_open_row_checked_ok by done. simpl.
  destruct (get_next_open_row b (Z.to_nat col)) as [row|] eqn:Hrow; [|done].
  apply get_next_open_row_Some in Hrow as (Hr & _).
  rewrite <-(Z2Nat.id col) at 1 by lia. by rewrite setcell_ok by (done || lia).
Qed.

Lemma valid_loop_ok b (l acc : list Z) :
  shape b →
  foldl (λ acc col, l ← acc; ok ← can_play_checked b col;
                    Ok (if ok : bool then l ++ [col] else l)) (Ok acc) l
  = Ok (foldl (append_if (can_play b)) acc l).
Proof.
  intros Hs. revert acc. induction l as [|col l IH]; intros acc; [done|].
  simpl. rewrite can_play_checked_ok by done. simpl. apply IH.
Qed.

Lemma get_valid_locations_checked_ok b :
  shape b → get_valid_locations_checked b = Ok (get_valid_locations b).
Proof. apply valid_loop_ok. Qed.

(** The side condition of [scan_ok]: the cells of a window are in the
    grid. *)
Ltac scan_side :=
  intros ? ? ? [? ?]%elem_of_seq [? ?]%elem_of_seq ?;
  rewrite <-?Nat2Z.inj_add, <-?Nat2Z.inj_sub by lia;
  apply at_checked_ok; unfold ROWS, COLS in *; (done || lia).

Lemma is_winning_checked_ok b piece :
  shape b → is_winning_checked b piece = Ok (is_winning b piece).
Proof.
  intros Hs. unfold is_winning_checked, is_winning, horizontal, vertical,
    diagonal_down, diagonal_up. cbv zeta.
  rewrite (scan_ok (seq 0 ROWS) (seq 0 (COLS - 3)) _
             (λ r c i, cell_is b piece r (c + i))) by scan_side.
  rewrite (scan_ok (seq 0 COLS) (seq 0 (ROWS - 3)) _
             (λ c r i, cell_is b piece (r + i) c)) by scan_side.
  rewrite (scan_ok (seq 0 (ROWS - 3)) (seq 0 (COLS - 3)) _
             (λ r c i, cell_is b piece (r + i) (c + i))) by scan_side.
  rewrite (scan_ok (seq 3 (ROWS - 3)) (seq 0 (COLS - 3)) _
             (λ r c i, cell_is b piece (r - i) (c + i))) by scan_side.
  cbn [mbind res_bind]. by repeat (destruct (any_start _ _ _); [done|]).
Qed.

Lemma center_array_checked_ok b :
  shape b →
  map_res (λ row, getitem row (Z.of_nat (COLS `div` 2))) (board b)
  = Ok (center_array b).
Proof.
  intros [_ Hrows]. unfold center_array. apply map_res_ok. intros row Hrow.
  rewrite Forall_forall in Hrows. specialize (Hrows row Hrow).
  destruct (lookup_lt_is_Some_2 row (COLS `div` 2)) as [x Hx];
    [rewrite Hrows; unfold COLS; simpl; lia|].
  rewrite (getitem_nonneg _ _ _ Hx). by rewrite Hx.
Qed.

Lemma eval_board_checked_ok b piece :
  shape b → eval_board_checked b piece = Ok (eval_board b piece).
Proof.
  intros Hs. unfold eval_board_checked, eval_board. cbv zeta.
  rewrite center_array_checked_ok, !is_winning_checked_ok by done. simpl.
  by repeat case_bool.
Qed.
End checked.

(** * Properties *)

(** C28 (safety). No subscript of [class Board] or of [eval_board] raises
    [IndexError]: on a board of 6 rows of 7 cells the methods written
    with Python's checked subscripts return what the total definitions
    of the development return, and [play] raises or succeeds as they
    say. *)
Theorem checked_methods_agree (b : Board) (col : Z) (piece : pyval) :
  shape b →
  can_play_checked b col = Ok (can_play b col)
  ∧ get_valid_locations_checked b = Ok (get_valid_locations b)
  ∧ play_checked b col piece = play b col piece
  ∧ is_winning_checked b piece = Ok (is_winning b piece)
  ∧ eval_board_checked b piece = Ok (eval_board b piece).
Proof.
  intros Hs. split_and!;
    [by apply can_play_checked_ok | by apply get_valid_locations_checked_ok
    | by apply play_checked_ok | by apply is_winning_checked_ok
    | by apply eval_board_checked_ok].
Qed.

(** The shape is needed: on a board with no row the subscript of
    [can_play] raises, where the total definition answers [False]. *)
Example can_play_checked_needs_shape :
  let b := {| board := []; history := []; last_move := None;
              valid_locations := [] |} in
  can_play_checked b 3 = Raise IndexError ∧ can_play b 3 = false.
Proof. done. Qed.

(** Witnesses *)

Lemma checked_methods_agree_witness :
  can_play_checked init 3 = Ok (can_play init 3)
  ∧ get_valid_locations_checked init = Ok (get_valid_locations init)
  ∧ play_checked init 3 (PyInt 0) = play init 3 (PyInt 0)
  ∧ is_winning_checked init (PyInt 0) = Ok (is_winning init (PyInt 0))
  ∧ eval_board_checked init (PyInt 0) = Ok (eval_board init (PyInt 0)).
Proof. apply checked_methods_agree, init_shape. Defined.
