(* ===== verification/Search.v ===== *)
(** * Search: [minimax], the depth-bounded alpha-beta search of [src/main.py]

    [minimax] only touches its board through three methods and the
    heuristic, so it is defined over the interface [Position]: any type
    of positions with [is_winning], [get_valid_locations], [play] and an
    evaluation.  [Engine] instantiates it with [Board]; the theorems here
    are proved from the interface's laws alone.

    The function runs in the monad [M]: it draws [random.choice], a
    failing [play] would abort it, and the recursion is bounded by fuel
    ([depth + 1] is enough when [depth] is not negative).  [deepcopy]
    followed by an in-place [play] is the functional [pos_play], which
    leaves the parent's position untouched.

    [exhaustive] is the reference: plain minimax to the same depth with no
    window and no pruning. *)

From S2P Require Import Prelude Python Board.

(** ** What the search asks of a position *)

Class Position (B : Type) : Type := {
  pos_is_winning : B → pyval → bool;
  pos_valid_locations : B → list Z;
  pos_play : B → Z → pyval → res B;
  pos_eval : B → pyval → Z;
  (** a column that [get_valid_locations] lists can be played *)
  pos_play_valid : ∀ b col piece,
    col ∈ pos_valid_locations b → is_ok (pos_play b col piece) = true;
}.

(** A score and a column, which is [None] at a leaf. *)
Definition result : Type := num * option Z.

Section search.
Context {B : Type} `{Position B}.

Definition is_terminal_node (board : B) : bool :=
  pos_is_winning board (PyStr "0") || pos_is_winning board (PyStr "1")
  || (length (pos_valid_locations board) =? 0).

(** The three [return]s of a terminal node. *)
Definition terminal_score (board : B) (piece : pyval) : Z :=
  if pos_is_winning board (PyStr (py_str piece)) then 1000000
  else if pos_is_winning board (opponent piece) then -1000000
  else 0.

(** The maximizing [for] loop, [rec] standing for the recursive call. *)
Fixpoint max_loop (rec : B → num → num → M result) (board : B)
    (piece : pyval) (cols : list Z) (value : num) (best_col : Z)
    (alpha beta : num) : M result :=
  match cols with
  | [] => ret (value, Some best_col)
  | col :: rest =>
      (temp_board <- lift (pos_play board col piece) ;;
       r <- rec temp_board alpha beta ;;
       let new_score := r.1 in
       let value' := if decide (value < new_score)%num then new_score else value in
       let best_col' := if decide (value < new_score)%num then col else best_col in
       let alpha' := num_max alpha value' in
       if decide (beta ≤ alpha')%num then ret (value', Some best_col')
       else max_loop rec board piece rest value' best_col' alpha' beta)%py
  end.

(** The minimizing [for] loop. *)
Fixpoint min_loop (rec : B → num → num → M result) (board : B)
    (piece : pyval) (cols : list Z) (value : num) (best_col : Z)
    (alpha beta : num) : M result :=
  match cols with
  | [] => ret (value, Some best_col)
  | col :: rest =>
      (temp_board <- lift (pos_play board col (opponent piece)) ;;
       r <- rec temp_board alpha beta ;;
       let new_score := r.1 in
       let value' := if decide (new_score < value)%num then new_score else value in
       let best_col' := if decide (new_score < value)%num then col else best_col in
       let beta' := num_min beta value' in
       if decide (beta' ≤ alpha)%num then ret (value', Some best_col')
       else min_loop rec board piece rest value' best_col' alpha beta')%py
  end.

Fixpoint minimax (fuel : nat) (board : B) (depth : Z) (alpha beta : num)
    (maximizing_player : bool) (piece : pyval) : M result :=
  match fuel with
  | 0 => out_of_fuel
  | S fuel' =>
      if (depth =? 0)%Z || is_terminal_node board then
        if is_terminal_node board then
          ret (Fin (terminal_score board piece), None)
        else ret (Fin (pos_eval board piece), None)
      else if maximizing_player then
        (best_col <- random_choice (pos_valid_locations board) ;;
         max_loop (λ b a be, minimax fuel' b (depth - 1) a be false piece)
           board piece (pos_valid_locations board) NegInf best_col
           alpha beta)%py
      else
        (best_col <- random_choice (pos_valid_locations board) ;;
         min_loop (λ b a be, minimax fuel' b (depth - 1) a be true piece)
           board piece (pos_valid_locations board) PosInf best_col
           alpha beta)%py
  end.

(** ** Reference: exhaustive minimax *)

(** The positions one move away, in the order the loops visit them. *)
Definition children_of (board : B) (who : pyval) (cols : list Z)
    : list (Z * B) :=
  omap (λ col, match pos_play board col who with
               | Ok b' => Some (col, b')
               | Raise _ => None
               end) cols.

Definition children (board : B) (who : pyval) : list (Z * B) :=
  children_of board who (pos_valid_locations board).

Definition static_score (board : B) (piece : pyval) : Z :=
  if is_terminal_node board then terminal_score board piece
  else pos_eval board piece.

Fixpoint exhaustive (n : nat) (board : B) (maximizing_player : bool)
    (piece : pyval) : num :=
  match n with
  | 0 => Fin (static_score board piece)
  | S n' =>
      if is_terminal_node board then Fin (terminal_score board piece)
      else if maximizing_player then
        foldr num_max NegInf
          ((λ cb, exhaustive n' cb.2 false piece) <$> children board piece)
      else
        foldr num_min PosInf
          ((λ cb, exhaustive n' cb.2 true piece)
             <$> children board (opponent piece))
  end.
End search.

(** What a search with window ([alpha], [beta]) promises about its score
    [v] when the exhaustive value is [m]: exact inside the window, a bound
    on the right side outside it. *)
Definition fail_soft (alpha beta m v : num) : Prop :=
  ((v ≤ alpha → m ≤ v) ∧ (alpha < v → v < beta → v = m)
   ∧ (beta ≤ v → v ≤ m))%num.

(** The column a call returns: none at a leaf, a playable one inside. *)
Definition move_ok {B : Type} `{Position B} (board : B) (depth : Z)
    (move : option Z) : Prop :=
  match move with
  | None => depth = 0%Z ∨ is_terminal_node board = true
  | Some col =>
      depth ≠ 0%Z ∧ is_terminal_node board = false
      ∧ col ∈ pos_valid_locations board
  end.

(** The pieces two searches, for [piece1] and for [piece2], ask
    [is_winning] about at the same point, and the pieces they play. *)
Definition queried (piece1 piece2 q1 q2 : pyval) : Prop :=
  (q1 = PyStr "0" ∧ q2 = PyStr "0") ∨ (q1 = PyStr "1" ∧ q2 = PyStr "1")
  ∨ (q1 = PyStr (py_str piece1) ∧ q2 = PyStr (py_str piece2))
  ∨ (q1 = opponent piece1 ∧ q2 = opponent piece2).

Definition moved_alike (piece1 piece2 q1 q2 : pyval) : Prop :=
  (q1 = piece1 ∧ q2 = piece2) ∨ (q1 = opponent piece1 ∧ q2 = opponent piece2).

(** The pieces the search for [piece] plays. *)
Definition moved (piece q : pyval) : Prop := q = piece ∨ q = opponent piece.

(** The positions the search for [piece] can visit from a board: those
    reached by plays of the piece and of the piece taken for its
    opponent. *)
Inductive visited {B : Type} `{Position B} (piece : pyval) : B → B → Prop :=
  | visited_here b : visited piece b b
  | visited_play b b' b'' col q :
      moved piece q → pos_play b col q = Ok b' → visited piece b' b'' →
      visited piece b b''.

(** The scores a search can return: the static scores of the positions it
    visits. *)
Definition leaf_score {B : Type} `{Position B} (piece : pyval) (board : B)
    (v : num) : Prop :=
  ∃ b', visited piece board b' ∧ v = Fin (static_score b' piece).

(** The first maximum of a list of scored columns: [c] scores [v], the
    columns before it score less and no column after it scores more. *)
Definition first_max (l : list (Z * num)) (c : Z) (v : num) : Prop :=
  ∃ l1 l2, l = l1 ++ (c, v) :: l2
    ∧ Forall (λ x, x.2 < v)%num l1 ∧ Forall (λ x, x.2 ≤ v)%num l2.

(** The loop that keeps the first maximum, with no window. *)
Definition scan_max (acc : num * Z) (l : list (Z * num)) : num * Z :=
  foldl (λ acc x, if decide (acc.1 < x.2)%num then (x.2, x.1) else acc) acc l.

(** * Lemmas *)

Section leaves.
Context {B : Type} `{Position B}.
Implicit Types (board : B) (piece : pyval) (alpha beta : num).

Lemma minimax_terminal_eq fuel board depth alpha beta mx piece :
  is_terminal_node board = true →
  minimax (S fuel) board depth alpha beta mx piece
  = ret (Fin (terminal_score board piece), None).
Proof. intros Ht. simpl. by rewrite Ht, orb_true_r. Qed.

Lemma minimax_leaf fuel board depth alpha beta mx piece :
  (depth =? 0)%Z || is_terminal_node board = true →
  minimax (S fuel) board depth alpha beta mx piece
  = ret (Fin (static_score board piece), None).
Proof.
  intros Hleaf. simpl. rewrite Hleaf. unfold static_score.
  by destruct (is_terminal_node board).
Qed.

(** A node that is not terminal has a column to try. *)
Lemma not_terminal_valid board :
  is_terminal_node board = false → pos_valid_locations board ≠ [].
Proof.
  unfold is_terminal_node. intros Ht Hnil. by rewrite Hnil, orb_true_r in Ht.
Qed.

Lemma children_of_cons board who col cols b' :
  pos_play board col who = Ok b' →
  children_of board who (col :: cols) = (col, b') :: children_of board who cols.
Proof. intros Hp. unfold children_of. simpl. by rewrite Hp. Qed.
End leaves.

(** ** The order facts behind pruning *)

Ltac fail_soft_solve :=
  unfold fail_soft; intros;
  repeat match goal with x := _ |- _ => subst x end;
  split_and?; num_lia.

Section fail_soft.
Implicit Types (alpha beta value v m mc mr r : num).
Local Open Scope num_scope.

Lemma fail_soft_exact alpha beta m : fail_soft alpha beta m m.
Proof. fail_soft_solve. Qed.

(** With the full window the promise is equality. *)
Lemma fail_soft_full m v : fail_soft NegInf PosInf m v → v = m.
Proof. fail_soft_solve. Qed.

(** The promise read from the exhaustive value's side. *)
Lemma fail_soft_inside alpha beta m v :
  alpha < beta → fail_soft alpha beta m v →
  (alpha < m → m < beta → v = m) ∧ (m ≤ alpha → v ≤ alpha)
  ∧ (beta ≤ m → beta ≤ v).
Proof. fail_soft_solve. Qed.

Lemma fail_soft_max_nil alpha beta value :
  alpha < beta → value ≤ alpha → fail_soft alpha beta NegInf value.
Proof. fail_soft_solve. Qed.

(** The maximizing loop breaks: the score that caused it is a lower
    bound of the node's value. *)
Lemma fail_soft_max_break alpha beta value v mc mr :
  alpha < beta → value ≤ alpha → fail_soft alpha beta mc v →
  let value' := if decide (value < v) then v else value in
  beta ≤ num_max alpha value' →
  value ≤ value' ∧ fail_soft alpha beta (num_max mc mr) value'.
Proof. fail_soft_solve. Qed.

(** The maximizing loop goes on with a raised [alpha]: the promise of the
    remaining iterations extends to the whole loop. *)
Lemma fail_soft_max_next alpha beta value' :
  ¬ beta ≤ num_max alpha value' →
  num_max alpha value' < beta ∧ value' ≤ num_max alpha value'.
Proof. fail_soft_solve. Qed.

Lemma fail_soft_max_step alpha beta value v mc mr r :
  alpha < beta → value ≤ alpha → fail_soft alpha beta mc v →
  let value' := if decide (value < v) then v else value in
  let alpha' := num_max alpha value' in
  ¬ beta ≤ alpha' →
  value' ≤ r ∧ fail_soft alpha' beta mr r →
  value ≤ r ∧ fail_soft alpha beta (num_max mc mr) r.
Proof. fail_soft_solve. Qed.

(** At the root the window is ([value], +inf): a child improves on
    [value] exactly when its exhaustive value does, and then its score is
    that value. *)
Lemma fail_soft_root value m v :
  is_fin v → fail_soft value PosInf m v →
  (value < v ↔ value < m) ∧ (value < v → v = m).
Proof. fail_soft_solve. Qed.

Lemma root_no_break value v :
  value < PosInf → is_fin v →
  let value' := if decide (value < v) then v else value in
  num_max value value' = value' ∧ value' < PosInf ∧ ¬ PosInf ≤ value'.
Proof. fail_soft_solve. Qed.

Lemma scan_max_spec l value best v c :
  scan_max (value, best) l = (v, c) →
  (v = value ∧ c = best ∧ Forall (λ x, x.2 ≤ value) l)
  ∨ (value < v ∧ first_max l c v).
Proof.
  revert value best. induction l as [|[c0 m] l IH]; intros value best.
  { intros [= <- <-]. by left. }
  unfold scan_max. cbn [foldl fst snd]. case_decide as Hm; intros Hscan.
  - right. destruct (IH _ _ Hscan) as [(-> & -> & Hl)|[Hv (l1 & l2 & -> & H1 & H2)]].
    + split; [done|]. by exists [], l.
    + split; [num_lia|]. exists ((c0, m) :: l1), l2.
      split_and!; [done| |done]. constructor; [cbn; num_lia | done].
  - destruct (IH _ _ Hscan) as [(-> & -> & Hl)|[Hv (l1 & l2 & -> & H1 & H2)]].
    + left. split_and!; [done..|]. constructor; [cbn; num_lia | done].
    + right. split; [done|]. exists ((c0, m) :: l1), l2.
      split_and!; [done| |done]. constructor; [cbn; num_lia | done].
Qed.

(** A first maximum is an entry of the list, and it is the bound of the
    list when an entry reaches it. *)
Lemma first_max_elem l c v : first_max l c v → (c, v) ∈ l.
Proof.
  intros (l1 & l2 & -> & _). rewrite elem_of_app, elem_of_cons. auto.
Qed.

Lemma first_max_top l c v col top :
  first_max l c v → (col, top) ∈ l → Forall (λ x, x.2 ≤ top) l → v = top.
Proof.
  intros Hmax Hin Hle.
  pose proof (proj1 (Forall_forall _ _) Hle _ (first_max_elem _ _ _ Hmax)) as Hv.
  destruct Hmax as (l1 & l2 & -> & H1 & H2). cbn [snd] in Hv.
  apply num_le_antisym; [done|].
  apply elem_of_app in Hin as [Hin|Hin].
  - apply (proj1 (Forall_forall _ _) H1) in Hin. cbn [snd] in Hin. num_lia.
  - apply elem_of_cons in Hin as [Heq|Hin]; [simplify_eq; num_lia|].
    by apply (proj1 (Forall_forall _ _) H2) in Hin.
Qed.

Lemma fail_soft_min_nil alpha beta value :
  alpha < beta → beta ≤ value → fail_soft alpha beta PosInf value.
Proof. fail_soft_solve. Qed.

Lemma fail_soft_min_break alpha beta value v mc mr :
  alpha < beta → beta ≤ value → fail_soft alpha beta mc v →
  let value' := if decide (v < value) then v else value in
  num_min beta value' ≤ alpha →
  value' ≤ value ∧ fail_soft alpha beta (num_min mc mr) value'.
Proof. fail_soft_solve. Qed.

Lemma fail_soft_min_next alpha beta value' :
  ¬ num_min beta value' ≤ alpha →
  alpha < num_min beta value' ∧ num_min beta value' ≤ value'.
Proof. fail_soft_solve. Qed.

Lemma fail_soft_min_step alpha beta value v mc mr r :
  alpha < beta → beta ≤ value → fail_soft alpha beta mc v →
  let value' := if decide (v < value) then v else value in
  let beta' := num_min beta value' in
  ¬ beta' ≤ alpha →
  r ≤ value' ∧ fail_soft alpha beta' mr r →
  r ≤ value ∧ fail_soft alpha beta (num_min mc mr) r.
Proof. fail_soft_solve. Qed.
End fail_soft.

(** ** The loops, for a recursive call that keeps the fail-soft promise *)

Section fail_soft_loops.
Context {B : Type} `{Position B}.
Context (rec : B → num → num → M result) (ex : B → num).
Context (board : B) (piece : pyval).
Hypothesis rec_fail_soft : ∀ b' col q alpha beta,
  moved piece q → pos_play board col q = Ok b' → (alpha < beta)%num →
  wp (rec b' alpha beta) (λ r, fail_soft alpha beta (ex b') r.1).

Local Abbreviation exact who cols :=
  ((λ cb : Z * B, ex cb.2) <$> children_of board who cols).

Lemma max_loop_fail_soft cols value best alpha beta :
  (alpha < beta)%num → (value ≤ alpha)%num →
  (∀ col, col ∈ cols → col ∈ pos_valid_locations board) →
  wp (max_loop rec board piece cols value best alpha beta)
     (λ r, (value ≤ r.1)%num
           ∧ fail_soft alpha beta (foldr num_max NegInf (exact piece cols)) r.1).
Proof.
  revert value best alpha.
  induction cols as [|col rest IH]; intros value best alpha Hab Hva Hcols.
  { apply wp_ret. split; [done | by apply fail_soft_max_nil]. }
  cbn [max_loop]. apply wp_bind_lift; [apply pos_play_valid, Hcols; left|].
  intros b' Hplay. rewrite (children_of_cons _ _ _ _ _ Hplay).
  cbn [fmap list_fmap foldr].
  apply wp_bind. eapply wp_mono; [by eapply rec_fail_soft; [left|..]|].
  intros [v c] Hv. cbn [fst] in *. case_decide as Hbreak.
  - apply wp_ret. by apply fail_soft_max_break.
  - destruct (fail_soft_max_next _ _ _ Hbreak).
    eapply wp_mono; [apply IH; [done..|]|].
    + intros ? ?. apply Hcols. by right.
    + intros r. by apply fail_soft_max_step.
Qed.

Lemma min_loop_fail_soft cols value best alpha beta :
  (alpha < beta)%num → (beta ≤ value)%num →
  (∀ col, col ∈ cols → col ∈ pos_valid_locations board) →
  wp (min_loop rec board piece cols value best alpha beta)
     (λ r, (r.1 ≤ value)%num
           ∧ fail_soft alpha beta
               (foldr num_min PosInf (exact (opponent piece) cols)) r.1).
Proof.
  revert value best beta.
  induction cols as [|col rest IH]; intros value best beta Hab Hva Hcols.
  { apply wp_ret. split; [done | by apply fail_soft_min_nil]. }
  cbn [min_loop]. apply wp_bind_lift; [apply pos_play_valid, Hcols; left|].
  intros b' Hplay. rewrite (children_of_cons _ _ _ _ _ Hplay).
  cbn [fmap list_fmap foldr].
  apply wp_bind. eapply wp_mono; [by eapply rec_fail_soft; [right|..]|].
  intros [v c] Hv. cbn [fst] in *. case_decide as Hbreak.
  - apply wp_ret. by apply fail_soft_min_break.
  - destruct (fail_soft_min_next _ _ _ Hbreak).
    eapply wp_mono; [apply IH; [done..|]|].
    + intros ? ?. apply Hcols. by right.
    + intros r. by apply fail_soft_min_step.
Qed.
End fail_soft_loops.

(** ** The loops, for any window *)

Section total_loops.
Context {B : Type} `{Position B}.
Context (rec : B → num → num → M result).
Context (board : B) (piece : pyval) (Q : num → Prop).
Hypothesis Q_fin : ∀ v, Q v → is_fin v.
Hypothesis rec_Q : ∀ b' col q alpha beta,
  moved piece q → pos_play board col q = Ok b' →
  wp (rec b' alpha beta) (λ r, Q r.1).

(** What a loop started with [value] and [best] returns: either nothing
    improved on them, or a score one of the calls returned, with the
    column that gave it; and the second when the loop runs from an
    infinite [inf]. *)
Definition loop_post (inf : num) (cols : list Z) (value : num) (best : Z)
    (r : result) : Prop :=
  ∃ c, r.2 = Some c
       ∧ ((r.1 = value ∧ c = best) ∨ (Q r.1 ∧ c ∈ cols))
       ∧ (value = inf → cols ≠ [] → Q r.1 ∧ c ∈ cols).

Lemma loop_post_nil inf value best : loop_post inf [] value best (value, Some best).
Proof. exists best. split_and!; [done | by left | congruence]. Qed.

(** One iteration, then either the [break] or the rest of the loop. *)
Lemma loop_post_cons inf col rest value best v r (P : Prop) `{Decision P} :
  Q v → (value = inf → P) →
  let value' := if decide P then v else value in
  let best' := if decide P then col else best in
  r = (value', Some best') ∨ loop_post inf rest value' best' r →
  loop_post inf (col :: rest) value best r.
Proof.
  intros Hv Hinf value' best' [->|(c & Hc & Hr & _)]; [exists best'|exists c];
    subst value' best'; (split; [done|]); rewrite elem_of_cons;
    case_decide; intuition (subst; auto).
Qed.

Lemma max_loop_total cols value best alpha beta :
  (∀ col, col ∈ cols → col ∈ pos_valid_locations board) →
  wp (max_loop rec board piece cols value best alpha beta)
     (loop_post NegInf cols value best).
Proof.
  revert value best alpha.
  induction cols as [|col rest IH]; intros value best alpha Hcols.
  { apply wp_ret, loop_post_nil. }
  cbn [max_loop]. apply wp_bind_lift; [apply pos_play_valid, Hcols; left|].
  intros b' Hplay. apply wp_bind.
  eapply wp_mono; [by eapply rec_Q; [left|]|].
  intros [v c] Hv. cbn [fst] in *. pose proof (Q_fin _ Hv).
  assert (value = NegInf → (value < v)%num) as Hinf by num_lia.
  case_decide as Hbreak; [apply wp_ret|eapply wp_mono; [apply IH|]];
    try (intros ? ?; apply Hcols; by right); intros;
    apply (loop_post_cons _ _ _ _ _ v _ (value < v)%num); auto.
Qed.

Lemma min_loop_total cols value best alpha beta :
  (∀ col, col ∈ cols → col ∈ pos_valid_locations board) →
  wp (min_loop rec board piece cols value best alpha beta)
     (loop_post PosInf cols value best).
Proof.
  revert value best beta.
  induction cols as [|col rest IH]; intros value best beta Hcols.
  { apply wp_ret, loop_post_nil. }
  cbn [min_loop]. apply wp_bind_lift; [apply pos_play_valid, Hcols; left|].
  intros b' Hplay. apply wp_bind.
  eapply wp_mono; [by eapply rec_Q; [right|]|].
  intros [v c] Hv. cbn [fst] in *. pose proof (Q_fin _ Hv).
  assert (value = PosInf → (v < value)%num) as Hinf by num_lia.
  case_decide as Hbreak; [apply wp_ret|eapply wp_mono; [apply IH|]];
    try (intros ? ?; apply Hcols; by right); intros;
    apply (loop_post_cons _ _ _ _ _ v _ (v < value)%num); auto.
Qed.
End total_loops.

(** ** The loops do not depend on the generator *)

Section det_loops.
Context {B : Type} `{Position B}.
Context (rec : B → num → num → M result).
Context (board : B) (piece : pyval).
Hypothesis rec_det : ∀ b' alpha beta, det (rec b' alpha beta).
Hypothesis rec_fin : ∀ b' alpha beta, wp (rec b' alpha beta) (λ r, is_fin r.1).

Lemma max_loop_det cols value best alpha beta :
  (∀ col, col ∈ cols → col ∈ pos_valid_locations board) →
  det (max_loop rec board piece cols value best alpha beta).
Proof.
  revert value best alpha.
  induction cols as [|col rest IH]; intros value best alpha Hcols;
    [apply det_ret|].
  cbn [max_loop].
  destruct (proj1 (is_ok_true _) (pos_play_valid board col piece
    (Hcols col ltac:(left)))) as [b' ->].
  apply det_bind; [apply det_ret|]. intros ?.
  apply det_bind; [done|]. intros r. case_decide; [apply det_ret|].
  apply IH. intros ? ?. apply Hcols. by right.
Qed.

Lemma min_loop_det cols value best alpha beta :
  (∀ col, col ∈ cols → col ∈ pos_valid_locations board) →
  det (min_loop rec board piece cols value best alpha beta).
Proof.
  revert value best beta.
  induction cols as [|col rest IH]; intros value best beta Hcols;
    [apply det_ret|].
  cbn [min_loop].
  destruct (proj1 (is_ok_true _) (pos_play_valid board col (opponent piece)
    (Hcols col ltac:(left)))) as [b' ->].
  apply det_bind; [apply det_ret|]. intros ?.
  apply det_bind; [done|]. intros r. case_decide; [apply det_ret|].
  apply IH. intros ? ?. apply Hcols. by right.
Qed.

(** The first iteration overwrites the randomly chosen column: a loop
    started from the infinite value forgets [best]. *)
Lemma max_loop_forgets cols best best' alpha beta g :
  cols ≠ [] →
  max_loop rec board piece cols NegInf best alpha beta g
  = max_loop rec board piece cols NegInf best' alpha beta g.
Proof.
  destruct cols as [|col rest]; [done|]. intros _. cbn [max_loop].
  unfold bind. destruct (lift _ g) as [[b' g1]| |]; try done.
  destruct (rec_fin b' alpha beta g1) as ([v c] & g2 & -> & Hfin).
  cbn [fst] in *. by rewrite !(decide_True (P := (NegInf < v)%num)) by num_lia.
Qed.

Lemma min_loop_forgets cols best best' alpha beta g :
  cols ≠ [] →
  min_loop rec board piece cols PosInf best alpha beta g
  = min_loop rec board piece cols PosInf best' alpha beta g.
Proof.
  destruct cols as [|col rest]; [done|]. intros _. cbn [min_loop].
  unfold bind. destruct (lift _ g) as [[b' g1]| |]; try done.
  destruct (rec_fin b' alpha beta g1) as ([v c] & g2 & -> & Hfin).
  cbn [fst] in *. by rewrite !(decide_True (P := (v < PosInf)%num)) by num_lia.
Qed.

(** Hence drawing the initial column at random changes nothing. *)
Lemma det_choice_loop (loop : Z → M result) (cols : list Z) :
  cols ≠ [] → (∀ best, det (loop best)) →
  (∀ best best' g, loop best g = loop best' g) →
  det (bind (random_choice cols) loop).
Proof.
  intros Hcols Hdet Hforget. destruct (Hdet 0%Z) as [a Ha]. exists a.
  apply wp_bind, wp_random_choice; [done|]. intros best _.
  by apply (wp_ext _ (loop 0%Z)).
Qed.
End det_loops.

(** ** More fuel only adds results *)

Section fuel.
Context {B : Type} `{Position B}.
Implicit Types (rec : B → num → num → M result) (board : B).

Lemma max_loop_below rec1 rec2 board piece cols value best alpha beta :
  (∀ b a be, rec1 b a be ⊑ rec2 b a be) →
  max_loop rec1 board piece cols value best alpha beta
  ⊑ max_loop rec2 board piece cols value best alpha beta.
Proof.
  intros Hrec. revert value best alpha.
  induction cols as [|col rest IH]; intros value best alpha; [done|].
  cbn [max_loop]. apply bind_below; [done|]. intros b'.
  apply bind_below; [apply Hrec|]. intros r. case_decide; [done | apply IH].
Qed.

Lemma min_loop_below rec1 rec2 board piece cols value best alpha beta :
  (∀ b a be, rec1 b a be ⊑ rec2 b a be) →
  min_loop rec1 board piece cols value best alpha beta
  ⊑ min_loop rec2 board piece cols value best alpha beta.
Proof.
  intros Hrec. revert value best beta.
  induction cols as [|col rest IH]; intros value best beta; [done|].
  cbn [min_loop]. apply bind_below; [done|]. intros b'.
  apply bind_below; [apply Hrec|]. intros r. case_decide; [done | apply IH].
Qed.

Lemma minimax_fuel_S fuel board depth alpha beta mx piece :
  minimax fuel board depth alpha beta mx piece
  ⊑ minimax (S fuel) board depth alpha beta mx piece.
Proof.
  revert board depth alpha beta mx.
  induction fuel as [|fuel IH]; intros board depth alpha beta mx;
    [apply out_of_fuel_below|].
  change (minimax (S (S fuel)) board depth alpha beta mx piece) with
    (if (depth =? 0)%Z || is_terminal_node board then
       if is_terminal_node board then
         ret (Fin (terminal_score board piece), None)
       else ret (Fin (pos_eval board piece), None)
     else if mx then
       bind (random_choice (pos_valid_locations board)) (λ best_col,
         max_loop (λ b a be, minimax (S fuel) b (depth - 1) a be false piece)
           board piece (pos_valid_locations board) NegInf best_col alpha beta)
     else
       bind (random_choice (pos_valid_locations board)) (λ best_col,
         min_loop (λ b a be, minimax (S fuel) b (depth - 1) a be true piece)
           board piece (pos_valid_locations board) PosInf best_col alpha beta)).
  cbn [minimax]. repeat case_bool; try done;
    (apply bind_below; [done|]; intros best);
    [apply max_loop_below | apply min_loop_below]; intros; apply IH.
Qed.

Lemma minimax_fuel_le fuel fuel' board depth alpha beta mx piece :
  fuel ≤ fuel' →
  minimax fuel board depth alpha beta mx piece
  ⊑ minimax fuel' board depth alpha beta mx piece.
Proof.
  induction 1 as [|fuel' _ IH]; [done|]. etrans; [apply IH|].
  apply minimax_fuel_S.
Qed.
End fuel.

(** ** Simulation

    Two kinds of positions related by [R], searched for two pieces that
    the four operations do not tell apart, are searched alike: same
    score, same column, same draws. *)

Section simulation.
Context {B1 B2 : Type} `{P1 : Position B1} `{P2 : Position B2}.
Context (R : B1 → B2 → Prop) (piece1 piece2 : pyval).
Hypothesis sim_win : ∀ b1 b2 q1 q2,
  R b1 b2 → queried piece1 piece2 q1 q2 →
  pos_is_winning b1 q1 = pos_is_winning b2 q2.
Hypothesis sim_valid : ∀ b1 b2,
  R b1 b2 → pos_valid_locations b1 = pos_valid_locations b2.
Hypothesis sim_eval : ∀ b1 b2,
  R b1 b2 → pos_eval b1 piece1 = pos_eval b2 piece2.
Hypothesis sim_play : ∀ b1 b2 col q1 q2,
  R b1 b2 → moved_alike piece1 piece2 q1 q2 →
  res_rel R (pos_play b1 col q1) (pos_play b2 col q2).

Lemma sim_terminal b1 b2 :
  R b1 b2 → is_terminal_node b1 = is_terminal_node b2.
Proof.
  intros HR. unfold is_terminal_node.
  by rewrite (sim_valid _ _ HR), (sim_win b1 b2 (PyStr "0") (PyStr "0")),
    (sim_win b1 b2 (PyStr "1") (PyStr "1")) by (unfold queried; auto 6).
Qed.

Lemma sim_terminal_score b1 b2 :
  R b1 b2 → terminal_score b1 piece1 = terminal_score b2 piece2.
Proof.
  intros HR. unfold terminal_score.
  by rewrite (sim_win b1 b2 _ (PyStr (py_str piece2))),
    (sim_win b1 b2 _ (opponent piece2)) by (unfold queried; auto 6).
Qed.

Lemma sim_lift_play b1 b2 col q1 q2 (k1 : B1 → M result)
    (k2 : B2 → M result) g :
  R b1 b2 → moved_alike piece1 piece2 q1 q2 →
  (∀ b1' b2', R b1' b2' → k1 b1' g = k2 b2' g) →
  bind (lift (pos_play b1 col q1)) k1 g = bind (lift (pos_play b2 col q2)) k2 g.
Proof.
  intros HR Hq Hk. specialize (sim_play _ _ col q1 q2 HR Hq).
  destruct (pos_play b1 col q1), (pos_play b2 col q2); simpl in *;
    [by apply Hk | done | done | by subst].
Qed.

Section loops.
Context (rec1 : B1 → num → num → M result) (rec2 : B2 → num → num → M result).
Hypothesis sim_rec : ∀ b1 b2 alpha beta g,
  R b1 b2 → rec1 b1 alpha beta g = rec2 b2 alpha beta g.

Lemma max_loop_sim b1 b2 cols value best alpha beta g :
  R b1 b2 →
  max_loop rec1 b1 piece1 cols value best alpha beta g
  = max_loop rec2 b2 piece2 cols value best alpha beta g.
Proof.
  intros HR. revert value best alpha g.
  induction cols as [|col rest IH]; intros value best alpha g; [done|].
  cbn [max_loop]. apply sim_lift_play; [done | by left|].
  intros b1' b2' HR'. unfold bind. rewrite (sim_rec _ _ _ _ _ HR').
  destruct (rec2 _ _ _ _) as [[r g']| |]; [|done..].
  case_decide; [done | apply IH].
Qed.

Lemma min_loop_sim b1 b2 cols value best alpha beta g :
  R b1 b2 →
  min_loop rec1 b1 piece1 cols value best alpha beta g
  = min_loop rec2 b2 piece2 cols value best alpha beta g.
Proof.
  intros HR. revert value best beta g.
  induction cols as [|col rest IH]; intros value best beta g; [done|].
  cbn [min_loop]. apply sim_lift_play; [done | by right|].
  intros b1' b2' HR'. unfold bind. rewrite (sim_rec _ _ _ _ _ HR').
  destruct (rec2 _ _ _ _) as [[r g']| |]; [|done..].
  case_decide; [done | apply IH].
Qed.
End loops.

Lemma minimax_sim fuel b1 b2 depth alpha beta mx g :
  R b1 b2 →
  minimax fuel b1 depth alpha beta mx piece1 g
  = minimax fuel b2 depth alpha beta mx piece2 g.
Proof.
  revert b1 b2 depth alpha beta mx g.
  induction fuel as [|fuel IH]; intros b1 b2 depth alpha beta mx g HR; [done|].
  cbn [minimax].
  rewrite (sim_terminal _ _ HR), (sim_terminal_score _ _ HR), (sim_eval _ _ HR),
    (sim_valid _ _ HR).
  repeat case_bool; try done; unfold bind;
    (destruct (random_choice _ g) as [[best g']| |]; [|done..]);
    [apply max_loop_sim | apply min_loop_sim]; auto.
Qed.
End simulation.

(** ** The maximizing loop at the root *)

Section root_loop.
Context {B : Type} `{Position B}.
Context (rec : B → num → num → M result) (ex : B → num).
Context (board : B) (piece : pyval).
Hypothesis rec_fail_soft : ∀ b' col q alpha beta,
  moved piece q → pos_play board col q = Ok b' → (alpha < beta)%num →
  wp (rec b' alpha beta) (λ r, fail_soft alpha beta (ex b') r.1).
Hypothesis rec_fin : ∀ b' col alpha beta,
  pos_play board col piece = Ok b' →
  wp (rec b' alpha beta) (λ r, is_fin r.1).

(** With [beta = +inf] and [alpha = value] the loop never breaks and
    keeps the first column whose exhaustive value is the largest. *)
Lemma max_loop_first cols value best :
  (value < PosInf)%num →
  (∀ col, col ∈ cols → col ∈ pos_valid_locations board) →
  wp (max_loop rec board piece cols value best value PosInf)
     (λ r, ∃ c, r.2 = Some c
        ∧ scan_max (value, best)
            ((λ cb : Z * B, (cb.1, ex cb.2)) <$> children_of board piece cols)
          = (r.1, c)).
Proof.
  revert value best.
  induction cols as [|col rest IH]; intros value best Hv Hcols.
  { apply wp_ret. by exists best. }
  cbn [max_loop]. apply wp_bind_lift; [apply pos_play_valid, Hcols; left|].
  intros b' Hplay. rewrite (children_of_cons _ _ _ _ _ Hplay).
  apply wp_bind. eapply wp_mono;
    [apply wp_and; [by eapply rec_fail_soft; [left|..] | by eapply rec_fin]|].
  intros [v c] [Hfs Hfin]. cbn [fst] in *.
  destruct (fail_soft_root _ _ _ Hfin Hfs) as [Hiff Heq].
  destruct (root_no_break value v Hv Hfin) as (-> & Hv' & Hnb).
  rewrite decide_False by done.
  eapply wp_mono; [apply IH; [done|]; intros ? ?; apply Hcols; by right|].
  intros r (c' & Hc' & Hscan). exists c'. split; [done|].
  rewrite <-Hscan. unfold scan_max. cbn [fmap list_fmap foldl fst snd].
  destruct (decide (value < v)%num) as [Hlt|Hlt].
  - rewrite decide_True by tauto. by rewrite (Heq Hlt).
  - by rewrite decide_False by tauto.
Qed.
End root_loop.

(** ** An invariant rule for the search

    [enough fuel board depth] says that the fuel suffices for the call,
    and [Q board v] is a property of the score [v] returned on [board]
    that holds of the static score of the board and goes up from a child
    to its parent.  Then every call with enough fuel returns, with a
    score that satisfies [Q] and a column that is [None] at a leaf and
    playable elsewhere. *)

Section invariant.
Context {B : Type} `{Position B} (piece : pyval).
Context (enough : nat → B → Z → Prop) (Q : B → num → Prop).
Hypothesis enough_0 : ∀ b depth, ¬ enough 0 b depth.
Hypothesis enough_S : ∀ fuel b depth col q b',
  enough (S fuel) b depth → depth ≠ 0%Z → moved piece q →
  pos_play b col q = Ok b' → enough fuel b' (depth - 1).
Hypothesis Q_fin : ∀ b v, Q b v → is_fin v.
Hypothesis Q_leaf : ∀ b, Q b (Fin (static_score b piece)).
Hypothesis Q_up : ∀ b col q b' v,
  moved piece q → pos_play b col q = Ok b' → Q b' v → Q b v.

Lemma minimax_invariant fuel board depth alpha beta mx :
  enough fuel board depth →
  wp (minimax fuel board depth alpha beta mx piece)
     (λ r, Q board r.1 ∧ move_ok board depth r.2).
Proof.
  revert board depth alpha beta mx.
  induction fuel as [|fuel IH]; intros board depth alpha beta mx Hfuel;
    [by apply enough_0 in Hfuel|].
  destruct ((depth =? 0)%Z || is_terminal_node board) eqn:Hleaf.
  { rewrite minimax_leaf by done. apply wp_ret. split; [done|].
    apply orb_true_iff in Hleaf as [?%Z.eqb_eq|?]; [by left | by right]. }
  apply orb_false_iff in Hleaf as [Hd0 Ht].
  pose proof (not_terminal_valid _ Ht) as Hvalid.
  cbn [minimax]. rewrite Hd0, Ht. cbn [orb]. apply Z.eqb_neq in Hd0.
  assert (∀ mx' b' col q a be, moved piece q → pos_play board col q = Ok b' →
    wp (minimax fuel b' (depth - 1) a be mx' piece) (λ r, Q board r.1)) as Hrec.
  { intros. eapply wp_mono; [by eapply IH, enough_S|].
    intros r [? _]. by eapply Q_up. }
  destruct mx; apply wp_bind, wp_random_choice; try done; intros best _;
    (eapply wp_mono;
       [by (eapply (max_loop_total _ _ _ (Q board))
            || eapply (min_loop_total _ _ _ (Q board))); eauto|]);
    intros r (c & -> & _ & Hc); by destruct Hc.
Qed.
End invariant.

(** ** The scores of the leaves *)

Section leaf_score.
Context {B : Type} `{Position B} (piece : pyval).

Lemma leaf_score_fin (b : B) v : leaf_score piece b v → is_fin v.
Proof. by intros (b' & _ & ->). Qed.

Lemma leaf_score_here (b : B) : leaf_score piece b (Fin (static_score b piece)).
Proof. exists b. split; [constructor | done]. Qed.

Lemma leaf_score_up (b : B) col q b' v :
  moved piece q → pos_play b col q = Ok b' →
  leaf_score piece b' v → leaf_score piece b v.
Proof.
  intros Hq Hp (b'' & Hv & ->). exists b''. split; [|done].
  by eapply visited_play.
Qed.
End leaf_score.

#[export] Hint Resolve leaf_score_fin leaf_score_here leaf_score_up : leaf.

(** ** Termination without the depth

    A measure of the board that every move of the search decreases bounds
    the recursion whatever the depth, negative depths included. *)

Section sized.
Context {B : Type} `{Position B} (piece : pyval) (size : B → nat).
Hypothesis size_play : ∀ b col q b',
  moved piece q → pos_play b col q = Ok b' → size b' < size b.

Lemma minimax_sized fuel board depth alpha beta mx :
  size board < fuel →
  wp (minimax fuel board depth alpha beta mx piece)
     (λ r, leaf_score piece board r.1 ∧ move_ok board depth r.2).
Proof.
  apply (minimax_invariant piece (λ fuel b _, size b < fuel)
           (leaf_score piece)); eauto with leaf; [lia|].
  intros ? b ? col q b' ? _ Hq Hp. specialize (size_play b col q b' Hq Hp). lia.
Qed.
End sized.

(** ** The search against the reference *)

Section correctness.
Context {B : Type} `{Position B}.
Implicit Types (board : B) (piece : pyval) (alpha beta : num) (depth : Z).

(** Whatever the window, a call with enough fuel returns: no exception,
    no exhausted fuel; the score is finite and the column is [None] at a
    leaf and a playable column elsewhere. *)
Lemma minimax_returns fuel board depth alpha beta mx piece :
  (0 ≤ depth)%Z → Z.to_nat depth < fuel →
  wp (minimax fuel board depth alpha beta mx piece)
     (λ r, is_fin r.1 ∧ move_ok board depth r.2).
Proof.
  intros Hd Hfuel.
  apply (minimax_invariant piece
           (λ fuel _ depth, (0 ≤ depth)%Z ∧ Z.to_nat depth < fuel)
           (λ _, is_fin)); try done; [lia | lia].
Qed.

(** The score is the static score of a position the search visited. *)
Lemma minimax_leaf_score fuel board depth alpha beta mx piece :
  (0 ≤ depth)%Z → Z.to_nat depth < fuel →
  wp (minimax fuel board depth alpha beta mx piece) (λ r, leaf_score piece board r.1).
Proof.
  intros Hd Hfuel. eapply wp_mono.
  - apply (minimax_invariant piece
             (λ fuel _ depth, (0 ≤ depth)%Z ∧ Z.to_nat depth < fuel)
             (leaf_score piece)); eauto with leaf; lia.
  - by intros r [? _].
Qed.

(** A call with enough fuel returns the same result from every state of
    the generator. *)
Lemma minimax_det fuel board depth alpha beta mx piece :
  (0 ≤ depth)%Z → Z.to_nat depth < fuel →
  det (minimax fuel board depth alpha beta mx piece).
Proof.
  revert board depth alpha beta mx.
  induction fuel as [|fuel IH]; intros board depth alpha beta mx Hd Hfuel;
    [lia|].
  destruct ((depth =? 0)%Z || is_terminal_node board) eqn:Hleaf.
  { rewrite minimax_leaf by done. apply det_ret. }
  apply orb_false_iff in Hleaf as [Hd0 Ht].
  pose proof (not_terminal_valid _ Ht) as Hvalid.
  assert (∀ mx' b' a be,
    wp (minimax fuel b' (depth - 1) a be mx' piece) (λ r, is_fin r.1)) as Hfin.
  { intros. eapply wp_mono; [apply minimax_returns; lia|]. by intros r [? _]. }
  cbn [minimax]. rewrite Hd0, Ht. cbn [orb]. apply Z.eqb_neq in Hd0.
  destruct mx; apply det_choice_loop; try done; intros.
  - apply max_loop_det; [intros; apply IH; lia | done].
  - by apply max_loop_forgets.
  - apply min_loop_det; [intros; apply IH; lia | done].
  - by apply min_loop_forgets.
Qed.

Lemma exhaustive_leaf n board mx piece :
  (n =? 0) || is_terminal_node board = true →
  exhaustive n board mx piece = Fin (static_score board piece).
Proof.
  destruct n; [done|]. simpl. intros Ht. unfold static_score. by rewrite Ht.
Qed.

(** With enough fuel for its depth and a proper window, [minimax] returns
    (it neither raises nor exhausts the fuel), and its score keeps the
    fail-soft promise about the exhaustive value of the node. *)
Lemma minimax_window fuel board depth alpha beta mx piece :
  (0 ≤ depth)%Z → Z.to_nat depth < fuel → (alpha < beta)%num →
  wp (minimax fuel board depth alpha beta mx piece)
     (λ r, fail_soft alpha beta (exhaustive (Z.to_nat depth) board mx piece) r.1).
Proof.
  revert board depth alpha beta mx.
  induction fuel as [|fuel IH]; intros board depth alpha beta mx Hd Hfuel Hab;
    [lia|].
  destruct ((depth =? 0)%Z || is_terminal_node board) eqn:Hleaf.
  { rewrite minimax_leaf by done. rewrite exhaustive_leaf.
    - apply wp_ret, fail_soft_exact.
    - destruct (Z.eqb_spec depth 0) as [->|]; [done|].
      simpl in Hleaf. rewrite Hleaf. apply orb_true_r. }
  apply orb_false_iff in Hleaf as [Hd0%Z.eqb_neq Ht].
  assert (Z.to_nat depth = S (Z.to_nat (depth - 1))) as Hn by lia.
  pose proof (not_terminal_valid _ Ht) as Hvalid.
  cbn [minimax]. rewrite (proj2 (Z.eqb_neq _ _) Hd0), Ht, Hn. cbn [orb exhaustive].
  rewrite Ht. destruct mx.
  - apply wp_bind, wp_random_choice; [done|]. intros best _.
    eapply wp_mono.
    { apply (max_loop_fail_soft _ (λ b', exhaustive (Z.to_nat (depth - 1)) b' false piece));
        [|done|num_lia|done].
      intros b' ? ? a be _ _ Habe. apply IH; [lia|lia|done]. }
    by intros r [_ Hr].
  - apply wp_bind, wp_random_choice; [done|]. intros best _.
    eapply wp_mono.
    { apply (min_loop_fail_soft _ (λ b', exhaustive (Z.to_nat (depth - 1)) b' true piece));
        [|done|num_lia|done].
      intros b' ? ? a be _ _ Habe. apply IH; [lia|lia|done]. }
    by intros r [_ Hr].
Qed.

(** C1 (equivalence). Alpha-beta equivalence: called with the full window
    (-inf, +inf), as [main] calls it, and with fuel for its depth, [minimax]
    returns from every generator state, and the score it returns is the
    value of exhaustive minimax to the same depth on the same position:
    pruning never changes the result. *)
Theorem minimax_exhaustive fuel board depth mx piece :
  (0 ≤ depth)%Z → Z.to_nat depth < fuel →
  wp (minimax fuel board depth NegInf PosInf mx piece)
     (λ r, r.1 = exhaustive (Z.to_nat depth) board mx piece).
Proof.
  intros Hd Hfuel. eapply wp_mono.
  - apply minimax_window; [done..|num_lia].
  - intros r. apply fail_soft_full.
Qed.

(** C2 (equivalence). At any node and for any window [alpha < beta], the
    score [minimax] returns is the exhaustive value [m] when [m] lies
    strictly inside the window, is at most [alpha] when [m] is, and at
    least [beta] when [m] is: what a caller that prunes relies on. *)
Theorem minimax_window_exact fuel board depth alpha beta mx piece :
  (0 ≤ depth)%Z → Z.to_nat depth < fuel → (alpha < beta)%num →
  wp (minimax fuel board depth alpha beta mx piece)
     (λ r, let m := exhaustive (Z.to_nat depth) board mx piece in
           ((alpha < m → m < beta → r.1 = m)
            ∧ (m ≤ alpha → r.1 ≤ alpha) ∧ (beta ≤ m → beta ≤ r.1))%num).
Proof.
  intros Hd Hfuel Hab. eapply wp_mono; [by apply minimax_window|].
  intros r. by apply fail_soft_inside.
Qed.

(** C5 (termination). For a depth that is not negative, [depth + 1] units
    of fuel are enough: from every generator state and for every window,
    [minimax] returns a result; it does not raise (no [ValueError] from
    [play], no [IndexError] from [random.choice]) and does not run out of
    fuel. *)
Theorem minimax_terminates fuel board depth alpha beta mx piece g :
  (0 ≤ depth)%Z → Z.to_nat depth < fuel →
  ∃ r, run (minimax fuel board depth alpha beta mx piece) g = Val r.
Proof.
  intros Hd Hfuel.
  destruct (wp_run _ _ g (minimax_returns fuel board depth alpha beta mx piece
    Hd Hfuel)) as (r & Hr & _). eauto.
Qed.

(** C6 (safety). The result of [minimax] has a finite score (never the
    initial -inf or +inf), and its column is [None] exactly at a leaf
    (depth 0 or terminal position) and otherwise a column that
    [get_valid_locations] lists, so that [main] can play it. *)
Theorem minimax_move_legal fuel board depth alpha beta mx piece g r :
  (0 ≤ depth)%Z → Z.to_nat depth < fuel →
  run (minimax fuel board depth alpha beta mx piece) g = Val r →
  is_fin r.1 ∧ move_ok board depth r.2.
Proof.
  intros Hd Hfuel Hrun.
  destruct (wp_run _ _ g (minimax_returns fuel board depth alpha beta mx piece
    Hd Hfuel)) as (r' & Hr & Hok). congruence.
Qed.

(** C7 (functional). The result of [minimax], score and column, does not
    depend on the random generator: the column drawn by [random.choice]
    before each loop is always overwritten by the loop's first
    iteration. *)
Theorem minimax_rng_independent fuel board depth alpha beta mx piece g1 g2 :
  (0 ≤ depth)%Z → Z.to_nat depth < fuel →
  run (minimax fuel board depth alpha beta mx piece) g1
  = run (minimax fuel board depth alpha beta mx piece) g2.
Proof. intros Hd Hfuel. by apply det_run, minimax_det. Qed.

(** The root of the search: the first column of largest value. *)
Lemma minimax_root fuel board depth piece :
  (0 < depth)%Z → Z.to_nat depth < fuel → is_terminal_node board = false →
  wp (minimax fuel board depth NegInf PosInf true piece)
     (λ r, ∃ c, r.2 = Some c
        ∧ first_max
            ((λ cb, (cb.1, exhaustive (Z.to_nat (depth - 1)) cb.2 false piece))
               <$> children board piece) c r.1).
Proof.
  intros Hd Hfuel Ht. destruct fuel as [|fuel]; [lia|].
  cbn [minimax]. rewrite Ht, (proj2 (Z.eqb_neq depth 0)) by lia. cbn [orb].
  apply wp_bind, wp_random_choice; [by apply not_terminal_valid|].
  intros best _. eapply wp_mono.
  { apply wp_and; [|apply max_loop_total with (rec := λ b a be,
      minimax fuel b (depth - 1) a be false piece) (Q := is_fin);
      [done| |done]].
    - apply (max_loop_first _
        (λ b', exhaustive (Z.to_nat (depth - 1)) b' false piece));
        [| |num_lia|done].
      + intros. apply minimax_window; [lia|lia|done].
      + intros. eapply wp_mono; [apply minimax_returns; lia|]. by intros ? [? _].
    - intros. eapply wp_mono; [apply minimax_returns; lia|]. by intros ? [? _]. }
  intros r [(c & Hc & Hscan) (c' & Hc' & _ & Hfin)]. exists c. split; [done|].
  apply scan_max_spec in Hscan as [(Hv & _)|[_ ?]]; [|done].
  destruct Hfin as [Hfin _]; [done|by apply not_terminal_valid|].
  rewrite Hv in Hfin. done.
Qed.

(** C3 (functional). The move the engine makes: at a root that is not a
    leaf, called with the full window as [main] calls it, [minimax]
    returns the first column, in ascending order, whose exhaustive value
    one ply down is the largest, together with that value.  Ties go to the
    lowest column; the column drawn at random is never the answer. *)
Theorem minimax_first_best fuel board depth piece :
  (0 < depth)%Z → Z.to_nat depth < fuel → is_terminal_node board = false →
  wp (minimax fuel board depth NegInf PosInf true piece)
     (λ r, ∃ c, r.2 = Some c
        ∧ first_max
            ((λ cb, (cb.1, exhaustive (Z.to_nat (depth - 1)) cb.2 false piece))
               <$> children board piece) c r.1).
Proof. apply minimax_root. Qed.

(** The fuel does not matter once there is enough of
    it: any two amounts above the depth give the same outcome, result and
    generator state.  The bound [depth + 1] of [choose] loses nothing. *)
Theorem minimax_fuel_irrelevant fuel fuel' board depth alpha beta mx piece g :
  (0 ≤ depth)%Z → Z.to_nat depth < fuel → Z.to_nat depth < fuel' →
  minimax fuel board depth alpha beta mx piece g
  = minimax fuel' board depth alpha beta mx piece g.
Proof.
  intros Hd Hf Hf'.
  destruct (minimax_returns (S (Z.to_nat depth)) board depth alpha beta mx
    piece Hd ltac:(lia) g) as (r & g' & Hr & _).
  pose proof (minimax_fuel_le (S (Z.to_nat depth)) fuel board depth alpha beta
    mx piece ltac:(lia) g) as H1.
  pose proof (minimax_fuel_le (S (Z.to_nat depth)) fuel' board depth alpha beta
    mx piece ltac:(lia) g) as H2.
  rewrite Hr in H1, H2. by rewrite (below_Val _ _ H1), (below_Val _ _ H2).
Qed.

(** Terminal scoring: at a terminal node ([is_winning]
    of ['0'] or ['1'], or no playable column) [minimax] returns the
    terminal score and no column, whatever the depth left, the window and
    the side to move. *)
Theorem minimax_terminal_node fuel board depth alpha beta mx piece :
  is_terminal_node board = true →
  minimax (S fuel) board depth alpha beta mx piece
  = ret (Fin (terminal_score board piece), None).
Proof. apply minimax_terminal_eq. Qed.

(** The terminal score is +1000000 when [str(piece)]
    has four in a row, else -1000000 when the piece [minimax] takes for
    the opponent has, else 0. *)
Theorem terminal_score_cases board piece :
  terminal_score board piece = 1000000%Z
    ∧ pos_is_winning board (PyStr (py_str piece)) = true
  ∨ terminal_score board piece = (-1000000)%Z
    ∧ pos_is_winning board (PyStr (py_str piece)) = false
    ∧ pos_is_winning board (opponent piece) = true
  ∨ terminal_score board piece = 0%Z
    ∧ pos_is_winning board (PyStr (py_str piece)) = false
    ∧ pos_is_winning board (opponent piece) = false.
Proof. unfold terminal_score. repeat case_bool; auto. Qed.

(** Horizon: at depth 0 on a position that is not
    terminal, [minimax] returns the heuristic evaluation for the root
    piece and no column. *)
Theorem minimax_horizon fuel board alpha beta mx piece :
  is_terminal_node board = false →
  minimax (S fuel) board 0 alpha beta mx piece
  = ret (Fin (pos_eval board piece), None).
Proof. intros Ht. simpl. by rewrite Ht. Qed.
End correctness.

(** ** The search without a horizon

    With a negative depth the test [depth == 0] never holds, and the
    search stops at terminal positions only.  For a measure of the
    position that every move of the search decreases and that is
    positive on every position that is not terminal, the score is then
    the value of exhaustive minimax to the end of the game: to a depth
    that is the measure of the position, or any larger one. *)

Section unbounded.
Context {B : Type} `{Position B} (piece : pyval) (size : B → nat).
Hypothesis size_play : ∀ b col q b',
  moved piece q → pos_play b col q = Ok b' → size b' < size b.
Hypothesis size_0 : ∀ b, size b = 0 → is_terminal_node b = true.

Lemma children_of_play (board : B) who cols col b' :
  (col, b') ∈ children_of board who cols → pos_play board col who = Ok b'.
Proof.
  unfold children_of. intros (c & _ & Hc)%list_elem_of_omap.
  destruct (pos_play board c who) eqn:Hp; by simplify_eq.
Qed.

(** The exhaustive values of the children, for two depths that both
    reach the end of the game below them. *)
Lemma children_exhaustive n m (board : B) who mx :
  moved piece who →
  (∀ b', size b' ≤ n → size b' ≤ m →
         exhaustive n b' mx piece = exhaustive m b' mx piece) →
  size board ≤ S n → size board ≤ S m →
  (λ cb, exhaustive n cb.2 mx piece) <$> children board who
  = (λ cb, exhaustive m cb.2 mx piece) <$> children board who.
Proof.
  intros Hq IH Hn Hm. apply Forall_fmap_ext, Forall_forall.
  intros [col b'] Hp%children_of_play. cbn [snd].
  specialize (size_play _ _ _ _ Hq Hp). apply IH; lia.
Qed.

(** Below the end of the game the depth of [exhaustive] does not
    matter. *)
Lemma exhaustive_saturates n m (board : B) mx :
  size board ≤ n → size board ≤ m →
  exhaustive n board mx piece = exhaustive m board mx piece.
Proof.
  revert m board mx.
  induction n as [|n IH]; intros [|m] board mx Hn Hm; [done|..];
    cbn [exhaustive]; unfold static_score;
    try (rewrite size_0 by lia; done).
  destruct (is_terminal_node board); [done|].
  destruct mx; apply (f_equal (foldr _ _)), children_exhaustive;
    try done; try (intros; by apply IH); [by left | by right].
Qed.

Lemma minimax_window_unbounded fuel board depth alpha beta mx :
  (depth < 0)%Z → size board < fuel → (alpha < beta)%num →
  wp (minimax fuel board depth alpha beta mx piece)
     (λ r, fail_soft alpha beta (exhaustive (size board) board mx piece) r.1).
Proof.
  revert board depth alpha beta mx.
  induction fuel as [|fuel IH]; intros board depth alpha beta mx Hd Hfuel Hab;
    [lia|].
  destruct (is_terminal_node board) eqn:Ht.
  { rewrite minimax_leaf, exhaustive_leaf by (rewrite Ht; apply orb_true_r).
    apply wp_ret, fail_soft_exact. }
  destruct (size board) as [|n] eqn:Hn; [by rewrite size_0 in Ht|].
  pose proof (not_terminal_valid _ Ht) as Hvalid.
  assert (∀ mx' b' col q a be, moved piece q → pos_play board col q = Ok b' →
    (a < be)%num →
    wp (minimax fuel b' (depth - 1) a be mx' piece)
       (λ r, fail_soft a be (exhaustive n b' mx' piece) r.1)) as Hrec.
  { intros mx' b' col q a be Hq Hp Habe.
    pose proof (size_play _ _ _ _ Hq Hp).
    rewrite (exhaustive_saturates n (size b')) by lia.
    apply IH; [lia|lia|done]. }
  cbn [minimax exhaustive]. rewrite (proj2 (Z.eqb_neq depth 0)), Ht by lia.
  cbn [orb].
  destruct mx; apply wp_bind, wp_random_choice; try done; intros best _.
  - eapply wp_mono.
    { apply (max_loop_fail_soft _ (λ b', exhaustive n b' false piece));
        [by apply Hrec|done|num_lia|done]. }
    by intros r [_ Hr].
  - eapply wp_mono.
    { apply (min_loop_fail_soft _ (λ b', exhaustive n b' true piece));
        [by apply Hrec|done|num_lia|done]. }
    by intros r [_ Hr].
Qed.

(** At a root that is not terminal the column is the first one whose
    child has the largest value. *)
Lemma minimax_root_unbounded fuel board depth n :
  (depth < 0)%Z → size board < fuel → size board ≤ n →
  is_terminal_node board = false →
  wp (minimax fuel board depth NegInf PosInf true piece)
     (λ r, ∃ c, r.2 = Some c
        ∧ first_max
            ((λ cb, (cb.1, exhaustive n cb.2 false piece))
               <$> children board piece) c r.1).
Proof.
  intros Hd Hfuel Hn Ht. destruct fuel as [|fuel]; [lia|].
  cbn [minimax]. rewrite Ht, (proj2 (Z.eqb_neq depth 0)) by lia. cbn [orb].
  apply wp_bind, wp_random_choice; [by apply not_terminal_valid|].
  assert (∀ b' col q a be, moved piece q → pos_play board col q = Ok b' →
    wp (minimax fuel b' (depth - 1) a be false piece) (λ r, is_fin r.1))
    as Hfin.
  { intros b' col q a be Hq Hp. pose proof (size_play _ _ _ _ Hq Hp).
    eapply wp_mono; [apply (minimax_sized piece size size_play); lia|].
    intros ? [?%leaf_score_fin _]. done. }
  intros best _. eapply wp_mono.
  { apply wp_and; [|apply max_loop_total with (rec := λ b a be,
      minimax fuel b (depth - 1) a be false piece) (Q := is_fin);
      [done|by apply Hfin|done]].
    apply (max_loop_first _ (λ b', exhaustive n b' false piece));
      [| |num_lia|done].
    - intros b' col q a be Hq Hp Hab. pose proof (size_play _ _ _ _ Hq Hp).
      rewrite (exhaustive_saturates n (size b')) by lia.
      apply minimax_window_unbounded; [lia|lia|done].
    - intros b' col a be Hp. eapply Hfin; [by left|done]. }
  intros r [(c & Hc & Hscan) (c' & Hc' & _ & Hfin')]. exists c. split; [done|].
  apply scan_max_spec in Hscan as [(Hv & _)|[_ ?]]; [|done].
  destruct Hfin' as [Hfin' _]; [done|by apply not_terminal_valid|].
  rewrite Hv in Hfin'. done.
Qed.

(** With the full window the score is the value of the game. *)
Lemma minimax_unbounded fuel board depth mx :
  (depth < 0)%Z → size board < fuel →
  wp (minimax fuel board depth NegInf PosInf mx piece)
     (λ r, r.1 = exhaustive (size board) board mx piece).
Proof.
  intros Hd Hfuel. eapply wp_mono.
  - apply minimax_window_unbounded; [done..|num_lia].
  - intros r. apply fail_soft_full.
Qed.
End unbounded.
