(* ===== verification/Engine.v ===== *)
(** * Engine: the search on the Connect-Four board

    [Board] with [is_winning], [get_valid_locations], [play] and
    [eval_board] is a [Position]; this file discharges the interface's law
    and states what the search of [src/main.py] does on that instance:
    the call [main] makes, the moves it chooses in concrete games, and
    the witnesses of the theorems of [Search]. *)

From S2P Require Import Prelude Python Board Win Eval Search.

Lemma play_valid_ok (b : Board) (col : Z) (piece : pyval) :
  col ∈ get_valid_locations b → is_ok (play b col piece) = true.
Proof.
  intros Hc%elem_of_get_valid_locations. by apply play_ok_iff.
Qed.

#[export] Instance board_position : Position Board := {|
  pos_is_winning := is_winning;
  pos_valid_locations := get_valid_locations;
  pos_play := play;
  pos_eval := eval_board;
  pos_play_valid := play_valid_ok;
|}.

(** [minimax(board, depth, -math.inf, math.inf, True, piece)], the call
    [main] makes with depth 5, given the fuel its depth needs. *)
Definition choose (b : Board) (depth : Z) (piece : pyval) : M result :=
  minimax (S (Z.to_nat depth)) b depth NegInf PosInf true piece.

(** A generator for running examples: every draw is 0. *)
Definition rng0 : rng := λ _, 0.

(** Another one: the draws count up. *)
Definition rng_up : rng := λ n, n.

(** A to move, with three pieces on the bottom row and column 3 open. *)
Definition before_win : Board := board_after (removelast horizontal_moves).

(** The scores of the leaves on a board of 6 rows: a win, a loss, or at
    most three points for each row. *)
Definition score_range (z : Z) : Prop :=
  z = WIN_SCORE ∨ z = (- WIN_SCORE)%Z ∨ (0 ≤ z ≤ 18)%Z.

(** * Properties *)

Section properties.
Implicit Types (b : Board) (piece : pyval) (depth : Z) (g : rng).

Lemma choose_det b depth piece : (0 ≤ depth)%Z → det (choose b depth piece).
Proof. intros Hd. apply minimax_det; [done | lia]. Qed.

Lemma is_terminal_node_board b :
  is_terminal_node b
  = is_winning b (PyStr "0") || is_winning b (PyStr "1")
    || (length (get_valid_locations b) =? 0).
Proof. done. Qed.

Lemma choose_returns b depth piece :
  (0 ≤ depth)%Z →
  wp (choose b depth piece) (λ r, is_fin r.1 ∧ move_ok b depth r.2).
Proof. intros Hd. apply minimax_returns; [done | lia]. Qed.

(** The search for two pieces that print alike and have the same
    opponent, on two boards with the same grid. *)
Lemma minimax_alike fuel b1 b2 depth alpha beta mx piece1 piece2 g :
  same_grid b1 b2 → py_str piece1 = py_str piece2 →
  opponent piece1 = opponent piece2 →
  minimax fuel b1 depth alpha beta mx piece1 g
  = minimax fuel b2 depth alpha beta mx piece2 g.
Proof.
  intros Hb Hstr Hopp. revert Hb.
  apply (minimax_sim same_grid piece1 piece2); simpl.
  - intros ?? q1 q2 Hb Hq. rewrite Hb.
    destruct Hq as [[-> ->]|[[-> ->]|[[-> ->]|[-> ->]]]]; congruence.
  - intros ?? Hb. by rewrite Hb.
  - intros ?? Hb. rewrite Hb. unfold eval_board. by rewrite Hstr, Hopp.
  - intros ?? col q1 q2 Hb [[-> ->]|[-> ->]]; apply play_same_grid_str;
      congruence.
Qed.

(** The search on two boards with the same grid. *)
Lemma minimax_same_grid fuel b1 b2 depth alpha beta mx piece g :
  same_grid b1 b2 →
  minimax fuel b1 depth alpha beta mx piece g
  = minimax fuel b2 depth alpha beta mx piece g.
Proof. intros. by apply minimax_alike. Qed.

(** A move of the search fills a cell. *)
Lemma moved_count_empty piece b col q b' :
  py_str piece ≠ " " → moved piece q → play b col q = Ok b' →
  count_empty b' < count_empty b.
Proof.
  intros Hp [->| ->] Hplay; apply play_count_empty in Hplay;
    (lia || done || apply opponent_not_space).
Qed.

(** Fuel above the number of empty cells is enough, whatever the depth. *)
Lemma minimax_any_depth fuel b depth alpha beta mx piece :
  py_str piece ≠ " " → count_empty b < fuel →
  wp (minimax fuel b depth alpha beta mx piece)
     (λ r, leaf_score piece b r.1 ∧ move_ok b depth r.2).
Proof.
  intros Hp. apply (minimax_sized piece count_empty).
  intros. by eapply moved_count_empty.
Qed.

(** A board without an empty cell is terminal. *)
Lemma full_terminal b : count_empty b = 0 → is_terminal_node b = true.
Proof.
  intros Hfull. unfold is_terminal_node. cbn [pos_valid_locations board_position].
  rewrite (proj2 (get_valid_locations_nil b)); [by rewrite orb_true_r|].
  intros col. destruct (can_play b col) eqn:Hc; [|done].
  apply can_play_spec in Hc as [_ Hcell%cell_space_count]. lia.
Qed.

(** Without a horizon the search computes the value of the game. *)
Lemma minimax_no_horizon fuel b depth mx piece n :
  py_str piece ≠ " " → (depth < 0)%Z → count_empty b < fuel →
  count_empty b ≤ n →
  wp (minimax fuel b depth NegInf PosInf mx piece)
     (λ r, r.1 = exhaustive n b mx piece).
Proof.
  intros Hp Hd Hfuel Hn.
  rewrite (exhaustive_saturates piece count_empty) with (m := count_empty b);
    [|intros; by eapply moved_count_empty|apply full_terminal|done..].
  apply (minimax_unbounded piece count_empty); [|apply full_terminal|done..].
  intros. by eapply moved_count_empty.
Qed.

Lemma minimax_root_no_horizon fuel b depth piece n :
  py_str piece ≠ " " → (depth < 0)%Z → count_empty b < fuel →
  count_empty b ≤ n → is_terminal_node b = false →
  wp (minimax fuel b depth NegInf PosInf true piece)
     (λ r, ∃ c, r.2 = Some c
        ∧ first_max
            ((λ cb, (cb.1, exhaustive n cb.2 false piece))
               <$> children b piece) c r.1).
Proof.
  intros Hp Hd Hfuel Hn Ht.
  apply (minimax_root_unbounded piece count_empty);
    [|apply full_terminal|done..].
  intros. by eapply moved_count_empty.
Qed.

Lemma before_win_shape : shape before_win.
Proof. split; [done | vm_compute; by repeat constructor]. Qed.

Lemma visited_shape piece b b' : shape b → visited piece b b' → shape b'.
Proof. intros Hs Hv. induction Hv; eauto using play_shape. Qed.

Lemma static_score_range b piece : shape b → score_range (static_score b piece).
Proof.
  intros Hs. unfold static_score, terminal_score, score_range.
  pose proof (eval_board_range b piece) as He.
  destruct Hs as [Hlen _]. rewrite Hlen in He. simpl.
  repeat case_bool; unfold WIN_SCORE, ROWS in *; auto; right; right; lia.
Qed.

Lemma leaf_score_range piece b v :
  shape b → leaf_score piece b v → ∃ z, v = Fin z ∧ score_range z.
Proof.
  intros Hs (b' & Hv & ->). eexists. split; [done|].
  eapply static_score_range, visited_shape; eauto.
Qed.

(** The exhaustive value of a position is a score of the same kind. *)
Lemma exhaustive_score_range n b mx piece :
  shape b → ∃ z, exhaustive n b mx piece = Fin z ∧ score_range z.
Proof.
  intros Hs.
  destruct (wp_run _ _ rng0 (wp_and _ _ _
    (minimax_window (S n) b (Z.of_nat n) NegInf PosInf mx piece
       ltac:(lia) ltac:(lia) ltac:(num_lia))
    (minimax_leaf_score (S n) b (Z.of_nat n) NegInf PosInf mx piece
       ltac:(lia) ltac:(lia)))) as (r & _ & Hfs%fail_soft_full & Hl).
  rewrite Nat2Z.id in Hfs. rewrite <-Hfs. by eapply leaf_score_range.
Qed.

(** The search reads the grid only: on two boards
    with the same grid, whatever their [history], [last_move] and
    [valid_locations], [minimax] returns the same result and leaves the
    generator in the same state. *)
Theorem search_ignores_history fuel b1 b2 depth alpha beta mx piece g :
  same_grid b1 b2 →
  minimax (H := board_position) fuel b1 depth alpha beta mx piece g
  = minimax (H := board_position) fuel b2 depth alpha beta mx piece g.
Proof. apply minimax_same_grid. Qed.

#[export] Instance choose_proper :
  Proper (same_grid ==> eq ==> eq ==> eq ==> eq) choose.
Proof. intros b1 b2 Hb ?? -> ?? -> ?? ->. by apply minimax_same_grid. Qed.

(** C26 (termination). The recursion of [minimax] ends without the
    depth: on a board of 6 rows of 7 cells, for a piece that does not
    print as a space and for every depth, negative ones included, 43
    units of fuel (one more than there are cells) are enough for the call
    to return, with the static score of a position it visited and a
    column that is [None] at a leaf and playable elsewhere. *)
Theorem minimax_terminates_any_depth fuel b depth alpha beta mx piece g :
  shape b → py_str piece ≠ " " → ROWS * COLS < fuel →
  ∃ z col, run (minimax (H := board_position) fuel b depth alpha beta mx piece) g
           = Val (Fin z, col)
           ∧ score_range z ∧ move_ok b depth col.
Proof.
  intros Hs Hp Hfuel. pose proof (count_empty_le b Hs).
  destruct (wp_run _ _ g (minimax_any_depth fuel b depth alpha beta mx piece
    Hp ltac:(lia))) as ([v col] & Hr & Hl & Hm).
  destruct (leaf_score_range _ _ _ Hs Hl) as (z & Hz & Hrange).
  simpl in Hz. subst v. by exists z, col.
Qed.

(** C33 (bounds). The score [minimax] returns on a board of 6 rows of 7
    cells is the static score of a position it visited: 1000000,
    -1000000, or a centre count between 0 and 18.  It is never infinite
    and never a number outside these. *)
Theorem minimax_score_range fuel b depth alpha beta mx piece g :
  shape b → (0 ≤ depth)%Z → Z.to_nat depth < fuel →
  ∃ z col, run (minimax (H := board_position) fuel b depth alpha beta mx piece) g
           = Val (Fin z, col)
           ∧ score_range z.
Proof.
  intros Hs Hd Hfuel.
  destruct (wp_run _ _ g (minimax_leaf_score fuel b depth alpha beta mx piece
    Hd Hfuel)) as ([v col] & Hr & Hl).
  destruct (leaf_score_range _ _ _ Hs Hl) as (z & Hz & Hrange).
  simpl in Hz. subst v. by exists z, col.
Qed.

(** The move [main] gets from the search can be played:
    on a board that is not terminal and for a positive depth, the call
    returns a column, from every generator state, and [play] of that
    column succeeds for any piece. *)
Theorem choose_playable b depth piece g :
  (0 < depth)%Z → is_terminal_node b = false →
  ∃ v col, run (choose b depth piece) g = Val (v, Some col)
           ∧ ∀ piece', is_ok (play b col piece') = true.
Proof.
  intros Hd Ht.
  destruct (wp_run _ _ g (minimax_returns (S (Z.to_nat depth)) b depth
    NegInf PosInf true piece ltac:(lia) ltac:(lia)))
    as ([v [col|]] & Hr & _ & Hm); simpl in Hm.
  - exists v, col. split; [done|]. intros piece'.
    by apply play_valid_ok, Hm.
  - destruct Hm; [lia | congruence].
Qed.

(** On a terminal board (somebody has four in a row, or the
    board is full) the search returns no column: the [None] that [main]
    then passes to [play]. *)
Theorem choose_terminal b depth piece g :
  is_terminal_node b = true →
  run (choose b depth piece) g = Val (Fin (terminal_score b piece), None).
Proof.
  intros Ht. unfold choose. by rewrite minimax_terminal_eq.
Qed.
End properties.

(** * Concrete games *)

(** With the piece given as the str ['0'], the engine
    takes the immediate win: with three of its pieces on the bottom row
    and column 3 open, it chooses column 3 with score 1000000 at depths
    1 to 5, the depth of [main] included, from every generator state. *)
Example choose_takes_win g :
  Forall (λ depth, run (choose before_win depth (PyStr "0")) g
                   = Val (Fin 1000000, Some 3%Z))
    [1; 2; 3; 4; 5]%Z.
Proof.
  repeat constructor;
    (rewrite (det_run _ g rng0) by (by apply choose_det)); by vm_compute.
Qed.


(** Witnesses *)

Lemma minimax_exhaustive_witness :
  wp (minimax 3 before_win 2 NegInf PosInf true (PyStr "0"))
     (λ r, r.1 = exhaustive (Z.to_nat 2) before_win true (PyStr "0")).
Proof. apply minimax_exhaustive; lia. Defined.

Lemma minimax_window_exact_witness :
  wp (minimax 3 init 2 (Fin 0) (Fin 5) true (PyStr "0"))
     (λ r, let m := exhaustive (Z.to_nat 2) init true (PyStr "0") in
           ((Fin 0 < m → m < Fin 5 → r.1 = m)
            ∧ (m ≤ Fin 0 → r.1 ≤ Fin 0) ∧ (Fin 5 ≤ m → Fin 5 ≤ r.1))%num).
Proof. apply minimax_window_exact; [lia | lia | by right]. Defined.

Lemma minimax_terminates_witness :
  ∃ r, run (minimax 3 init 2 (Fin 5) (Fin 0) false piece_A) rng0 = Val r.
Proof. apply minimax_terminates; lia. Defined.

Lemma minimax_move_legal_witness :
  is_fin (Fin 3) ∧ move_ok init 1 (Some 3%Z).
Proof.
  apply (minimax_move_legal 2 init 1 NegInf PosInf true (PyStr "0") rng0
           (Fin 3, Some 3%Z)); [lia | lia | by vm_compute].
Defined.

Lemma minimax_rng_independent_witness :
  run (minimax 3 init 2 NegInf PosInf true piece_A) rng0
  = run (minimax 3 init 2 NegInf PosInf true piece_A) rng_up.
Proof. apply minimax_rng_independent; lia. Defined.

Lemma minimax_terminal_node_witness :
  minimax 1 (board_after horizontal_moves) 5 NegInf PosInf true piece_A
  = ret (Fin (terminal_score (board_after horizontal_moves) piece_A), None).
Proof. apply minimax_terminal_node. by vm_compute. Defined.

Lemma minimax_horizon_witness :
  minimax 1 init 0 NegInf PosInf true piece_A
  = ret (Fin (eval_board init piece_A), None).
Proof.
  apply (@minimax_horizon Board board_position 0 init NegInf PosInf true
           piece_A).
  by vm_compute.
Defined.

Lemma choose_playable_witness :
  ∃ v col, run (choose init 2 piece_A) rng0 = Val (v, Some col)
           ∧ ∀ piece', is_ok (play init col piece') = true.
Proof. apply choose_playable; [lia | by vm_compute]. Defined.

Lemma choose_terminal_witness :
  run (choose (board_after horizontal_moves) 5 piece_B) rng0
  = Val (Fin (terminal_score (board_after horizontal_moves) piece_B), None).
Proof. apply choose_terminal. by vm_compute. Defined.

Lemma minimax_first_best_witness :
  wp (minimax 2 before_win 1 NegInf PosInf true (PyStr "0"))
     (λ r, ∃ c, r.2 = Some c
        ∧ first_max
            ((λ cb, (cb.1, exhaustive (Z.to_nat (1 - 1)) cb.2 false (PyStr "0")))
               <$> children before_win (PyStr "0")) c r.1).
Proof.
  apply (@minimax_first_best Board board_position 2 before_win 1 (PyStr "0"));
    [lia | lia | by vm_compute].
Defined.

Lemma minimax_fuel_irrelevant_witness :
  minimax 3 init 2 NegInf PosInf true piece_A rng0
  = minimax 7 init 2 NegInf PosInf true piece_A rng0.
Proof. apply minimax_fuel_irrelevant; lia. Defined.

Lemma search_ignores_history_witness :
  minimax 3 (board_after [(3, piece_A)]%Z) 2 NegInf PosInf true piece_B rng0
  = minimax 3 (board_after [(3, PyStr "0")]%Z) 2 NegInf PosInf true piece_B rng0.
Proof. apply search_ignores_history. by split. Defined.

Lemma minimax_terminates_any_depth_witness :
  ∃ z col, run (minimax 43 init (-1) NegInf PosInf true (PyStr "0")) rng0
           = Val (Fin z, col)
           ∧ score_range z ∧ move_ok init (-1) col.
Proof.
  apply minimax_terminates_any_depth; [apply init_shape | done | simpl; lia].
Defined.

Lemma minimax_score_range_witness :
  ∃ z col, run (minimax 6 before_win 5 NegInf PosInf true piece_A) rng0
           = Val (Fin z, col)
           ∧ score_range z.
Proof.
  apply minimax_score_range; [apply before_win_shape | lia | lia].
Defined.
