(* ===== verification/Store.v ===== *)
(** * Store: [Board] objects, [copy.deepcopy] and the in-place [play]

    In [src/main.py] a board is an object: [play] writes into a row list
    of the object it is called on, and [minimax] calls
    [copy.deepcopy(board)] before every move it tries.  The other files
    take a board for a value and [play] for a function to a new board.
    This file justifies that reading.  The store is a list of objects
    (rows, the list of rows, the history list, the list of valid
    locations and the [Board] instance that refers to them); a location
    is an index into it.  [play_obj] is [Board.play] with its three
    assignments as writes to the store, [deepcopy] the copy of the object
    graph with its memo, [minimax_obj] the search on locations.
    The theorems: [play_obj] on an object is [play] on the value it
    holds and writes to that object only; a copy holds the same value in
    fresh locations; the search on the store returns what the search on
    values returns and leaves every object it was given as it was. *)

From S2P Require Import Prelude Python Board Win Eval Search Engine.

(** ** The store *)

Abbreviation loc := nat.

Inductive obj : Type :=
  | Cells (cells : list string)
  | Refs (rows : list loc)
  | Pairs (entries : list (pyval * Z))
  | Ints (cols : list Z)
  | Instance (grid hist : loc) (last : option (nat * Z)) (valid : loc).

Abbreviation heap := (list obj).

Definition alloc (o : obj) : ST heap loc := λ h, Val (length h, h ++ [o]).

Definition load (l : loc) : ST heap obj :=
  λ h, match h !! l with
       | Some o => Val (o, h)
       | None => Exc TypeError
       end.

Definition store (l : loc) (o : obj) : ST heap unit :=
  λ h, Val ((), <[l := o]> h).

(** ** The value an object holds *)

Definition cells_of (h : heap) (r : loc) : option (list string) :=
  match h !! r with
  | Some (Cells cells) => Some cells
  | _ => None
  end.

Definition abs (h : heap) (b : loc) : option Board :=
  match h !! b with
  | Some (Instance g hl last vl) =>
      match h !! g, h !! hl, h !! vl with
      | Some (Refs rs), Some (Pairs hs), Some (Ints vs) =>
          grid ← mapM (cells_of h) rs;
          Some {| board := grid; history := hs; last_move := last;
                  valid_locations := vs |}
      | _, _, _ => None
      end
  | _ => None
  end.

(** The row objects of a board, and all the objects it is made of. *)
Definition rows_of (h : heap) (b : loc) : list loc :=
  match h !! b with
  | Some (Instance g _ _ _) =>
      match h !! g with
      | Some (Refs rs) => rs
      | _ => []
      end
  | _ => []
  end.

Definition footprint (h : heap) (b : loc) : list loc :=
  match h !! b with
  | Some (Instance g hl _ vl) => b :: g :: hl :: vl :: rows_of h b
  | _ => []
  end.

(** A method that only reads: a function of the value the object holds. *)
Definition read (b : loc) : ST heap Board :=
  λ h, match abs h b with
       | Some bd => Val (bd, h)
       | None => Exc TypeError
       end.

Definition method {A} (f : Board → A) (b : loc) : ST heap A :=
  (bd <- read b ;; ret (f bd))%py.

(** ** [Board.__init__] *)

Fixpoint alloc_rows (n : nat) : ST heap (list loc) :=
  match n with
  | 0 => ret []
  | S n' =>
      (r <- alloc (Cells (replicate COLS " ")) ;;
       rs <- alloc_rows n' ;;
       ret (r :: rs))%py
  end.

Definition new_board : ST heap loc :=
  (rs <- alloc_rows ROWS ;;
   g <- alloc (Refs rs) ;;
   hl <- alloc (Pairs []) ;;
   vl <- alloc (Ints []) ;;
   alloc (Instance g hl None vl))%py.

(** ** [Board.play], in place *)

(** [self.board] *)
Definition self_rows (b : loc) : ST heap (list loc) :=
  (o <- load b ;;
   match o with
   | Instance g _ _ _ =>
       o' <- load g ;;
       match o' with
       | Refs rs => ret rs
       | _ => raise TypeError
       end
   | _ => raise TypeError
   end)%py.

(** [self.board[row][col] = x] *)
Definition set_cell (b : loc) (row col : Z) (x : string) : ST heap unit :=
  (rs <- self_rows b ;;
   r <- lift (getitem rs row) ;;
   o <- load r ;;
   match o with
   | Cells cells =>
       cells' <- lift (setitem cells col x) ;;
       store r (Cells cells')
   | _ => raise TypeError
   end)%py.

(** [self.last_move = (row, col)] *)
Definition set_last_move (b : loc) (m : nat * Z) : ST heap unit :=
  (o <- load b ;;
   match o with
   | Instance g hl _ vl => store b (Instance g hl (Some m) vl)
   | _ => raise TypeError
   end)%py.

(** [self.history.append((piece, col))] *)
Definition append_history (b : loc) (e : pyval * Z) : ST heap unit :=
  (o <- load b ;;
   match o with
   | Instance _ hl _ _ =>
       oh <- load hl ;;
       match oh with
       | Pairs hs => store hl (Pairs (hs ++ [e]))
       | _ => raise TypeError
       end
   | _ => raise TypeError
   end)%py.

Definition play_obj (b : loc) (col : Z) (piece : pyval) : ST heap unit :=
  (ok <- method (λ bd, can_play bd col) b ;;
   if negb ok then raise (ValueError "Column is full or out of bounds")
   else
     row <- method (λ bd, get_next_open_row bd (Z.to_nat col)) b ;;
     match row with
     | None => raise TypeError
     | Some row =>
         _ <- set_cell b (Z.of_nat row) col (py_str piece) ;;
         _ <- set_last_move b (row, col) ;;
         append_history b (piece, col)
     end)%py.

(** ** [copy.deepcopy] *)

(** The memo of [deepcopy]: the objects copied so far, with their
    copies. *)
Fixpoint assoc (memo : list (loc * loc)) (l : loc) : option loc :=
  match memo with
  | [] => None
  | (k, v) :: memo' => if decide (k = l) then Some v else assoc memo' l
  end.

Fixpoint copy_rows (memo : list (loc * loc)) (rs : list loc)
    : ST heap (list loc) :=
  match rs with
  | [] => ret []
  | r :: rest =>
      match assoc memo r with
      | Some r' => (rs' <- copy_rows memo rest ;; ret (r' :: rs'))%py
      | None =>
          (o <- load r ;;
           match o with
           | Cells cells =>
               r' <- alloc (Cells cells) ;;
               rs' <- copy_rows ((r, r') :: memo) rest ;;
               ret (r' :: rs')
           | _ => raise TypeError
           end)%py
      end
  end.

Definition deepcopy (b : loc) : ST heap loc :=
  (o <- load b ;;
   match o with
   | Instance g hl last vl =>
       og <- load g ;;
       oh <- load hl ;;
       ov <- load vl ;;
       match og, oh, ov with
       | Refs rs, Pairs hs, Ints vs =>
           rs' <- copy_rows [] rs ;;
           g' <- alloc (Refs rs') ;;
           hl' <- alloc (Pairs hs) ;;
           vl' <- alloc (Ints vs) ;;
           alloc (Instance g' hl' last vl')
       | _, _, _ => raise TypeError
       end
   | _ => raise TypeError
   end)%py.

(** [copy.copy]: a new instance that refers to the same lists.  The
    source does not use it; it shows what [deepcopy] is for. *)
Definition shallow_copy (b : loc) : ST heap loc := (o <- load b ;; alloc o)%py.

(** ** The search on the store *)

(** The state of the search: the store and the random generator. *)
Definition on_heap {A} (m : ST heap A) : ST (heap * rng) A :=
  λ s, match m s.1 with
       | Val (a, h') => Val (a, (h', s.2))
       | Exc e => Exc e
       | OutOfFuel => OutOfFuel
       end.

Definition on_rng {A} (m : M A) : ST (heap * rng) A :=
  λ s, match m s.2 with
       | Val (a, g') => Val (a, (s.1, g'))
       | Exc e => Exc e
       | OutOfFuel => OutOfFuel
       end.

(** [temp_board = copy.deepcopy(board)] and [temp_board.play(col, piece)] *)
Definition branch (board : loc) (col : Z) (piece : pyval)
    : ST (heap * rng) loc :=
  (temp_board <- on_heap (deepcopy board) ;;
   _ <- on_heap (play_obj temp_board col piece) ;;
   ret temp_board)%py.

Fixpoint max_loop_obj (rec : loc → num → num → ST (heap * rng) result)
    (board : loc) (piece : pyval) (cols : list Z) (value : num)
    (best_col : Z) (alpha beta : num) : ST (heap * rng) result :=
  match cols with
  | [] => ret (value, Some best_col)
  | col :: rest =>
      (temp_board <- branch board col piece ;;
       r <- rec temp_board alpha beta ;;
       let new_score := r.1 in
       let value' := if decide (value < new_score)%num then new_score else value in
       let best_col' := if decide (value < new_score)%num then col else best_col in
       let alpha' := num_max alpha value' in
       if decide (beta ≤ alpha')%num then ret (value', Some best_col')
       else max_loop_obj rec board piece rest value' best_col' alpha' beta)%py
  end.

Fixpoint min_loop_obj (rec : loc → num → num → ST (heap * rng) result)
    (board : loc) (piece : pyval) (cols : list Z) (value : num)
    (best_col : Z) (alpha beta : num) : ST (heap * rng) result :=
  match cols with
  | [] => ret (value, Some best_col)
  | col :: rest =>
      (temp_board <- branch board col (opponent piece) ;;
       r <- rec temp_board alpha beta ;;
       let new_score := r.1 in
       let value' := if decide (new_score < value)%num then new_score else value in
       let best_col' := if decide (new_score < value)%num then col else best_col in
       let beta' := num_min beta value' in
       if decide (beta' ≤ alpha)%num then ret (value', Some best_col')
       else min_loop_obj rec board piece rest value' best_col' alpha beta')%py
  end.

Fixpoint minimax_obj (fuel : nat) (board : loc) (depth : Z)
    (alpha beta : num) (maximizing_player : bool) (piece : pyval)
    : ST (heap * rng) result :=
  match fuel with
  | 0 => out_of_fuel
  | S fuel' =>
      (terminal <- on_heap (method is_terminal_node board) ;;
       if (depth =? 0)%Z || terminal then
         if terminal : bool then
           score <- on_heap (method (λ bd, terminal_score bd piece) board) ;;
           ret (Fin score, None)
         else
           score <- on_heap (method (λ bd, eval_board bd piece) board) ;;
           ret (Fin score, None)
       else if maximizing_player then
         valid <- on_heap (method get_valid_locations board) ;;
         best_col <- on_rng (random_choice valid) ;;
         valid <- on_heap (method get_valid_locations board) ;;
         max_loop_obj (λ b a be, minimax_obj fuel' b (depth - 1) a be false piece)
           board piece valid NegInf best_col alpha beta
       else
         valid <- on_heap (method get_valid_locations board) ;;
         best_col <- on_rng (random_choice valid) ;;
         valid <- on_heap (method get_valid_locations board) ;;
         min_loop_obj (λ b a be, minimax_obj fuel' b (depth - 1) a be true piece)
           board piece valid PosInf best_col alpha beta)%py
  end.

(** ** Specification vocabulary *)

(** The object at [b] holds the value [bd]; its parts are at [g], [hl],
    [vl] and [rs]. *)
Record repr (h : heap) (b : loc) (bd : Board) (g hl vl : loc)
    (rs : list loc) : Prop := Repr {
  repr_obj : h !! b = Some (Instance g hl (last_move bd) vl);
  repr_grid : h !! g = Some (Refs rs);
  repr_hist : h !! hl = Some (Pairs (history bd));
  repr_valid : h !! vl = Some (Ints (valid_locations bd));
  repr_rows : Forall2 (λ r cells, h !! r = Some (Cells cells)) rs (board bd);
}.

(** [b] holds [bd] and no two rows of it are the same object. *)
Definition holds (h : heap) (b : loc) (bd : Board) : Prop :=
  abs h b = Some bd ∧ NoDup (rows_of h b).

(** The store after [Board()] in the empty store, and the board in it. *)
Definition store0 : heap :=
  match new_board [] with
  | Val (_, h) => h
  | _ => []
  end.

Definition board0 : loc :=
  match new_board [] with
  | Val (b, _) => b
  | _ => 0
  end.

(** The search on the store [m'], started in the store [h], does what the
    search on values [m] does: the same result and generator, or the same
    exception, or both out of fuel; the store only grows, and [R] relates
    the results in the final store. *)
Definition sim {A' A : Type} (R : heap → A' → A → Prop) (h : heap)
    (m' : ST (heap * rng) A') (m : M A) : Prop :=
  ∀ g, match m g with
       | Val (a, g') =>
           ∃ a' h', m' (h, g) = Val (a', (h', g')) ∧ h `prefix_of` h'
                    ∧ R h' a' a
       | Exc e => m' (h, g) = Exc e
       | OutOfFuel => m' (h, g) = OutOfFuel
       end.

(** * Lemmas *)

Section store.
Implicit Types (h : heap) (b g hl vl r l : loc) (bd : Board) (o : obj).

Lemma lookup_snoc_eq h o : (h ++ [o]) !! length h = Some o.
Proof. by apply list_lookup_middle. Qed.

Lemma lookup_snoc_lt h o l x : h !! l = Some x → (h ++ [o]) !! l = Some x.
Proof. apply lookup_app_l_Some. Qed.

Lemma cells_of_Some h r cells :
  cells_of h r = Some cells ↔ h !! r = Some (Cells cells).
Proof.
  unfold cells_of. destruct (h !! r) as [[]|]; naive_solver.
Qed.

Lemma abs_repr h b bd :
  abs h b = Some bd → ∃ g hl vl rs, repr h b bd g hl vl rs.
Proof.
  unfold abs.
  destruct (h !! b) as [[| | | |g hl last vl]|] eqn:Hb; try done.
  destruct (h !! g) as [[|rs| | |]|] eqn:Hg; try done.
  destruct (h !! hl) as [[| |hs| |]|] eqn:Hh; try done.
  destruct (h !! vl) as [[| | |vs|]|] eqn:Hv; try done.
  destruct (mapM _ rs) as [grid|] eqn:Hrows; simpl; [|done].
  intros [= <-]. exists g, hl, vl, rs. split; try done. simpl.
  apply mapM_Some in Hrows. eapply Forall2_impl; [done|].
  intros ??. apply cells_of_Some.
Qed.

Lemma repr_abs h b bd g hl vl rs : repr h b bd g hl vl rs → abs h b = Some bd.
Proof.
  intros [Hb Hg Hh Hv Hrows]. unfold abs. rewrite Hb, Hg, Hh, Hv.
  rewrite (proj2 (mapM_Some (cells_of h) rs (board bd))); [by destruct bd|].
  eapply Forall2_impl; [exact Hrows|]. intros ??. apply cells_of_Some.
Qed.

Lemma repr_rows_of h b bd g hl vl rs :
  repr h b bd g hl vl rs → rows_of h b = rs.
Proof. intros [Hb Hg _ _ _]. unfold rows_of. by rewrite Hb, Hg. Qed.

Lemma repr_holds h b bd g hl vl rs :
  repr h b bd g hl vl rs → NoDup rs → holds h b bd.
Proof.
  intros Hr Hnd. split; [by eapply repr_abs|].
  by rewrite (repr_rows_of _ _ _ _ _ _ _ Hr).
Qed.

Lemma holds_repr h b bd :
  holds h b bd → ∃ g hl vl rs, repr h b bd g hl vl rs ∧ NoDup rs.
Proof.
  intros [(g & hl & vl & rs & Hr)%abs_repr Hnd].
  rewrite (repr_rows_of _ _ _ _ _ _ _ Hr) in Hnd. eauto 6.
Qed.

(** Objects that exist stay what they are when the store grows. *)
Lemma repr_prefix h h' b bd g hl vl rs :
  repr h b bd g hl vl rs → h `prefix_of` h' → repr h' b bd g hl vl rs.
Proof.
  intros [Hb Hg Hh Hv Hrows] Hp.
  split; try (by apply (prefix_lookup_Some h h')).
  eapply Forall2_impl; [exact Hrows|]. intros ?? ?.
  by apply (prefix_lookup_Some h h').
Qed.

Lemma holds_prefix h h' b bd : holds h b bd → h `prefix_of` h' → holds h' b bd.
Proof.
  intros (g & hl & vl & rs & Hr & Hnd)%holds_repr Hp.
  eapply repr_holds; [by eapply repr_prefix | done].
Qed.

Lemma read_holds h b bd : holds h b bd → read b h = Val (bd, h).
Proof. intros [Ha _]. unfold read. by rewrite Ha. Qed.

Lemma method_holds {A} (f : Board → A) h b bd :
  holds h b bd → method f b h = Val (f bd, h).
Proof. intros Hb. unfold method, bind. by rewrite (read_holds _ _ _ Hb). Qed.
End store.

(** ** Writes *)

Section writes.
Implicit Types (h : heap) (b g hl vl r l : loc) (bd : Board) (o : obj).

(** A store of an object that is not a row leaves the rows as they are. *)
Lemma rows_insert_other h l o rs grid :
  (∀ cells, h !! l ≠ Some (Cells cells)) →
  Forall2 (λ r cells, h !! r = Some (Cells cells)) rs grid →
  Forall2 (λ r cells, <[l := o]> h !! r = Some (Cells cells)) rs grid.
Proof.
  intros Hl Hrows. eapply Forall2_impl; [exact Hrows|].
  intros r cells Hr. cbv beta in *.
  rewrite list_lookup_insert_ne; [done|]. intros ->. by eapply Hl.
Qed.

(** A store into a row changes that row of the grid and no other, when
    no two rows are the same object. *)
Lemma rows_insert_row h rs grid i r cells' :
  NoDup rs → rs !! i = Some r →
  Forall2 (λ r cells, h !! r = Some (Cells cells)) rs grid →
  Forall2 (λ r' cells, <[r := Cells cells']> h !! r' = Some (Cells cells))
    rs (<[i := cells']> grid).
Proof.
  intros Hnd Hi Hrows. pose proof (Forall2_length _ _ _ Hrows) as Hlen.
  apply Forall2_same_length_lookup. split; [by rewrite length_insert|].
  intros j x y Hx Hy. destruct (decide (i = j)) as [<-|Hne].
  - destruct (Forall2_lookup_l _ _ _ _ _ Hrows Hi) as (cells & Hc & Hr).
    rewrite list_lookup_insert_eq in Hy by by eapply lookup_lt_Some.
    simplify_eq. apply list_lookup_insert_eq. by eapply lookup_lt_Some.
  - rewrite list_lookup_insert_ne in Hy by done.
    rewrite list_lookup_insert_ne.
    + exact (Forall2_lookup_lr _ _ _ _ _ _ Hrows Hx Hy).
    + intros ->. apply Hne. by eapply NoDup_lookup.
Qed.

Lemma set_cell_eq h b bd g hl vl rs row c r cells x :
  repr h b bd g hl vl rs → rs !! row = Some r →
  h !! r = Some (Cells cells) → c < length cells →
  set_cell b (Z.of_nat row) (Z.of_nat c) x h
  = Val ((), <[r := Cells (<[c := x]> cells)]> h).
Proof.
  intros [Hb Hg _ _ _] Hr Hc Hlt. unfold set_cell, self_rows, bind, load.
  rewrite Hb, Hg. cbn [ret]. rewrite (getitem_nonneg _ _ _ Hr). cbn [lift ret].
  rewrite Hc, setitem_nonneg by done. done.
Qed.

Lemma set_last_move_eq h b g hl last vl m :
  h !! b = Some (Instance g hl last vl) →
  set_last_move b m h = Val ((), <[b := Instance g hl (Some m) vl]> h).
Proof. intros Hb. unfold set_last_move, bind, load. by rewrite Hb. Qed.

Lemma append_history_eq h b g hl last vl hs e :
  h !! b = Some (Instance g hl last vl) → h !! hl = Some (Pairs hs) →
  append_history b e h = Val ((), <[hl := Pairs (hs ++ [e])]> h).
Proof.
  intros Hb Hh. unfold append_history, bind, load. by rewrite Hb, Hh.
Qed.
End writes.

(** ** [play_obj] and [play] *)

(** Reads through the writes of a proof: a location other than the one
    written, or the one written. *)
Ltac heap_lookup :=
  repeat (rewrite list_lookup_insert_ne by congruence);
  try (rewrite list_lookup_insert_eq
         by (rewrite ?length_insert; eauto using lookup_lt_Some));
  try done; try congruence.

Section play_obj.
Implicit Types (h : heap) (b g hl vl r l : loc) (bd : Board) (o : obj).

Lemma repr_footprint h b bd g hl vl rs :
  repr h b bd g hl vl rs → footprint h b = b :: g :: hl :: vl :: rs.
Proof.
  intros Hr. unfold footprint. rewrite (repr_rows_of _ _ _ _ _ _ _ Hr).
  by destruct Hr as [-> _ _ _ _].
Qed.

(** An object is what its footprint holds. *)
Lemma repr_agree h h' b bd g hl vl rs :
  repr h b bd g hl vl rs →
  (∀ l, l ∈ b :: g :: hl :: vl :: rs → h' !! l = h !! l) →
  repr h' b bd g hl vl rs.
Proof.
  intros [Hb Hg Hh Hv Hrows] Hag.
  split; try (rewrite Hag by (rewrite !elem_of_cons; auto 6); done).
  apply Forall2_same_length_lookup. split; [by eapply Forall2_length|].
  intros i r cells Hi Hc. rewrite Hag.
  - exact (Forall2_lookup_lr _ _ _ _ _ _ Hrows Hi Hc).
  - do 4 right. by eapply list_elem_of_lookup_2.
Qed.

Lemma holds_agree h h' b bd :
  holds h b bd → (∀ l, l ∈ footprint h b → h' !! l = h !! l) → holds h' b bd.
Proof.
  intros (g & hl & vl & rs & Hr & Hnd)%holds_repr Hag.
  rewrite (repr_footprint _ _ _ _ _ _ _ Hr) in Hag.
  eapply repr_holds; [by eapply repr_agree | done].
Qed.

(** The three writes of [play]. *)
Lemma place_obj h b bd g hl vl rs row col piece r cells :
  repr h b bd g hl vl rs → NoDup rs →
  rs !! row = Some r → board bd !! row = Some cells →
  let h' := <[hl := Pairs (history bd ++ [(piece, col)])]>
              (<[b := Instance g hl (Some (row, col)) vl]>
                 (<[r := Cells (<[Z.to_nat col := py_str piece]> cells)]> h)) in
  repr h' b (place bd row col piece) g hl vl rs.
Proof.
  intros [Hb Hg Hh Hv Hrows] Hnd Hr Hcells h'. subst h'.
  pose proof (Forall2_lookup_lr _ _ _ _ _ _ Hrows Hr Hcells) as Hrc.
  cbv beta in Hrc. split; cbn [place board history last_move valid_locations];
    try by heap_lookup.
  unfold grid_set. rewrite (alter_insert _ _ _ _ Hcells).
  apply rows_insert_other; [intros ?; by heap_lookup|].
  apply rows_insert_other; [intros ?; by heap_lookup|].
  by apply rows_insert_row.
Qed.

Lemma play_obj_spec h b bd col piece :
  holds h b bd →
  match play bd col piece with
  | Ok bd' =>
      ∃ h', play_obj b col piece h = Val ((), h') ∧ holds h' b bd'
            ∧ length h' = length h
            ∧ (∀ l, l ∉ footprint h b → h' !! l = h !! l)
            ∧ footprint h' b = footprint h b
  | Raise e => play_obj b col piece h = Exc e
  end.
Proof.
  intros Hhb. destruct (holds_repr _ _ _ Hhb) as (g & hl & vl & rs & Hr & Hnd).
  unfold play_obj, bind. rewrite (method_holds _ _ _ _ Hhb). unfold play.
  destruct (can_play bd col) eqn:Hcan; [|done]. cbn [negb].
  rewrite (method_holds _ _ _ _ Hhb).
  destruct (get_next_open_row bd (Z.to_nat col)) as [row|] eqn:Hrow; [|done].
  apply can_play_spec in Hcan as [Hcol _].
  apply get_next_open_row_Some in Hrow as (_ & Hcell & _).
  destruct (cell_space_inv _ _ _ Hcell) as (cells & Hcells & Hlt).
  pose proof Hr as [Hb Hg Hh Hv Hrows].
  destruct (Forall2_lookup_r _ _ _ _ _ Hrows Hcells) as (r & Hrow & Hrc).
  cbv beta in Hrc.
  pose proof (set_cell_eq _ _ _ _ _ _ _ _ _ _ _ (py_str piece)
                Hr Hrow Hrc Hlt) as Hset.
  rewrite Z2Nat.id in Hset by lia. rewrite Hset.
  erewrite set_last_move_eq by by heap_lookup.
  erewrite append_history_eq by by heap_lookup.
  pose proof (place_obj _ _ _ _ _ _ _ row col piece _ _ Hr Hnd Hrow Hcells)
    as Hr'. cbv zeta in Hr'.
  eexists. split; [done|]. split_and!.
  - by eapply repr_holds.
  - by rewrite !length_insert.
  - intros l. rewrite (repr_footprint _ _ _ _ _ _ _ Hr), !not_elem_of_cons.
    intros (? & ? & ? & ? & Hl).
    assert (l ≠ r) by (intros ->; apply Hl; by eapply list_elem_of_lookup_2).
    by rewrite !list_lookup_insert_ne.
  - by rewrite (repr_footprint _ _ _ _ _ _ _ Hr),
      (repr_footprint _ _ _ _ _ _ _ Hr').
Qed.
End play_obj.

(** ** Allocation: [Board()] and [copy.deepcopy] *)

Section copies.
Implicit Types (h : heap) (b g hl vl r l : loc) (bd : Board) (o : obj).

Lemma alloc_rows_spec n h :
  alloc_rows n h
  = Val (seq (length h) n, h ++ (Cells <$> replicate n (replicate COLS " "))).
Proof.
  revert h. induction n as [|n IH]; intros h.
  { simpl. by rewrite app_nil_r. }
  cbn [alloc_rows]. unfold bind, alloc at 1. rewrite IH. unfold ret.
  rewrite length_app, <-app_assoc. simpl. by rewrite Nat.add_1_r.
Qed.

Lemma copy_rows_spec rs grid h memo :
  Forall2 (λ r cells, h !! r = Some (Cells cells)) rs grid → NoDup rs →
  Forall (λ r, assoc memo r = None) rs →
  copy_rows memo rs h = Val (seq (length h) (length rs), h ++ (Cells <$> grid)).
Proof.
  revert grid h memo.
  induction rs as [|r rs IH]; intros grid h memo Hrows Hnd Hmemo.
  { apply Forall2_nil_inv_l in Hrows as ->. simpl. by rewrite app_nil_r. }
  apply Forall2_cons_inv_l in Hrows as (cells & grid' & Hr & Hrows & ->).
  apply NoDup_cons in Hnd as [Hnotin Hnd].
  apply Forall_cons in Hmemo as [Hm Hmemo].
  cbn [copy_rows]. rewrite Hm. unfold bind, load, alloc at 1. rewrite Hr.
  rewrite (IH grid').
  - unfold ret. rewrite length_app, <-app_assoc. simpl.
    by rewrite Nat.add_1_r.
  - eapply Forall2_impl; [exact Hrows|]. intros ???. by apply lookup_snoc_lt.
  - done.
  - apply Forall_forall. intros r' Hr'. simpl.
    rewrite decide_False by (by intros ->).
    by eapply (proj1 (Forall_forall _ _) Hmemo).
Qed.

(** Rows stored one after the other at the end of the store. *)
Lemma rows_appended h grid :
  Forall2 (λ r cells, (h ++ (Cells <$> grid)) !! r = Some (Cells cells))
    (seq (length h) (length grid)) grid.
Proof.
  apply Forall2_same_length_lookup. split; [by rewrite length_seq|].
  intros i r cells [-> Hlt]%lookup_seq Hc.
  rewrite lookup_app_r by lia.
  replace (length h + i - length h) with i by lia.
  by rewrite list_lookup_fmap, Hc.
Qed.

(** A fresh instance with fresh lists holds the value stored in them. *)
Lemma allocated h grid hs last vs :
  let h1 := h ++ (Cells <$> grid) in
  let h2 := h1 ++ [Refs (seq (length h) (length grid))] in
  let h3 := h2 ++ [Pairs hs] in
  let h4 := h3 ++ [Ints vs] in
  let h' := h4 ++ [Instance (length h1) (length h2) last (length h3)] in
  h `prefix_of` h'
  ∧ holds h' (length h4)
      {| board := grid; history := hs; last_move := last;
         valid_locations := vs |}
  ∧ Forall (λ l, length h ≤ l) (footprint h' (length h4)).
Proof.
  intros h1 h2 h3 h4 h'.
  assert (repr h' (length h4)
            {| board := grid; history := hs; last_move := last;
               valid_locations := vs |}
            (length h1) (length h2) (length h3)
            (seq (length h) (length grid))) as Hr.
  { split; cbn [board history last_move valid_locations];
      try (subst h1 h2 h3 h4 h'; by eauto 6 using lookup_snoc_eq, lookup_snoc_lt).
    eapply Forall2_impl; [apply rows_appended|]. intros r cells Hr.
    cbv beta in *. subst h1 h2 h3 h4 h'. eauto 6 using lookup_snoc_lt. }
  split_and!.
  - subst h1 h2 h3 h4 h'. by repeat apply prefix_app_r.
  - eapply repr_holds; [done | apply NoDup_seq].
  - rewrite (repr_footprint _ _ _ _ _ _ _ Hr). subst h1 h2 h3 h4 h'.
    repeat (apply Forall_cons; split; [rewrite !length_app; lia|]).
    apply Forall_forall. intros l [? _]%elem_of_seq. done.
Qed.

Lemma new_board_spec h :
  ∃ b h', new_board h = Val (b, h') ∧ h `prefix_of` h' ∧ holds h' b init
          ∧ Forall (λ l, length h ≤ l) (footprint h' b).
Proof.
  unfold new_board, bind. rewrite alloc_rows_spec. unfold alloc.
  eexists _, _. split; [done|].
  pose proof (allocated h (replicate ROWS (replicate COLS " ")) [] None [])
    as Hal.
  by rewrite length_replicate in Hal.
Qed.

Lemma deepcopy_spec h b bd :
  holds h b bd →
  ∃ b' h', deepcopy b h = Val (b', h') ∧ h `prefix_of` h' ∧ holds h' b' bd
           ∧ Forall (λ l, length h ≤ l) (footprint h' b').
Proof.
  intros (g & hl & vl & rs & [Hb Hg Hh Hv Hrows] & Hnd)%holds_repr.
  unfold deepcopy, bind, load. rewrite Hb, Hg, Hh, Hv.
  rewrite (copy_rows_spec rs (board bd)) by (done || by apply Forall_forall).
  unfold alloc. eexists _, _. split; [done|].
  pose proof (allocated h (board bd) (history bd) (last_move bd)
                (valid_locations bd)) as Hal.
  rewrite <-(Forall2_length _ _ _ Hrows) in Hal. by destruct bd.
Qed.
End copies.

(** ** The search on the store against the search on values *)

Section simulation.
Implicit Types (h : heap) (b : loc) (bd : Board).

Lemma sim_ret {A' A} (R : heap → A' → A → Prop) h a' a :
  R h a' a → sim R h (ret a') (ret a).
Proof. intros HR g. by exists a', h. Qed.

Lemma sim_out_of_fuel {A' A} (R : heap → A' → A → Prop) h :
  sim R h out_of_fuel out_of_fuel.
Proof. by intros g. Qed.

Lemma sim_bind {A' A B' B} (R : heap → A' → A → Prop)
    (S : heap → B' → B → Prop) h m' m k' k :
  sim R h m' m →
  (∀ h' a' a, h `prefix_of` h' → R h' a' a → sim S h' (k' a') (k a)) →
  sim S h (bind m' k') (bind m k).
Proof.
  intros Hm Hk g. unfold bind. specialize (Hm g).
  destruct (m g) as [[a g1]| |]; [|by rewrite Hm..].
  destruct Hm as (a' & h1 & -> & Hp & HR).
  specialize (Hk h1 a' a Hp HR g1).
  destruct (k a g1) as [[c g2]| |]; [|done..].
  destruct Hk as (c' & h2 & -> & Hp2 & HS).
  exists c', h2. split_and!; [done | by etrans | done].
Qed.

(** A method that only reads is a step of the store side alone. *)
Lemma sim_read {A' A C} (R : heap → A' → A → Prop) (f : Board → C)
    h b bd (k' : C → ST (heap * rng) A') (m : M A) :
  holds h b bd → sim R h (k' (f bd)) m →
  sim R h (bind (on_heap (method f b)) k') m.
Proof.
  intros Hb Hk g. unfold bind, on_heap. cbn [fst snd].
  rewrite (method_holds _ _ _ _ Hb). apply Hk.
Qed.

Lemma sim_on_rng {A} (m : M A) h : sim (λ _ x y, x = y) h (on_rng m) m.
Proof.
  intros g. unfold on_rng. cbn [fst snd].
  destruct (m g) as [[a g']| |]; [|done..]. by exists a, h.
Qed.

(** The copy and the move on it: the child holds the position after the
    move, and no object that existed has changed. *)
Lemma sim_branch h b bd col piece :
  holds h b bd →
  sim (λ h' t bd', holds h' t bd') h
    (branch b col piece) (lift (play bd col piece)).
Proof.
  intros Hb g.
  destruct (deepcopy_spec _ _ _ Hb) as (t & h1 & Hcopy & Hp & Ht & Hfresh).
  pose proof (play_obj_spec h1 t bd col piece Ht) as Hplay.
  unfold branch, bind, on_heap. cbn [fst snd]. rewrite Hcopy. cbn [fst snd].
  destruct (play bd col piece) as [bd'|e]; cbn [lift ret raise].
  - destruct Hplay as (h2 & -> & Ht' & Hlen & Hframe & _).
    exists t, h2. split_and!; [done| |done].
    eapply prefix_agree; [exact Hp | lia |]. intros i Hi. apply Hframe.
    intros Hin. apply (proj1 (Forall_forall _ _) Hfresh) in Hin. lia.
  - by rewrite Hplay.
Qed.

Section loops.
Context (rec' : loc → num → num → ST (heap * rng) result).
Context (rec : Board → num → num → M result).
Hypothesis sim_rec : ∀ h b bd alpha beta,
  holds h b bd → sim (λ _ r' r, r' = r) h (rec' b alpha beta) (rec bd alpha beta).

Lemma max_loop_obj_sim h b bd piece cols value best alpha beta :
  holds h b bd →
  sim (λ _ r' r, r' = r) h
    (max_loop_obj rec' b piece cols value best alpha beta)
    (max_loop rec bd piece cols value best alpha beta).
Proof.
  revert h value best alpha.
  induction cols as [|col rest IH]; intros h value best alpha Hb.
  { by apply sim_ret. }
  cbn [max_loop_obj max_loop].
  eapply sim_bind; [by apply sim_branch|]. intros h1 t bd' Hp1 Ht.
  eapply sim_bind; [by apply sim_rec|]. intros h2 r' r Hp2 ->.
  case_decide; [by apply sim_ret|].
  apply IH. eapply holds_prefix; [done | by etrans].
Qed.

Lemma min_loop_obj_sim h b bd piece cols value best alpha beta :
  holds h b bd →
  sim (λ _ r' r, r' = r) h
    (min_loop_obj rec' b piece cols value best alpha beta)
    (min_loop rec bd piece cols value best alpha beta).
Proof.
  revert h value best beta.
  induction cols as [|col rest IH]; intros h value best beta Hb.
  { by apply sim_ret. }
  cbn [min_loop_obj min_loop].
  eapply sim_bind; [by apply sim_branch|]. intros h1 t bd' Hp1 Ht.
  eapply sim_bind; [by apply sim_rec|]. intros h2 r' r Hp2 ->.
  case_decide; [by apply sim_ret|].
  apply IH. eapply holds_prefix; [done | by etrans].
Qed.
End loops.

Lemma minimax_obj_sim fuel h b bd depth alpha beta mx piece :
  holds h b bd →
  sim (λ _ r' r, r' = r) h
    (minimax_obj fuel b depth alpha beta mx piece)
    (minimax fuel bd depth alpha beta mx piece).
Proof.
  revert h b bd depth alpha beta mx.
  induction fuel as [|fuel IH]; intros h b bd depth alpha beta mx Hb.
  { apply sim_out_of_fuel. }
  cbn [minimax_obj minimax]. apply (sim_read _ _ _ _ bd); [done|].
  destruct ((depth =? 0)%Z || is_terminal_node bd) eqn:Hleaf.
  { destruct (is_terminal_node bd);
      (apply (sim_read _ _ _ _ bd); [done|]); by apply sim_ret. }
  destruct mx; (apply (sim_read _ _ _ _ bd); [done|]);
    (eapply sim_bind; [apply sim_on_rng|]); intros h1 ? best Hp ->;
    (apply (sim_read _ _ _ _ bd); [by eapply holds_prefix|]);
    [apply max_loop_obj_sim | apply min_loop_obj_sim];
    try (by eapply holds_prefix); intros; by apply IH.
Qed.
End simulation.

(** ** Footprints *)

Section footprints.
Implicit Types (h : heap) (b : loc) (bd : Board).

Lemma footprint_lt h b bd :
  holds h b bd → Forall (λ l, l < length h) (footprint h b).
Proof.
  intros (g & hl & vl & rs & Hr & _)%holds_repr.
  rewrite (repr_footprint _ _ _ _ _ _ _ Hr).
  destruct Hr as [Hb Hg Hh Hv Hrows].
  repeat (apply Forall_cons; split; [by eapply lookup_lt_Some|]).
  apply Forall_forall. intros r [i Hi]%list_elem_of_lookup_1.
  destruct (Forall2_lookup_l _ _ _ _ _ Hrows Hi) as (? & _ & ?).
  by eapply lookup_lt_Some.
Qed.

Lemma footprint_prefix h h' b bd :
  holds h b bd → h `prefix_of` h' → footprint h' b = footprint h b.
Proof.
  intros (g & hl & vl & rs & Hr & _)%holds_repr Hp.
  rewrite (repr_footprint _ _ _ _ _ _ _ Hr).
  by eapply repr_footprint, repr_prefix.
Qed.

(** Objects made of fresh locations share nothing with an object that
    existed. *)
Lemma fresh_disjoint h h' b bd b' :
  holds h b bd → h `prefix_of` h' →
  Forall (λ l, length h ≤ l) (footprint h' b') →
  Forall (λ l, l ∉ footprint h' b) (footprint h' b').
Proof.
  intros Hb Hp Hfresh. rewrite (footprint_prefix _ _ _ _ Hb Hp).
  eapply Forall_impl; [exact Hfresh|]. intros l Hl Hin.
  apply (proj1 (Forall_forall _ _) (footprint_lt _ _ _ Hb)) in Hin.
  cbv beta in *. lia.
Qed.

(** A write to one object leaves an object that shares nothing with it
    as it was. *)
Lemma holds_frame h h' b b2 bd2 :
  holds h b2 bd2 →
  Forall (λ l, l ∉ footprint h b) (footprint h b2) →
  (∀ l, l ∉ footprint h b → h' !! l = h !! l) →
  holds h' b2 bd2.
Proof.
  intros Hb2 Hdisj Hframe. eapply holds_agree; [done|].
  intros l Hl. apply Hframe. by apply (proj1 (Forall_forall _ _) Hdisj).
Qed.

Lemma store0_holds : holds store0 board0 init.
Proof. split; [done|]. apply (bool_decide_unpack _). by vm_compute. Qed.
End footprints.

(** * Properties *)

Section properties.
Implicit Types (h : heap) (b : loc) (bd : Board).

(** C19 (refinement). The in-place [play] implements the function
    [play]: when the object at [b] holds the value [bd], [play_obj]
    raises what [play bd col piece] raises, and otherwise returns with
    the object holding the new value; it allocates nothing, and every
    object that shares no list with [b] holds what it held. *)
Theorem play_obj_refines h b bd col piece :
  holds h b bd →
  match play bd col piece with
  | Ok bd' =>
      ∃ h', play_obj b col piece h = Val ((), h') ∧ holds h' b bd'
            ∧ length h' = length h
            ∧ ∀ b2 bd2, holds h b2 bd2 →
                Forall (λ l, l ∉ footprint h b) (footprint h b2) →
                holds h' b2 bd2
  | Raise e => play_obj b col piece h = Exc e
  end.
Proof.
  intros Hb. pose proof (play_obj_spec h b bd col piece Hb) as Hplay.
  destruct (play bd col piece); [|done].
  destruct Hplay as (h' & Hrun & Hb' & Hlen & Hframe & _).
  exists h'. split_and!; try done. intros. by eapply holds_frame.
Qed.

(** C20 (safety). [copy.deepcopy] of a board returns an object in fresh
    locations that holds the same value; the original holds what it
    held, no object that existed has changed, and the copy shares no
    list with the original. *)
Theorem deepcopy_independent h b bd :
  holds h b bd →
  ∃ b' h', deepcopy b h = Val (b', h') ∧ h `prefix_of` h'
           ∧ holds h' b' bd ∧ holds h' b bd
           ∧ Forall (λ l, l ∉ footprint h' b) (footprint h' b').
Proof.
  intros Hb. destruct (deepcopy_spec _ _ _ Hb) as (b' & h' & ? & ? & ? & ?).
  exists b', h'. split_and!; try done;
    [by eapply holds_prefix | by eapply fresh_disjoint].
Qed.

(** C18 (safety). A branch of the search owns its board: after
    [temp_board = copy.deepcopy(board)] and [temp_board.play(col,
    piece)] the new object holds the position after the move, the board
    of the caller holds the position it held, and every object that
    existed is unchanged; if the move is illegal the exception of [play]
    is raised. *)
Theorem branch_isolated h b bd col piece g :
  holds h b bd →
  match play bd col piece with
  | Ok bd' =>
      ∃ t h', branch b col piece (h, g) = Val (t, (h', g))
              ∧ holds h' t bd' ∧ holds h' b bd ∧ h `prefix_of` h'
  | Raise e => branch b col piece (h, g) = Exc e
  end.
Proof.
  intros Hb. pose proof (sim_branch h b bd col piece Hb g) as Hsim.
  destruct (play bd col piece); [|done].
  destruct Hsim as (t & h' & ? & ? & ?). exists t, h'.
  split_and!; try done. by eapply holds_prefix.
Qed.

(** C16 (refinement). The search on objects is the search on values:
    from a store where [board] holds [bd], [minimax] with the copies and
    the in-place moves of the source returns the result and leaves the
    generator as the function [minimax] on [bd] does (or raises the same
    exception, or runs out of the same fuel); no object that existed has
    changed, and [board] still holds [bd]. *)
Theorem minimax_obj_refines fuel h board bd depth alpha beta mx piece g :
  holds h board bd →
  match minimax fuel bd depth alpha beta mx piece g with
  | Val (r, g') =>
      ∃ h', minimax_obj fuel board depth alpha beta mx piece (h, g)
            = Val (r, (h', g'))
            ∧ h `prefix_of` h' ∧ holds h' board bd
  | Exc e => minimax_obj fuel board depth alpha beta mx piece (h, g) = Exc e
  | OutOfFuel =>
      minimax_obj fuel board depth alpha beta mx piece (h, g) = OutOfFuel
  end.
Proof.
  intros Hb.
  pose proof (minimax_obj_sim fuel h board bd depth alpha beta mx piece Hb g)
    as Hsim.
  destruct (minimax fuel bd depth alpha beta mx piece g) as [[r g']| |];
    [|done..].
  destruct Hsim as (? & h' & ? & ? & <-). exists h'.
  split_and!; try done. by eapply holds_prefix.
Qed.

(** [Board()] allocates six distinct rows of seven
    spaces, an empty history and an instance that holds the empty board;
    no object that existed has changed. *)
Theorem new_board_init h :
  ∃ b h', new_board h = Val (b, h') ∧ h `prefix_of` h' ∧ holds h' b init
          ∧ Forall (λ l, length h ≤ l) (footprint h' b).
Proof. apply new_board_spec. Qed.

(** What [deepcopy] is for: after [copy.copy], which shares the lists, a
    move on the copy writes into the rows of the original, whose grid
    changes while its history does not; after [deepcopy] the original
    still holds the empty board. *)
Example shallow_copy_aliases :
  (∃ t h1 h2, shallow_copy board0 store0 = Val (t, h1)
     ∧ play_obj t 3 (PyInt 0) h1 = Val ((), h2)
     ∧ (cell <$> abs h2 board0) = Some (cell (place init 5 3 (PyInt 0)))
     ∧ (history <$> abs h2 board0)
       = Some [(PyInt 0, 3%Z)])
  ∧ (∃ t h1 h2, deepcopy board0 store0 = Val (t, h1)
       ∧ play_obj t 3 (PyInt 0) h1 = Val ((), h2)
       ∧ abs h2 board0 = Some init).
Proof. split; eexists _, _, _; by vm_compute. Qed.
End properties.

(** Witnesses *)

Lemma play_obj_refines_witness :
  match play init 3 (PyInt 0) with
  | Ok bd' =>
      ∃ h', play_obj board0 3 (PyInt 0) store0 = Val ((), h')
            ∧ holds h' board0 bd'
            ∧ length h' = length store0
            ∧ ∀ b2 bd2, holds store0 b2 bd2 →
                Forall (λ l, l ∉ footprint store0 board0) (footprint store0 b2) →
                holds h' b2 bd2
  | Raise e => play_obj board0 3 (PyInt 0) store0 = Exc e
  end.
Proof. apply play_obj_refines, store0_holds. Defined.

Lemma deepcopy_independent_witness :
  ∃ b' h', deepcopy board0 store0 = Val (b', h') ∧ store0 `prefix_of` h'
           ∧ holds h' b' init ∧ holds h' board0 init
           ∧ Forall (λ l, l ∉ footprint h' board0) (footprint h' b').
Proof. apply deepcopy_independent, store0_holds. Defined.

Lemma branch_isolated_witness :
  match play init 3 (PyInt 0) with
  | Ok bd' =>
      ∃ t h', branch board0 3 (PyInt 0) (store0, rng0) = Val (t, (h', rng0))
              ∧ holds h' t bd' ∧ holds h' board0 init
              ∧ store0 `prefix_of` h'
  | Raise e => branch board0 3 (PyInt 0) (store0, rng0) = Exc e
  end.
Proof. apply branch_isolated, store0_holds. Defined.

Lemma minimax_obj_refines_witness :
  match minimax 3 init 2 NegInf PosInf true (PyInt 0) rng0 with
  | Val (r, g') =>
      ∃ h', minimax_obj 3 board0 2 NegInf PosInf true (PyInt 0) (store0, rng0)
            = Val (r, (h', g'))
            ∧ store0 `prefix_of` h' ∧ holds h' board0 init
  | Exc e =>
      minimax_obj 3 board0 2 NegInf PosInf true (PyInt 0) (store0, rng0) = Exc e
  | OutOfFuel =>
      minimax_obj 3 board0 2 NegInf PosInf true (PyInt 0) (store0, rng0)
      = OutOfFuel
  end.
Proof. apply minimax_obj_refines, store0_holds. Defined.
