(* ===== verification/Spec.v ===== *)
(** * Spec: the game of the specification, and the code as its refinement

    The specification describes the game without Python's values: two
    pieces, each the other's complement; a state of seven columns filled
    from the bottom; a win as four pieces in a line; a heuristic; and the
    value of a position as depth-bounded minimax.  This file states that
    model ([GameState], [drop_piece], [wins], [evaluate], [value]) and proves
    that [Board] with its methods, and [minimax] on it, implement it when
    the piece is given as the str of a player ([refines]).

    Columns are stacks, so gravity holds by construction in the model;
    in the code it is an invariant. *)

From S2P Require Import Prelude Python Board Win Eval Search Engine.

(** ** The game *)

Inductive Piece : Type := PlayerA | PlayerB.

#[export] Instance Piece_eq_dec : EqDecision Piece.
Proof. solve_decision. Defined.

Definition other (p : Piece) : Piece :=
  match p with PlayerA => PlayerB | PlayerB => PlayerA end.

(** The columns from left to right, each from its bottom piece up. *)
Abbreviation GameState := (list (list Piece)).

Definition empty : GameState := replicate COLS [].

Definition column (s : GameState) (c : nat) : list Piece := default [] (s !! c).

(** The cell at row [r] from the top and column [c]. *)
Definition at_cell (s : GameState) (r c : nat) : option Piece :=
  if decide (r < ROWS) then column s c !! (ROWS - 1 - r) else None.

Definition canPlay (s : GameState) (col : Z) : bool :=
  bool_decide (0 ≤ col < Z.of_nat COLS)%Z
  && bool_decide (length (column s (Z.to_nat col)) < ROWS).

(** Dropping a piece: [None] stands for [IllegalMoveError]. *)
Definition drop_piece (s : GameState) (col : Z) (p : Piece) : option GameState :=
  if canPlay s col then Some (alter (λ l, l ++ [p]) (Z.to_nat col) s)
  else None.

Definition legalColumns (s : GameState) : list Z :=
  filter (λ col, canPlay s col = true) (seqZ 0 (Z.of_nat COLS)).

Definition directions : list direction := [East; South; SouthEast; NorthEast].

(** The [i]-th cell of the line from ([r], [c]) in direction [d] is in
    the grid and holds [p]. *)
Definition on_line (s : GameState) (p : Piece) (d : direction) (r c i : Z)
    : Prop :=
  let r' := (r + i * (delta d).1)%Z in
  let c' := (c + i * (delta d).2)%Z in
  (0 ≤ r' < Z.of_nat ROWS)%Z ∧ (0 ≤ c' < Z.of_nat COLS)%Z
  ∧ at_cell s (Z.to_nat r') (Z.to_nat c') = Some p.

(** Four pieces of [p] in a line, over the finitely many lines. *)
Definition wins (s : GameState) (p : Piece) : Prop :=
  Exists (λ d,
    Exists (λ r,
      Exists (λ c, Forall (on_line s p d r c) (seqZ 0 4))
        (seqZ 0 (Z.of_nat COLS)))
      (seqZ 0 (Z.of_nat ROWS)))
    directions.

#[export] Instance on_line_dec s p d r c i : Decision (on_line s p d r c i).
Proof. unfold on_line. apply _. Defined.

#[export] Instance wins_dec s p : Decision (wins s p).
Proof. unfold wins. apply _. Defined.

Definition terminal (s : GameState) : bool :=
  bool_decide (wins s PlayerA) || bool_decide (wins s PlayerB)
  || bool_decide (legalColumns s = []).

(** The score of a terminal state for the player [root]. *)
Definition outcome_score (s : GameState) (root : Piece) : Z :=
  if decide (wins s root) then 1000000
  else if decide (wins s (other root)) then -1000000
  else 0.

(** The heuristic: three points for each piece of [p] in the centre
    column, unless somebody has won. *)
Definition evaluate (s : GameState) (p : Piece) : Z :=
  if decide (wins s p) then 1000000
  else if decide (wins s (other p)) then -1000000
  else 3 * Z.of_nat (length (filter (λ q, q = p) (column s (COLS `div` 2)))).

(** The states one move of [p] away, by ascending column. *)
Definition successors (s : GameState) (p : Piece) : list (Z * GameState) :=
  omap (λ col, (λ s', (col, s')) <$> drop_piece s col p) (legalColumns s).

(** The value of a state for [root], [n] plies deep: minimax without a
    window. *)
Fixpoint value (n : nat) (s : GameState) (maximizing : bool) (root : Piece)
    : num :=
  match n with
  | 0 => Fin (if terminal s then outcome_score s root else evaluate s root)
  | S n' =>
      if terminal s then Fin (outcome_score s root)
      else if maximizing then
        foldr num_max NegInf
          ((λ cs, value n' cs.2 false root) <$> successors s root)
      else
        foldr num_min PosInf
          ((λ cs, value n' cs.2 true root) <$> successors s (other root))
  end.

(** ** The code as a refinement *)

(** How the grid shows a cell. *)
Definition render (x : option Piece) : string :=
  match x with
  | None => " "
  | Some PlayerA => "0"
  | Some PlayerB => "1"
  end.

(** The piece as the search wants it: the str of the player. *)
Definition mark (p : Piece) : pyval := PyStr (render (Some p)).

(** The board [b] shows the state [s]. *)
Record refines (b : Board) (s : GameState) : Prop := Refines {
  refines_shape : shape b;
  refines_cols : length s = COLS;
  refines_rows : Forall (λ l, length l ≤ ROWS) s;
  refines_cell : ∀ r c, r < ROWS → c < COLS → cell b r c = render (at_cell s r c);
}.

(** A sequence of drops; [None] when one of them is illegal. *)
Fixpoint drop_all (s : GameState) (moves : list (Z * Piece))
    : option GameState :=
  match moves with
  | [] => Some s
  | (col, p) :: rest =>
      match drop_piece s col p with
      | Some s' => drop_all s' rest
      | None => None
      end
  end.

(** The same moves for [play]. *)
Definition marked (moves : list (Z * Piece)) : list (Z * pyval) :=
  (λ m, (m.1, mark m.2)) <$> moves.

(** A result of the code against an optional state of the model. *)
Definition shows (r : res Board) (o : option GameState) : Prop :=
  match r, o with
  | Ok b, Some s => refines b s
  | Raise _, None => True
  | _, _ => False
  end.

(** ** A concrete state *)

(** Three pieces of each player in columns 0 to 2, the first to move:
    the state that [Engine.before_win] shows. *)
Definition before_win_moves : list (Z * Piece) :=
  [(0, PlayerA); (0, PlayerB); (1, PlayerA); (1, PlayerB);
   (2, PlayerA); (2, PlayerB)]%Z.

Definition before_win_state : GameState :=
  default empty (drop_all empty before_win_moves).

(** The state after the first player has dropped the fourth piece. *)
Definition won_state : GameState :=
  default empty (drop_piece before_win_state 3 PlayerA).

(** * Lemmas *)

Section model.
Implicit Types (s : GameState) (p q : Piece) (r c : nat) (col : Z).

Lemma render_inj x y : render x = render y → x = y.
Proof. by destruct x as [[]|], y as [[]|]. Qed.

Lemma render_empty x : render x = " " ↔ x = None.
Proof. by destruct x as [[]|]. Qed.

Lemma mark_str p : PyStr (py_str (mark p)) = mark p.
Proof. done. Qed.

Lemma opponent_mark p : opponent (mark p) = mark (other p).
Proof. by destruct p. Qed.

Lemma at_cell_None s r c :
  r < ROWS → at_cell s r c = None ↔ length (column s c) ≤ ROWS - 1 - r.
Proof.
  intros Hr. unfold at_cell. rewrite decide_True by done.
  apply lookup_ge_None.
Qed.

Lemma column_alter s c c' (f : list Piece → list Piece) :
  c < length s →
  column (alter f c s) c' = if decide (c = c') then f (column s c) else column s c'.
Proof.
  intros Hc. unfold column. case_decide as Heq.
  - subst c'. rewrite list_lookup_alter_eq.
    by destruct (lookup_lt_is_Some_2 s c Hc) as [l ->].
  - by rewrite list_lookup_alter_ne.
Qed.

Lemma canPlay_spec s col :
  canPlay s col = true ↔
  (0 ≤ col < Z.of_nat COLS)%Z ∧ length (column s (Z.to_nat col)) < ROWS.
Proof.
  unfold canPlay. by rewrite andb_true_iff, !bool_decide_eq_true.
Qed.

Lemma drop_Some s col p s' :
  drop_piece s col p = Some s' ↔
  canPlay s col = true ∧ s' = alter (λ l, l ++ [p]) (Z.to_nat col) s.
Proof.
  unfold drop_piece. destruct (canPlay s col).
  - split; [by intros [= <-] | by intros [_ ->]].
  - split; [done | by intros [? _]].
Qed.

(** The cells of the state after a piece was dropped. *)
Lemma at_cell_drop s col p r c :
  length s = COLS → canPlay s col = true → r < ROWS →
  at_cell (alter (λ l, l ++ [p]) (Z.to_nat col) s) r c
  = if decide (ROWS - 1 - length (column s (Z.to_nat col)) = r ∧ Z.to_nat col = c)
    then Some p else at_cell s r c.
Proof.
  intros Hs [Hcol Hlen]%canPlay_spec Hr. unfold at_cell.
  destruct (decide (r < ROWS)); [|done]. rewrite column_alter by lia.
  destruct (decide (Z.to_nat col = c)) as [<-|Hc].
  - case_decide as Hrow.
    + destruct Hrow as [<- _].
      replace (ROWS - 1 - (ROWS - 1 - _)) with (length (column s (Z.to_nat col)))
        by lia.
      by rewrite lookup_app_r, Nat.sub_diag by done.
    + destruct (decide (ROWS - 1 - r < length (column s (Z.to_nat col)))).
      * rewrite lookup_app_l by done. done.
      * assert (ROWS - 1 - length (column s (Z.to_nat col)) ≠ r) by tauto.
        rewrite (lookup_ge_None_2 (_ ++ _))
          by (rewrite length_app; unfold ROWS in *; simpl; lia).
        by rewrite lookup_ge_None_2 by lia.
  - by rewrite decide_False by tauto.
Qed.
End model.

(** ** The board's methods against the model *)

Section refinement.
Implicit Types (b : Board) (s : GameState) (p : Piece) (col : Z) (piece : pyval).

Lemma refines_init : refines init empty.
Proof.
  split; [apply init_shape | done | apply Forall_replicate; simpl; lia |].
  intros r c Hr Hc. rewrite init_cell by done. unfold at_cell, column, empty.
  rewrite decide_True, lookup_replicate_2 by done. done.
Qed.

Lemma refines_column_length b s c :
  refines b s → length (column s c) ≤ ROWS.
Proof.
  intros [_ _ Hl _]. unfold column. destruct (s !! c) as [l|] eqn:Hc; simpl.
  - by eapply (Forall_lookup_1 _ _ _ _ Hl).
  - lia.
Qed.

Lemma refines_can_play b s col : refines b s → can_play b col = canPlay s col.
Proof.
  intros Hb. apply eq_true_iff_eq. rewrite can_play_spec, canPlay_spec.
  assert ((0 ≤ col < Z.of_nat COLS)%Z →
    cell b 0 (Z.to_nat col) = " " ↔ length (column s (Z.to_nat col)) < ROWS)
    as Hcell.
  { intros Hcol.
    rewrite (refines_cell _ _ Hb) by (unfold ROWS, COLS in *; lia).
    rewrite render_empty, at_cell_None by (unfold ROWS; lia).
    unfold ROWS. lia. }
  split; intros [Hcol H]; (split; [done|]); by apply Hcell.
Qed.

Lemma refines_valid_locations b s :
  refines b s → get_valid_locations b = legalColumns s.
Proof.
  intros Hb. rewrite get_valid_locations_filter. apply list_filter_iff.
  intros col. by rewrite (refines_can_play _ _ _ Hb).
Qed.

(** The row [play] finds is the top of the column's stack. *)
Lemma refines_next_open_row b s col row :
  refines b s → (0 ≤ col < Z.of_nat COLS)%Z →
  get_next_open_row b (Z.to_nat col) = Some row →
  row = ROWS - 1 - length (column s (Z.to_nat col)).
Proof.
  intros Hb Hcol (Hrow & He & Hlow)%get_next_open_row_Some.
  rewrite (refines_cell _ _ Hb), render_empty, at_cell_None in He
    by (done || unfold COLS in *; lia).
  destruct (decide (row = ROWS - 1 - length (column s (Z.to_nat col))))
    as [|Hne]; [done|].
  destruct (Hlow (S row)); [lia|].
  rewrite (refines_cell _ _ Hb), render_empty, at_cell_None
    by (unfold COLS in *; lia). lia.
Qed.

(** [play] implements [drop_piece]: both fail, or both succeed and the new
    board shows the new state. *)
Lemma refines_play b s col piece p :
  refines b s → py_str piece = render (Some p) →
  shows (play b col piece) (drop_piece s col p).
Proof.
  intros Hb Hp. unfold shows, play, drop_piece. rewrite (refines_can_play _ _ _ Hb).
  destruct (canPlay s col) eqn:Hcan; [simpl|done].
  pose proof Hcan as [Hcol Hlen]%canPlay_spec.
  destruct (get_next_open_row b (Z.to_nat col)) as [row|] eqn:Hrow.
  2:{ rewrite <-(refines_can_play _ _ _ Hb) in Hcan.
      apply can_play_spec in Hcan as [_ Htop].
      apply get_next_open_row_top in Htop as [? ?]. congruence. }
  pose proof (refines_next_open_row _ _ _ _ Hb Hcol Hrow) as Hrow_eq.
  apply get_next_open_row_Some in Hrow as (Hr & He & _).
  destruct Hb as [Hshape Hs Hl Hc]. split.
  - by apply place_shape.
  - by rewrite length_alter.
  - apply Forall_alter; [done|]. intros l Hl'. rewrite length_app. simpl.
    unfold column in Hlen. rewrite Hl' in Hlen. simpl in Hlen. lia.
  - intros r c Hr' Hc'. rewrite at_cell_drop by done. rewrite <-Hrow_eq.
    case_decide as Heq.
    + destruct Heq as [<- <-]. by rewrite place_cell_eq.
    + rewrite place_cell_ne; [by apply Hc|]. intros [= <- <-]. tauto.
Qed.
End refinement.

(** ** Wins, scores and the heuristic *)

Section scores.
Implicit Types (b : Board) (s : GameState) (p : Piece).

Lemma wins_iff s p :
  wins s p ↔ ∃ d r c, ∀ i, (0 ≤ i < 4)%Z → on_line s p d r c i.
Proof.
  unfold wins. repeat setoid_rewrite Exists_exists.
  setoid_rewrite Forall_forall. repeat setoid_rewrite elem_of_seqZ. split.
  - intros (d & _ & r & _ & c & _ & Hw). exists d, r, c. intros i Hi.
    apply Hw. lia.
  - intros (d & r & c & Hw). destruct (Hw 0%Z) as (Hr & Hc & _); [lia|].
    rewrite Z.mul_0_l, Z.add_0_r in Hr, Hc. exists d. split; [destruct d; repeat constructor|].
    exists r. split; [lia|]. exists c. split; [lia|].
    intros i Hi. apply Hw. lia.
Qed.

Lemma refines_has_four b s p : refines b s → has_four b (mark p) ↔ wins s p.
Proof.
  intros Hb. rewrite wins_iff.
  split; intros (d & r & c & Hw); exists d, r, c; intros i Hi;
    destruct (Hw i Hi) as (Hr & Hc & Hcell);
    unfold on_line, holds_at; cbv zeta; (split_and!; [lia..|]).
  - rewrite (refines_cell _ _ Hb) in Hcell by lia.
    apply render_inj. by injection Hcell.
  - rewrite (refines_cell _ _ Hb) by lia. unfold mark. by rewrite Hcell.
Qed.

Lemma refines_is_winning b s p :
  refines b s → is_winning b (mark p) = bool_decide (wins s p).
Proof.
  intros Hb. apply eq_true_iff_eq.
  rewrite bool_decide_eq_true, <-(refines_has_four _ _ _ Hb).
  split; [apply is_winning_has_four | apply has_four_is_winning].
Qed.

Lemma refines_terminal b s : refines b s → is_terminal_node b = terminal s.
Proof.
  intros Hb. rewrite is_terminal_node_board. unfold terminal.
  change (PyStr "0") with (mark PlayerA). change (PyStr "1") with (mark PlayerB).
  rewrite !(refines_is_winning _ _ _ Hb), (refines_valid_locations _ _ Hb).
  f_equal. by destruct (legalColumns s).
Qed.

Lemma refines_terminal_score b s p :
  refines b s → terminal_score b (mark p) = outcome_score s p.
Proof.
  intros Hb. unfold terminal_score, outcome_score. cbn [pos_is_winning board_position].
  rewrite mark_str, opponent_mark, !(refines_is_winning _ _ _ Hb).
  by rewrite !if_bool_decide.
Qed.

Lemma refines_center_count b s p :
  refines b s →
  count (render (Some p)) (center_array b)
  = length (filter (λ q, q = p) (column s (COLS `div` 2))).
Proof.
  intros Hb. unfold count. change (COLS `div` 2) with 3.
  rewrite center_array_cells, (proj1 (refines_shape _ _ Hb)), length_filter_fmap.
  rewrite <-(length_filter_lookup _ _ ROWS) by by eapply refines_column_length.
  rewrite <-(length_filter_rev_index (λ j, column s _ !! j = Some p)).
  f_equal. apply filter_ext_in. intros r [_ Hr]%elem_of_seq.
  rewrite (refines_cell _ _ Hb) by (done || unfold COLS; lia).
  unfold at_cell. rewrite decide_True by done.
  split; [apply render_inj | by intros ->].
Qed.

Lemma refines_eval b s p : refines b s → eval_board b (mark p) = evaluate s p.
Proof.
  intros Hb. unfold eval_board, evaluate. cbv zeta.
  rewrite opponent_mark, !mark_str, !(refines_is_winning _ _ _ Hb).
  rewrite !if_bool_decide. do 2 (case_decide; [done|]).
  change (py_str (mark p)) with (render (Some p)).
  rewrite (refines_center_count _ _ _ Hb). lia.
Qed.
End scores.

(** ** The search against the value of the game *)

Section search.
Implicit Types (b : Board) (s : GameState) (p : Piece) (piece : pyval).

Lemma refines_play_all moves b s :
  refines b s → shows (play_all b (marked moves)) (drop_all s moves).
Proof.
  revert b s. induction moves as [|[col p] moves IH]; intros b s Hb; [done|].
  cbn [marked fmap list_fmap play_all drop_all fst snd].
  pose proof (refines_play b s col (mark p) p Hb eq_refl) as Hplay.
  destruct (play b col (mark p)), (drop_piece s col p); try done. by apply IH.
Qed.

Lemma refines_gravity b s : refines b s → gravity b.
Proof.
  intros Hb r c Hr Hc. rewrite !(refines_cell _ _ Hb), !render_empty by lia.
  rewrite !at_cell_None by lia. lia.
Qed.

Lemma refines_children b s piece p :
  refines b s → py_str piece = render (Some p) →
  Forall2 (λ cb cs, cb.1 = cs.1 ∧ refines cb.2 cs.2)
    (children b piece) (successors s p).
Proof.
  intros Hb Hp. unfold children, children_of, successors.
  cbn [pos_valid_locations pos_play board_position].
  rewrite (refines_valid_locations _ _ Hb). apply Forall2_omap. intros col _.
  pose proof (refines_play b s col piece p Hb Hp) as Hplay.
  destruct (play b col piece), (drop_piece s col p); try done; by constructor.
Qed.

Lemma refines_value n b s mx p :
  refines b s → exhaustive n b mx (mark p) = value n s mx p.
Proof.
  revert b s mx. induction n as [|n IH]; intros b s mx Hb.
  { cbn [exhaustive value]. unfold static_score.
    rewrite (refines_terminal _ _ Hb), (refines_terminal_score _ _ _ Hb).
    cbn [pos_eval board_position]. by rewrite (refines_eval _ _ _ Hb). }
  cbn [exhaustive value].
  rewrite (refines_terminal _ _ Hb), (refines_terminal_score _ _ _ Hb).
  destruct (terminal s); [done|]. rewrite opponent_mark.
  destruct mx; f_equal; apply Forall2_fmap_eq;
    (eapply Forall2_impl; [by apply refines_children|]);
    intros [c b'] [c' s'] [_ Hr]; by apply IH.
Qed.

Lemma refines_drop b s col p s' :
  refines b s → drop_piece s col p = Some s' →
  ∃ b', play b col (mark p) = Ok b' ∧ refines b' s'.
Proof.
  intros Hb Hd. pose proof (refines_play b s col (mark p) p Hb eq_refl) as H.
  rewrite Hd in H. destruct (play b col (mark p)) as [b'|]; [eauto|done].
Qed.

Lemma successors_elem s p col s' :
  (col, s') ∈ successors s p ↔ drop_piece s col p = Some s'.
Proof.
  unfold successors. rewrite list_elem_of_omap. split.
  - intros (c & _ & Hc). destruct (drop_piece s c p) eqn:?; by simplify_eq/=.
  - intros Hd. exists col. rewrite Hd. split; [|done].
    apply drop_Some in Hd as [Hc _]. apply list_elem_of_filter. split; [done|].
    apply canPlay_spec in Hc as [? _]. apply elem_of_seqZ. lia.
Qed.

(** The values of the specification are scores of the code. *)
Lemma value_range n b s mx p :
  refines b s → ∃ z, value n s mx p = Fin z ∧ score_range z.
Proof.
  intros Hb. rewrite <-(refines_value _ _ _ _ _ Hb).
  apply exhaustive_score_range, Hb.
Qed.

Lemma value_won n s mx p : wins s p → value n s mx p = Fin 1000000.
Proof.
  intros Hw. assert (terminal s = true) as Ht.
  { unfold terminal.
    destruct p; rewrite (bool_decide_eq_true_2 _ Hw); by rewrite ?orb_true_r. }
  destruct n; cbn [value]; rewrite Ht; unfold outcome_score;
    by rewrite decide_True.
Qed.

(** At the horizon only a won state is worth 1000000. *)
Lemma static_won b s mx p :
  refines b s → value 0 s mx p = Fin 1000000 → wins s p.
Proof.
  intros Hb. cbn [value]. unfold outcome_score, evaluate.
  pose proof (refines_column_length b s (COLS `div` 2) Hb) as Hlen.
  pose proof (length_filter (λ q, q = p) (column s (COLS `div` 2))).
  unfold ROWS in Hlen. intros [= Hv]. change (COLS `div` 2) with 3 in *.
  destruct (terminal s); repeat case_decide; (done || lia).
Qed.

Lemma refines_scored n b s p :
  refines b s →
  (λ cb, (cb.1, exhaustive n cb.2 false (mark p))) <$> children b (mark p)
  = (λ cs, (cs.1, value n cs.2 false p)) <$> successors s p.
Proof.
  intros Hb. apply Forall2_fmap_eq.
  eapply Forall2_impl; [by apply refines_children|].
  intros [c b'] [c' s'] [Hc Hr]. simpl in *. by rewrite Hc, (refines_value _ _ _ _ _ Hr).
Qed.
End search.

#[export] Instance refines_proper : Proper (same_grid ==> eq ==> iff) refines.
Proof.
  assert (∀ b1 b2 s, same_grid b1 b2 → refines b1 s → refines b2 s) as Himpl.
  { intros b1 b2 s Hb [Hshape Hs Hl Hc]. split; [|done..|].
    - unfold shape. by rewrite <-(same_grid_board _ _ Hb).
    - intros r c Hr Hcc. rewrite <-Hb. by apply Hc. }
  intros b1 b2 Hb ?? ->. split; apply Himpl; [done | by symmetry].
Qed.

Lemma before_win_refines : refines before_win before_win_state.
Proof.
  pose proof (refines_play_all before_win_moves init empty refines_init) as H.
  assert (same_grid (board_after (marked before_win_moves)) before_win) as <-
    by (by split).
  unfold board_after. by destruct (play_all _ _).
Qed.

(** * Properties *)

Section properties.
Implicit Types (b : Board) (s : GameState) (p : Piece) (piece : pyval).

(** C12 (refinement). [Board] implements the state of the specification.
    On a board that shows a state, [can_play] is [canPlay],
    [get_valid_locations] is [legalColumns], and [play] of a piece whose
    str is the player's mark implements [drop_piece]: both fail, or both
    succeed and the new board shows the new state. *)
Theorem play_refines_drop b s col piece p :
  refines b s → py_str piece = render (Some p) →
  can_play b col = canPlay s col
  ∧ get_valid_locations b = legalColumns s
  ∧ shows (play b col piece) (drop_piece s col p).
Proof.
  intros Hb Hp. split_and!;
    [by apply refines_can_play | by apply refines_valid_locations
    | by apply refines_play].
Qed.

(** C25 (refinement). Every sequence of moves from the empty board is
    refused by [play] and by [drop_piece] alike, or leads to a board that shows
    the state; such a board satisfies gravity, which the model has by
    construction. *)
Theorem play_all_refines moves :
  shows (play_all init (marked moves)) (drop_all empty moves)
  ∧ ∀ b, play_all init (marked moves) = Ok b → gravity b.
Proof.
  pose proof (refines_play_all moves init empty refines_init) as H.
  split; [done|]. intros b Hb. rewrite Hb in H.
  destruct (drop_all empty moves); [by eapply refines_gravity | done].
Qed.

(** C24 (refinement). [is_winning], the terminal test and [eval_board]
    implement [wins], [terminal] and [evaluate] of the specification, for
    the mark of either player. *)
Theorem scoring_refines b s p :
  refines b s →
  is_winning b (mark p) = bool_decide (wins s p)
  ∧ is_terminal_node b = terminal s
  ∧ terminal_score b (mark p) = outcome_score s p
  ∧ eval_board b (mark p) = evaluate s p.
Proof.
  intros Hb. split_and!;
    [by apply refines_is_winning | by apply refines_terminal
    | by apply refines_terminal_score | by apply refines_eval].
Qed.

Lemma minimax_move fuel b s depth p :
  refines b s → (0 < depth)%Z → Z.to_nat depth < fuel → terminal s = false →
  wp (minimax fuel b depth NegInf PosInf true (mark p))
     (λ r, ∃ c, r.2 = Some c
        ∧ first_max
            ((λ cs, (cs.1, value (Z.to_nat (depth - 1)) cs.2 false p))
               <$> successors s p) c r.1).
Proof.
  intros Hb Hd Hfuel Ht. rewrite <-(refines_scored _ _ _ _ Hb).
  apply minimax_root; [done..|]. by rewrite (refines_terminal _ _ Hb).
Qed.

Lemma minimax_value fuel b s depth mx p :
  refines b s → (0 ≤ depth)%Z → Z.to_nat depth < fuel →
  wp (minimax fuel b depth NegInf PosInf mx (mark p))
     (λ r, r.1 = value (Z.to_nat depth) s mx p).
Proof.
  intros Hb Hd Hfuel. eapply wp_mono.
  - apply minimax_window; [done..|num_lia].
  - intros r Hr%fail_soft_full. by rewrite Hr, (refines_value _ _ _ _ _ Hb).
Qed.

(** C4 (refinement). The engine computes the value of the game: on a
    board that shows a state, [minimax] called with the full window and
    the mark of a player returns, and its score is the depth-bounded
    minimax value of the state for that player, the opponent being the
    other player. *)
Theorem minimax_refines_value fuel b s depth mx p :
  refines b s → (0 ≤ depth)%Z → Z.to_nat depth < fuel →
  wp (minimax fuel b depth NegInf PosInf mx (mark p))
     (λ r, r.1 = value (Z.to_nat depth) s mx p).
Proof. apply minimax_value. Qed.

(** C35 (refinement). The second player is served right: called with the
    int 1, as [main] calls it for the second player, [minimax] does what
    it does for the str ['1'] (the piece it takes for the opponent is
    ['0'], which is the opponent), so its score is the value of the game
    for the second player.  The int 0 of the first player is the one
    piece of [main] for which the search goes wrong. *)
Theorem second_player_refines fuel b s depth mx g :
  refines b s → (0 ≤ depth)%Z → Z.to_nat depth < fuel →
  minimax fuel b depth NegInf PosInf mx (PyInt 1) g
  = minimax fuel b depth NegInf PosInf mx (mark PlayerB) g
  ∧ ∃ r, run (minimax fuel b depth NegInf PosInf mx (PyInt 1)) g = Val r
         ∧ r.1 = value (Z.to_nat depth) s mx PlayerB.
Proof.
  intros Hb Hd Hfuel.
  assert (minimax fuel b depth NegInf PosInf mx (PyInt 1) g
          = minimax fuel b depth NegInf PosInf mx (mark PlayerB) g) as Heq
    by by apply minimax_alike.
  split; [done|]. unfold run. rewrite Heq.
  by apply (wp_run _ _ g (minimax_value fuel b s depth mx PlayerB Hb Hd Hfuel)).
Qed.

(** C22 (refinement). The move of the engine is the move of the
    specification: on a board that shows a state that is not terminal, it
    returns the first legal column whose successor has the largest value
    for the player. *)
Theorem minimax_refines_move fuel b s depth p :
  refines b s → (0 < depth)%Z → Z.to_nat depth < fuel → terminal s = false →
  wp (minimax fuel b depth NegInf PosInf true (mark p))
     (λ r, ∃ c, r.2 = Some c
        ∧ first_max
            ((λ cs, (cs.1, value (Z.to_nat (depth - 1)) cs.2 false p))
               <$> successors s p) c r.1).
Proof. apply minimax_move. Qed.

(** C23 (functional). The engine takes a win: on a board that shows a
    state that is not terminal and in which some column wins at once for
    the player, [minimax] called for the mark of the player with a depth
    of at least 1 returns the score 1000000 and a column from which the
    win of the player is forced in the plies that remain; at depth 1 that
    column wins at once. *)
Theorem engine_takes_win fuel b s depth p col s' :
  refines b s → (0 < depth)%Z → Z.to_nat depth < fuel → terminal s = false →
  drop_piece s col p = Some s' → wins s' p →
  wp (minimax fuel b depth NegInf PosInf true (mark p))
     (λ r, r.1 = Fin 1000000
           ∧ ∃ c sc, r.2 = Some c ∧ drop_piece s c p = Some sc
                     ∧ value (Z.to_nat (depth - 1)) sc false p = Fin 1000000
                     ∧ (depth = 1%Z → wins sc p)).
Proof.
  intros Hb Hd Hfuel Ht Hdrop Hwin.
  eapply wp_mono; [by apply minimax_move|]. intros r (c & Hc & Hmax).
  assert (r.1 = Fin 1000000) as Hv.
  { eapply first_max_top; [done| |].
    - apply list_elem_of_fmap. exists (col, s').
      split; [|by apply successors_elem]. cbn. by rewrite value_won.
    - apply Forall_fmap, Forall_forall. intros [c' sc'] Hin%successors_elem.
      destruct (refines_drop _ _ _ _ _ Hb Hin) as (b' & _ & Hb').
      destruct (value_range (Z.to_nat (depth - 1)) b' sc' false p Hb')
        as (z & Hz & Hr). cbn. rewrite Hz.
      unfold score_range, WIN_SCORE in Hr. unfold num_le. simpl. lia. }
  split; [done|]. rewrite Hv in Hmax.
  apply first_max_elem, list_elem_of_fmap in Hmax
    as ([c' sc] & [= -> Hval] & Hin%successors_elem).
  exists c', sc. split_and!; [done..|].
  intros ->. destruct (refines_drop _ _ _ _ _ Hb Hin) as (b' & _ & Hb').
  by eapply static_won.
Qed.

(** C27 (equivalence). Without a horizon the engine solves the game: on
    a board that shows a state, called with a negative depth, the full
    window and the mark of a player, 43 units of fuel are enough for
    [minimax] to return from every generator state, and its score is
    the minimax value of the state played to the end, that is to depth
    42 or any larger one. *)
Theorem minimax_solves_game fuel b s depth mx p n g :
  refines b s → (depth < 0)%Z → ROWS * COLS < fuel → ROWS * COLS ≤ n →
  ∃ col, run (minimax fuel b depth NegInf PosInf mx (mark p)) g
         = Val (value n s mx p, col).
Proof.
  intros Hb Hd Hfuel Hn.
  pose proof (count_empty_le b (refines_shape _ _ Hb)) as Hle.
  destruct (wp_run _ _ g (minimax_no_horizon fuel b depth mx (mark p) n
    ltac:(by destruct p) Hd ltac:(lia) ltac:(lia))) as ([v col] & Hr & Hv).
  exists col. simpl in Hv. by rewrite Hr, Hv, (refines_value _ _ _ _ _ Hb).
Qed.

(** Without a horizon the engine plays the move of the solved game:
    the first legal column whose successor has the largest value of the
    game played to the end. *)
Theorem minimax_solves_move fuel b s depth p n :
  refines b s → (depth < 0)%Z → ROWS * COLS < fuel → ROWS * COLS ≤ n →
  terminal s = false →
  wp (minimax fuel b depth NegInf PosInf true (mark p))
     (λ r, ∃ c, r.2 = Some c
        ∧ first_max
            ((λ cs, (cs.1, value n cs.2 false p)) <$> successors s p) c r.1).
Proof.
  intros Hb Hd Hfuel Hn Ht. rewrite <-(refines_scored _ _ _ _ Hb).
  pose proof (count_empty_le b (refines_shape _ _ Hb)).
  apply minimax_root_no_horizon;
    [by destruct p | done | lia | lia | by rewrite (refines_terminal _ _ Hb)].
Qed.

(** With the piece as [main] passes it, the int 0, the
    engine is not the engine of the specification: three plies deep in
    [before_win_state] column 3 wins at once and is the only column of
    value 1000000, the others are worth 3; the code returns column 3 for
    the str ['0'] and column 0 for the int 0. *)
Example int_piece_diverges :
  (λ cs, (cs.1, value 2 cs.2 false PlayerA)) <$> successors before_win_state PlayerA
  = [(0, Fin 3); (1, Fin 3); (2, Fin 3); (3, Fin 1000000);
     (4, Fin 3); (5, Fin 3); (6, Fin 3)]%Z
  ∧ run (choose before_win 3 (mark PlayerA)) rng0 = Val (Fin 1000000, Some 3%Z)
  ∧ run (choose before_win 3 (PyInt 0)) rng0 = Val (Fin 1000000, Some 0%Z).
Proof. by vm_compute. Qed.
End properties.

(** * Witnesses *)

Lemma play_refines_drop_witness :
  can_play before_win 3 = canPlay before_win_state 3
  ∧ get_valid_locations before_win = legalColumns before_win_state
  ∧ shows (play before_win 3 (PyInt 0)) (drop_piece before_win_state 3 PlayerA).
Proof.
  apply play_refines_drop; [apply before_win_refines | reflexivity].
Defined.

Lemma scoring_refines_witness :
  is_winning before_win (mark PlayerB) = bool_decide (wins before_win_state PlayerB)
  ∧ is_terminal_node before_win = terminal before_win_state
  ∧ terminal_score before_win (mark PlayerB) = outcome_score before_win_state PlayerB
  ∧ eval_board before_win (mark PlayerB) = evaluate before_win_state PlayerB.
Proof. apply scoring_refines, before_win_refines. Defined.

Lemma minimax_refines_value_witness :
  wp (minimax 3 before_win 2 NegInf PosInf true (mark PlayerA))
     (λ r, r.1 = value (Z.to_nat 2) before_win_state true PlayerA).
Proof.
  apply minimax_refines_value; [apply before_win_refines | lia | lia].
Defined.

Lemma minimax_refines_move_witness :
  wp (minimax 3 before_win 2 NegInf PosInf true (mark PlayerA))
     (λ r, ∃ c, r.2 = Some c
        ∧ first_max
            ((λ cs, (cs.1, value (Z.to_nat (2 - 1)) cs.2 false PlayerA))
               <$> successors before_win_state PlayerA) c r.1).
Proof.
  apply minimax_refines_move;
    [apply before_win_refines | lia | lia | by vm_compute].
Defined.

Lemma second_player_refines_witness :
  minimax 3 init 2 NegInf PosInf true (PyInt 1) rng0
  = minimax 3 init 2 NegInf PosInf true (mark PlayerB) rng0
  ∧ ∃ r, run (minimax 3 init 2 NegInf PosInf true (PyInt 1)) rng0 = Val r
         ∧ r.1 = value (Z.to_nat 2) empty true PlayerB.
Proof. apply second_player_refines; [apply refines_init | lia | lia]. Defined.

Lemma minimax_solves_game_witness :
  ∃ col, run (minimax 43 init (-1) NegInf PosInf true (mark PlayerA)) rng0
         = Val (value 42 empty true PlayerA, col).
Proof.
  apply minimax_solves_game;
    [apply refines_init | lia | unfold ROWS, COLS; lia..].
Defined.

Lemma engine_takes_win_witness :
  wp (minimax 2 before_win 1 NegInf PosInf true (mark PlayerA))
     (λ r, r.1 = Fin 1000000
           ∧ ∃ c sc, r.2 = Some c
                     ∧ drop_piece before_win_state c PlayerA = Some sc
                     ∧ value (Z.to_nat (1 - 1)) sc false PlayerA = Fin 1000000
                     ∧ (1 = 1 → wins sc PlayerA)%Z).
Proof.
  apply (engine_takes_win 2 before_win before_win_state 1 PlayerA 3 won_state);
    [apply before_win_refines | lia | lia | by vm_compute | by vm_compute
    | by apply (bool_decide_eq_true_1 (wins won_state PlayerA)); vm_compute].
Defined.
