(* ===== verification/Driver.v ===== *)
(** * Driver: the command loop [main] of [src/main.py]

    [main] reads commands from standard input, one per line, and prints
    to standard output.  The world of the program is the lines still to
    be read, the text written so far and the random generator; [IO] is
    the state monad over it, with Python's exceptions and fuel.

    A command is tested for the three keywords in turn, so one line can
    trigger several handlers.  [RESET] calls [main] again: the nested
    session reads from the same input, and when it ends the loop that
    called it goes on with its own board.  [loop] is the [while True];
    each iteration reads a line, so the fuel needed is the number of
    lines plus one. *)

From Stdlib Require Import Ascii.
From stdpp Require Import relations.
From S2P Require Import Prelude Python Board Win Eval Search Engine Spec.

(** ** The world *)

Record world : Type := mkWorld {
  stdin : list string;
  stdout : list string;
  gen : rng;
}.

Definition IO : Type → Type := ST world.

(** [input()]: the next line, [EOFError] when there is none. *)
Definition input : IO string :=
  λ w, match stdin w with
       | [] => Exc EOFError
       | line :: rest => Val (line, mkWorld rest (stdout w) (gen w))
       end.

Definition write (s : string) : IO unit :=
  λ w, Val ((), mkWorld (stdin w) (stdout w ++ [s]) (gen w)).

(** [print(s)] *)
Definition print (s : string) : IO unit := write (s +:+ newline).

(** A computation of the search, run on the world's generator. *)
Definition with_rng {A} (m : M A) : IO A :=
  λ w, match m (gen w) with
       | Val (a, g) => Val (a, mkWorld (stdin w) (stdout w) g)
       | Exc e => Exc e
       | OutOfFuel => OutOfFuel
       end.

(** ** The functions of the driver *)

(** [input(prompt)] writes the prompt and reads a line. *)
Definition player_loop : IO string :=
  (_ <- write "press a row 0-6 to play the piece or press P to let the AI play" ;;
   input)%py.

Definition end_logic (board : Board) (piece : pyval) : IO bool :=
  let win := is_winning board (PyStr (py_str piece)) in
  if win then
    (_ <- print (print_board board) ;;
     _ <- print ("Game over: " +:+ py_str piece +:+ " won") ;;
     ret true)%py
  else ret false.

(** [piece += 1] is only reached with [piece == 0]. *)
Definition change_turn (piece : pyval) : pyval :=
  if py_eq piece (PyInt 0) then PyInt (0 + 1) else PyInt 0.

Definition start_new : Board * pyval * option Z := (init, PyInt 0, None).

(** [board.play(move, piece)] with the column [minimax] returned: the
    comparison [0 <= None] raises [TypeError]. *)
Definition play_move (board : Board) (move : option Z) (piece : pyval)
    : res Board :=
  match move with
  | Some col => play board col piece
  | None => Raise TypeError
  end.

(** [str(board.history)]: a list of tuples. *)
Definition repr_history (h : list (pyval * Z)) : string :=
  "[" +:+ join ", " ((λ e, "(" +:+ py_repr e.1 +:+ ", " +:+ pretty e.2 +:+ ")")
                     <$> h) +:+ "]".

(** ** The handlers of a command

    Each [if "KEYWORD" in command:] block of [main], as a function of the
    locals it reads, returning the locals it assigns. *)

Definition on_play (command : string) (board : Board) (piece : pyval)
    (move : option Z) : IO (Board * option Z) :=
  if contains "PLAY" command then
    (r <- with_rng (choose board 5 piece) ;;
     board' <- lift (play_move board r.2 piece) ;;
     ret (board', r.2))%py
  else ret (board, move).

Definition on_move (command : string) (board : Board) (piece : pyval)
    (move : option Z) : IO (Board * option Z) :=
  if contains "MOVE" command then
    (player_choice <- lift (int_of_str (replace "MOVE:" "" command)) ;;
     board' <- lift (play board player_choice piece) ;;
     ret (board', Some player_choice))%py
  else ret (board, move).

(** [nested] stands for the recursive call of [main]. *)
Definition on_reset (command : string) (nested : IO unit) : IO unit :=
  if contains "RESET" command then nested else ret ().

(** The end of the loop body: the game-over test, the change of turn and
    the three [print]s; [None] is the [break]. *)
Definition finish (command : string) (board : Board) (piece : pyval)
    (move : option Z) : IO (option (Board * pyval * option Z)) :=
  (won <- end_logic board piece ;;
   if won : bool then ret None
   else
     let piece := change_turn piece in
     _ <- print command ;;
     _ <- print (print_board board) ;;
     _ <- print (repr_history (history board)) ;;
     ret (Some (board, piece, move)))%py.

(** One iteration of the [while True] of [main]. *)
Definition iteration (nested : IO unit) (board : Board) (piece : pyval)
    (move : option Z) : IO (option (Board * pyval * option Z)) :=
  (line <- input ;;
   let command := strip line in
   bm <- on_play command board piece move ;;
   bm <- on_move command bm.1 piece bm.2 ;;
   _ <- on_reset command nested ;;
   finish command bm.1 piece bm.2)%py.

Fixpoint loop (fuel : nat) (board : Board) (piece : pyval) (move : option Z)
    : IO unit :=
  match fuel with
  | 0 => out_of_fuel
  | S fuel' =>
      (r <- iteration (let '(b, p, m) := start_new in loop fuel' b p m)
             board piece move ;;
       match r with
       | None => ret ()
       | Some (board', piece', move') => loop fuel' board' piece' move'
       end)%py
  end.

Definition main (fuel : nat) : IO unit :=
  let '(board, piece, move) := start_new in loop fuel board piece move.

(** ** Specification *)

(** A computation that returns has read no line back ([reads_le]), or has
    read at least one ([reads_lt]). *)
Definition reads_le {A} (m : IO A) : Prop :=
  ∀ w a w', m w = Val (a, w') → length (stdin w') ≤ length (stdin w).

Definition reads_lt {A} (m : IO A) : Prop :=
  ∀ w a w', m w = Val (a, w') → length (stdin w') < length (stdin w).

(** [n] units of fuel are enough for [m] on fewer than [n] lines. *)
Definition fueled (n : nat) {A} (m : IO A) : Prop :=
  ∀ w, length (stdin w) < n → m w ≠ OutOfFuel.

(** One successful [play] of [piece]. *)
Definition played (piece : pyval) : relation Board :=
  λ b b', ∃ col, play b col piece = Ok b'.

(** The player of the specification an int piece stands for. *)
Definition player (piece : pyval) : Piece :=
  if py_eq piece (PyInt 0) then PlayerA else PlayerB.

(** What holds of the locals at the head of the loop: the board was
    reached by legal moves and shows a state of the specification's game,
    the piece is one of the ints 0 and 1, and neither mark has four in a
    row. *)
Definition session_ok (board : Board) (piece : pyval) : Prop :=
  reachable board ∧ (piece = PyInt 0 ∨ piece = PyInt 1)
  ∧ is_winning board (PyStr "0") = false
  ∧ is_winning board (PyStr "1") = false
  ∧ ∃ s, refines board s.

(** The world after the texts [ls] were written. *)
Definition printed (ls : list string) (w : world) : world :=
  mkWorld (stdin w) (stdout w ++ ls) (gen w).

(** The two lines [end_logic] prints when the game is over. *)
Definition game_over_lines (board : Board) (piece : pyval) : list string :=
  [print_board board +:+ newline;
   ("Game over: " +:+ py_str piece +:+ " won") +:+ newline].

(** The three lines that end an iteration when it is not. *)
Definition turn_lines (command : string) (board : Board) : list string :=
  [command +:+ newline; print_board board +:+ newline;
   repr_history (history board) +:+ newline].

(** ** Inputs of concrete sessions *)

(** The pieces of [n] successive turns, 0 first. *)
Fixpoint cycle_pieces (n : nat) : list pyval :=
  match n with
  | 0 => []
  | S n' => PyInt 0 :: (change_turn <$> cycle_pieces n')
  end.


(** A world for running examples: nothing printed yet, the generator of
    [Engine.rng0]. *)
Definition world0 (lines : list string) : world := mkWorld lines [] rng0.

(** The player to move wins on the bottom row with the seventh move. *)
Definition game_lines : list string :=
  ["MOVE:0"; "MOVE:0"; "MOVE:1"; "MOVE:1"; "MOVE:2"; "MOVE:2"; "MOVE:3"].

(** Forty-two moves that fill the board without four in a row. *)
Definition draw_columns : list Z :=
  [2; 0; 0; 0; 0; 0; 0; 1; 1; 1; 1; 1; 1; 2; 2; 2; 2; 2; 3; 3; 3; 3; 3; 3;
   6; 4; 4; 4; 4; 4; 4; 5; 5; 5; 5; 5; 5; 6; 6; 6; 6; 6]%Z.

Definition draw_lines : list string :=
  (λ col, "MOVE:" +:+ pretty col) <$> draw_columns.

(** The board after [draw_columns], the ints 0 and 1 moving in turn. *)
Definition draw_board : Board :=
  board_after (zip draw_columns (cycle_pieces (length draw_columns))).

(** The columns of the game the engine plays against itself as [main]
    calls it, from the generator of [Engine.rng0]. *)
Definition self_play_columns : list Z :=
  [3; 3; 0; 1; 0; 0; 2; 3; 0; 3; 0; 3]%Z.

(** The board of that game after [n] moves. *)
Definition self_play_board (n : nat) : Board :=
  board_after (zip (take n self_play_columns) (cycle_pieces n)).

(** Its first ten moves as [MOVE] commands, then two [PLAY] commands. *)
Definition self_play_lines : list string :=
  ((λ col, "MOVE:" +:+ pretty col) <$> take 10 self_play_columns)
  ++ ["PLAY"; "PLAY"].

(** The board six moves before the draw: columns 5 and 6 are open. *)
Definition endgame_board : Board :=
  board_after (zip (take 36 draw_columns) (cycle_pieces 36)).

(** The state it shows. *)
Definition endgame_moves : list (Z * Piece) :=
  zip (take 36 draw_columns)
      ((λ i, if Nat.even i then PlayerA else PlayerB) <$> seq 0 36).

Definition endgame_state : GameState :=
  default empty (drop_all empty endgame_moves).

(** * Lemmas *)

Create HintDb io discriminated.

(** ** The primitives *)

Section primitives.
Context {A B : Type}.
Implicit Types (m : IO A) (k : A → IO B) (n : nat).

Lemma reads_lt_le m : reads_lt m → reads_le m.
Proof. intros Hm w a w' Hw. apply Nat.lt_le_incl. eauto. Qed.

Lemma reads_le_ret (a : A) : reads_le (ret a).
Proof. by intros w a' w' [= _ <-]. Qed.

Lemma reads_le_lift (r : res A) : reads_le (lift r).
Proof. destruct r; [apply reads_le_ret | done]. Qed.

Lemma reads_le_with_rng (c : M A) : reads_le (with_rng c).
Proof.
  intros w a w'. unfold with_rng. destruct (c _) as [[a' g]| |]; [|done..].
  by intros [= _ <-].
Qed.

Lemma reads_le_bind m k :
  reads_le m → (∀ a, reads_le (k a)) → reads_le (bind m k).
Proof.
  intros Hm Hk w b w'' (a & w' & Hw & Hw')%bind_Val_inv.
  etrans; [by eapply Hk | by eapply Hm].
Qed.

Lemma reads_lt_bind m k :
  reads_lt m → (∀ a, reads_le (k a)) → reads_lt (bind m k).
Proof.
  intros Hm Hk w b w'' (a & w' & Hw & Hw')%bind_Val_inv.
  eapply Nat.le_lt_trans; [by eapply Hk | by eapply Hm].
Qed.

Lemma fueled_total n m : (∀ w, m w ≠ OutOfFuel) → fueled n m.
Proof. intros Hm w _. apply Hm. Qed.

Lemma fueled_ret n (a : A) : fueled n (ret a).
Proof. by apply fueled_total. Qed.

Lemma fueled_lift n (r : res A) : fueled n (lift r).
Proof. apply fueled_total. by destruct r. Qed.

Lemma fueled_with_rng n (c : M A) (Q : A → Prop) :
  wp c Q → fueled n (with_rng c).
Proof.
  intros Hc. apply fueled_total. intros w. unfold with_rng.
  by destruct (Hc (gen w)) as (a & g & -> & _).
Qed.

Lemma fueled_bind n m k :
  fueled n m → reads_le m → (∀ a, fueled n (k a)) → fueled n (bind m k).
Proof.
  intros Hm Hr Hk w Hw. unfold bind. specialize (Hm w Hw).
  destruct (m w) as [[a w']| |] eqn:Hmw; [|done..].
  apply Hk. eapply Nat.le_lt_trans; [by eapply Hr | done].
Qed.

(** After a line was read one unit less is enough. *)
Lemma fueled_bind_lt n m k :
  fueled (S n) m → reads_lt m → (∀ a, fueled n (k a)) →
  fueled (S n) (bind m k).
Proof.
  intros Hm Hr Hk w Hw. unfold bind. specialize (Hm w Hw).
  destruct (m w) as [[a w']| |] eqn:Hmw; [|done..].
  apply Hk. specialize (Hr _ _ _ Hmw). lia.
Qed.
End primitives.

Lemma reads_lt_input : reads_lt input.
Proof.
  intros w a w'. unfold input. destruct (stdin w) as [|l rest]; [done|].
  intros [= _ <-]. simpl. lia.
Qed.

Lemma reads_le_write s : reads_le (write s).
Proof. by intros w a w' [= _ <-]. Qed.

Lemma reads_le_print s : reads_le (print s).
Proof. apply reads_le_write. Qed.

Lemma fueled_input n : fueled n input.
Proof. apply fueled_total. intros w. unfold input. by destruct (stdin w). Qed.

Lemma fueled_print n s : fueled n (print s).
Proof. by apply fueled_total. Qed.

#[export] Hint Resolve reads_le_ret reads_le_lift reads_le_with_rng
  reads_le_bind reads_le_print reads_le_write reads_lt_input reads_lt_bind
  fueled_ret fueled_lift fueled_bind fueled_input fueled_print : io.

(** Splits the conditionals of a handler and applies the hints. *)
Ltac io_auto :=
  intros;
  repeat match goal with
  | |- context [if ?b then _ else _] => destruct b
  end;
  eauto 12 with io.

(** ** The handlers read nothing; an iteration reads a line *)

Section reads.
Implicit Types (board : Board) (piece : pyval) (move : option Z).

Lemma end_logic_reads board piece : reads_le (end_logic board piece).
Proof. unfold end_logic. io_auto. Qed.

Lemma on_play_reads command board piece move :
  reads_le (on_play command board piece move).
Proof. unfold on_play. io_auto. Qed.

Lemma on_move_reads command board piece move :
  reads_le (on_move command board piece move).
Proof. unfold on_move. io_auto. Qed.

Lemma on_reset_reads command nested :
  reads_le nested → reads_le (on_reset command nested).
Proof. unfold on_reset. io_auto. Qed.

Lemma finish_reads command board piece move :
  reads_le (finish command board piece move).
Proof.
  unfold finish. apply reads_le_bind; [apply end_logic_reads|]. io_auto.
Qed.

Lemma iteration_reads nested board piece move :
  reads_le nested → reads_lt (iteration nested board piece move).
Proof.
  intros Hn. unfold iteration.
  eauto 10 using on_play_reads, on_move_reads, on_reset_reads, finish_reads
    with io.
Qed.

Lemma loop_reads fuel board piece move : reads_lt (loop fuel board piece move).
Proof.
  revert board piece move.
  induction fuel as [|fuel IH]; intros board piece move; [done|].
  cbn [loop]. apply reads_lt_bind.
  - apply iteration_reads, reads_lt_le, IH.
  - intros [[[b p] m]|]; [apply reads_lt_le, IH | apply reads_le_ret].
Qed.
End reads.

(** ** Fuel for the lines to read *)

Section fuel.
Implicit Types (board : Board) (piece : pyval) (move : option Z).

Lemma end_logic_fueled n board piece : fueled n (end_logic board piece).
Proof. unfold end_logic. io_auto. Qed.

Lemma on_play_fueled n command board piece move :
  fueled n (on_play command board piece move).
Proof.
  unfold on_play. destruct (contains _ _); [|io_auto].
  apply fueled_bind; [|io_auto..].
  eapply fueled_with_rng, choose_returns. lia.
Qed.

Lemma on_move_fueled n command board piece move :
  fueled n (on_move command board piece move).
Proof. unfold on_move. io_auto. Qed.

Lemma on_reset_fueled n command nested :
  fueled n nested → fueled n (on_reset command nested).
Proof. unfold on_reset. io_auto. Qed.

Lemma finish_fueled n command board piece move :
  fueled n (finish command board piece move).
Proof.
  unfold finish.
  apply fueled_bind; [apply end_logic_fueled | apply end_logic_reads|].
  io_auto.
Qed.

Lemma iteration_fueled n nested board piece move :
  fueled n nested → reads_le nested →
  fueled (S n) (iteration nested board piece move).
Proof.
  intros Hn Hr. unfold iteration.
  apply fueled_bind_lt; [apply fueled_input | apply reads_lt_input|].
  intros line.
  eauto 10 using on_play_fueled, on_play_reads, on_move_fueled, on_move_reads,
    on_reset_fueled, on_reset_reads, finish_fueled with io.
Qed.

Lemma loop_fueled fuel board piece move : fueled fuel (loop fuel board piece move).
Proof.
  revert board piece move.
  induction fuel as [|fuel IH]; intros board piece move; [intros w; lia|].
  cbn [loop]. apply fueled_bind_lt.
  - apply iteration_fueled; [apply IH | apply reads_lt_le, loop_reads].
  - apply iteration_reads, reads_lt_le, loop_reads.
  - intros [[[b p] m]|]; [apply IH | apply fueled_ret].
Qed.
End fuel.

(** ** More fuel only adds results *)

Section below.
Implicit Types (board : Board) (piece : pyval) (move : option Z).

Lemma iteration_below nested1 nested2 board piece move :
  nested1 ⊑ nested2 →
  iteration nested1 board piece move ⊑ iteration nested2 board piece move.
Proof.
  intros Hn. unfold iteration. apply bind_below; [done|]. intros line.
  do 2 (apply bind_below; [done|]; intros ?).
  apply bind_below; [|done]. unfold on_reset. by case_bool.
Qed.

Lemma loop_unfold fuel board piece move :
  loop (S fuel) board piece move
  = bind (iteration (main fuel) board piece move)
      (λ r, match r with
            | None => ret ()
            | Some (board', piece', move') => loop fuel board' piece' move'
            end).
Proof. done. Qed.

Lemma loop_fuel_S fuel board piece move :
  loop fuel board piece move ⊑ loop (S fuel) board piece move.
Proof.
  revert board piece move.
  induction fuel as [|fuel IH]; intros board piece move;
    [apply out_of_fuel_below|].
  rewrite (loop_unfold (S fuel)), (loop_unfold fuel). apply bind_below.
  - apply iteration_below, IH.
  - intros [[[b p] m]|]; [apply IH | done].
Qed.

Lemma main_fuel_le fuel fuel' : fuel ≤ fuel' → main fuel ⊑ main fuel'.
Proof.
  induction 1 as [|fuel' _ IH]; [done|]. etrans; [apply IH|].
  apply loop_fuel_S.
Qed.
End below.

(** ** What the handlers do *)

Section handlers.
Implicit Types (board b : Board) (piece : pyval) (move : option Z) (w : world).

Lemma end_logic_eq board piece w :
  end_logic board piece w
  = if is_winning board (PyStr (py_str piece))
    then Val (true, printed (game_over_lines board piece) w)
    else Val (false, w).
Proof.
  unfold end_logic. destruct (is_winning _ _); [|done].
  unfold bind, print, write, printed, game_over_lines. simpl.
  by rewrite <-app_assoc.
Qed.

Lemma finish_eq command board piece move w :
  finish command board piece move w
  = if is_winning board (PyStr (py_str piece))
    then Val (None, printed (game_over_lines board piece) w)
    else Val (Some (board, change_turn piece, move),
              printed (turn_lines command board) w).
Proof.
  unfold finish, bind. rewrite end_logic_eq. destruct (is_winning _ _); [done|].
  unfold print, write, printed, turn_lines. simpl. by rewrite <-!app_assoc.
Qed.

(** A handler plays at most one piece and neither reads nor prints. *)
Lemma on_play_inv command board piece move b' m' w w' :
  on_play command board piece move w = Val ((b', m'), w') →
  stdin w' = stdin w ∧ stdout w' = stdout w
  ∧ (b' = board ∨ played piece board b').
Proof.
  unfold on_play. destruct (contains _ _); [|by intros [= <- <- <-]; auto].
  intros ([v c] & w1 & Hc & (b1 & w2 & Hp & [= <- <- <-])%bind_Val_inv)%bind_Val_inv.
  unfold with_rng in Hc. destruct (choose _ _ _ _) as [[r g]| |]; [|done..].
  injection Hc as [= -> <-]. destruct c as [col|]; [|done]. simpl in Hp.
  destruct (play board col piece) as [b2|] eqn:Hplay; [|done].
  injection Hp as [= <- <-]. split_and!; [done..|]. right. by exists col.
Qed.

Lemma on_move_inv command board piece move b' m' w w' :
  on_move command board piece move w = Val ((b', m'), w') →
  w' = w ∧ (b' = board ∨ played piece board b').
Proof.
  unfold on_move. destruct (contains _ _); [|by intros [= <- <- <-]; auto].
  intros (col & w1 & Hc & (b1 & w2 & Hp & [= <- <- <-])%bind_Val_inv)%bind_Val_inv.
  destruct (int_of_str _); [|done]. injection Hc as [= -> ->].
  destruct (play board col piece) as [b2|] eqn:Hplay; [|done].
  injection Hp as [= <- <-]. split; [done|]. right. by exists col.
Qed.

(** An iteration that returns has played at most two pieces, all of the
    player to move, and has ended on the game-over test. *)
Lemma iteration_inv nested board piece move r w w' :
  iteration nested board piece move w = Val (r, w') →
  ∃ b2 w1, rtc (played piece) board b2 ∧
    (r = None ∧ is_winning b2 (PyStr (py_str piece)) = true
       ∧ w' = printed (game_over_lines b2 piece) w1
     ∨ ∃ command m', r = Some (b2, change_turn piece, m')
       ∧ is_winning b2 (PyStr (py_str piece)) = false
       ∧ w' = printed (turn_lines command b2) w1).
Proof.
  unfold iteration.
  intros (line & w1 & _ & ([b1 m1] & w2 & (_ & _ & H1)%on_play_inv
    & ([b2 m2] & w3 & (_ & H2)%on_move_inv
    & ([] & w4 & _ & Hf)%bind_Val_inv)%bind_Val_inv)%bind_Val_inv)%bind_Val_inv.
  simpl in *. exists b2, w4. split.
  { destruct H1 as [->|H1], H2 as [->|H2];
      [done | by apply rtc_once.. | by eapply rtc_l, rtc_once]. }
  rewrite finish_eq in Hf. destruct (is_winning b2 _); simplify_eq; eauto 8.
Qed.
End handlers.

(** ** The invariant of a session *)

Section session.
Implicit Types (board b : Board) (piece : pyval) (move : option Z) (w : world).

Lemma played_reachable piece b b' :
  rtc (played piece) b b' → reachable b → reachable b'.
Proof.
  induction 1 as [|b b1 b' [col Hp] _ IH]; [done|]. intros Hb.
  apply IH. by eapply reachable_play.
Qed.

Lemma played_no_new_win piece q b b' :
  q ≠ PyStr (py_str piece) → rtc (played piece) b b' →
  is_winning b q = false → is_winning b' q = false.
Proof.
  intros Hq. induction 1 as [|b b1 b' [col Hp] _ IH]; [done|]. intros Hw.
  apply IH. by eapply play_no_new_win.
Qed.

Lemma player_mark piece :
  piece = PyInt 0 ∨ piece = PyInt 1 → PyStr (py_str piece) = mark (player piece).
Proof. by intros [-> | ->]. Qed.

Lemma played_refines piece b b' :
  piece = PyInt 0 ∨ piece = PyInt 1 → rtc (played piece) b b' →
  (∃ s, refines b s) → ∃ s', refines b' s'.
Proof.
  intros Hp. induction 1 as [|b b1 b' [col Hplay] _ IH]; [done|].
  intros [s Hs]. apply IH.
  pose proof (refines_play b s col piece (player piece) Hs) as Hshows.
  rewrite Hplay in Hshows. unfold shows in Hshows.
  destruct (drop_piece s col (player piece)) as [s'|];
    [exists s' | exfalso]; apply Hshows; by destruct Hp as [-> | ->].
Qed.

Lemma start_new_ok : session_ok init (PyInt 0).
Proof.
  split_and!; [constructor | by left | done | done|].
  exists empty. apply refines_init.
Qed.

Lemma change_turn_int piece :
  change_turn piece = PyInt 0 ∨ change_turn piece = PyInt 1.
Proof. unfold change_turn. case_bool; auto. Qed.

Lemma iteration_session_ok nested board piece move b' p' m' w w' :
  session_ok board piece →
  iteration nested board piece move w = Val (Some (b', p', m'), w') →
  session_ok b' p'.
Proof.
  intros (Hr & Hp & H0 & H1 & Hs) (b2 & w1 & Hrtc & [[? _]|Ht])%iteration_inv;
    [done|].
  destruct Ht as (command & m2 & [= -> -> ->] & Hw & _).
  split_and!; [by eapply played_reachable | apply change_turn_int
              | | | by eapply played_refines];
    destruct Hp as [-> | ->]; try done;
    by eapply played_no_new_win; [|done..].
Qed.
End session.

(** ** The loop as a whole *)

Section whole.
Implicit Types (board b : Board) (piece : pyval) (move : option Z) (w : world).

Lemma iteration_eq nested board piece move line rest out g :
  iteration nested board piece move (mkWorld (line :: rest) out g)
  = bind (on_play (strip line) board piece move) (λ bm,
      bind (on_move (strip line) bm.1 piece bm.2) (λ bm,
        bind (on_reset (strip line) nested) (λ _,
          finish (strip line) bm.1 piece bm.2)))
      (mkWorld rest out g).
Proof. done. Qed.

(** A session that returns ended on a win of the piece that moved. *)
Lemma loop_returns_won fuel board piece move w w' :
  session_ok board piece → loop fuel board piece move w = Val ((), w') →
  ∃ b p w1, reachable b ∧ (p = PyInt 0 ∨ p = PyInt 1)
    ∧ (∃ s, refines b s ∧ wins s (player p))
    ∧ w' = printed (game_over_lines b p) w1.
Proof.
  revert board piece move w.
  induction fuel as [|fuel IH]; intros board piece move w Hok; [done|].
  rewrite loop_unfold. intros ([[[b p] m]|] & w1 & Hit & Hk)%bind_Val_inv.
  - eapply IH; [|done]. by eapply iteration_session_ok.
  - apply iteration_inv in Hit
      as (b2 & w2 & Hrtc & [(_ & Hw & ->)|(? & ? & [=] & _)]).
    injection Hk as [= <-]. destruct Hok as (Hr & Hp & _ & _ & Hs).
    exists b2, piece, w2. split_and!; [by eapply played_reachable|done| |done].
    destruct (played_refines _ _ _ Hp Hrtc Hs) as [s2 Hs2]. exists s2.
    split; [done|]. rewrite (player_mark _ Hp) in Hw.
    rewrite (refines_is_winning _ _ _ Hs2) in Hw.
    by apply bool_decide_eq_true in Hw.
Qed.

Lemma loop_eof fuel board piece move out g :
  loop (S fuel) board piece move (mkWorld [] out g) = Exc EOFError.
Proof. done. Qed.

(** On a board with a free column and no winner [PLAY] plays a piece. *)
Lemma on_play_plays command board piece move w :
  contains "PLAY" command = true →
  is_terminal_node board = false →
  ∃ col b' g', play board col piece = Ok b'
    ∧ on_play command board piece move w
      = Val ((b', Some col), mkWorld (stdin w) (stdout w) g').
Proof.
  intros Hc Ht. unfold on_play, bind, with_rng. rewrite Hc.
  destruct (choose_returns board 5 piece ltac:(lia) (gen w))
    as ([v c] & g' & -> & _ & Hm).
  destruct c as [col|]; simpl in Hm; [|destruct Hm; [lia|congruence]].
  destruct Hm as (_ & _ & Hcol).
  destruct (proj1 (is_ok_true _) (play_valid_ok board col piece Hcol))
    as [b' Hb']. exists col, b', g'. simpl. by rewrite Hb'.
Qed.

(** On a full board [minimax] returns no column and [play] raises. *)
Lemma on_play_full command board piece move w :
  contains "PLAY" command = true → get_valid_locations board = [] →
  on_play command board piece move w = Exc TypeError.
Proof.
  intros Hc Hfull. unfold on_play, bind, with_rng, choose. rewrite Hc.
  rewrite minimax_terminal_eq; [done|].
  rewrite is_terminal_node_board, Hfull. apply orb_true_r.
Qed.
End whole.

(** ** A game of the engine against itself *)

Section self_play.
Implicit Types (board b : Board) (piece : pyval) (move : option Z).

Lemma iteration_play nested board piece move line rest out g :
  session_ok board piece → get_valid_locations board ≠ [] →
  contains "PLAY" (strip line) = true →
  contains "MOVE" (strip line) = false →
  contains "RESET" (strip line) = false →
  ∃ col b' g', play board col piece = Ok b'
    ∧ iteration nested board piece move (mkWorld (line :: rest) out g)
      = finish (strip line) b' piece (Some col) (mkWorld rest out g').
Proof.
  intros (_ & _ & H0 & H1 & _) Hfree Hp Hm Hr.
  destruct (on_play_plays (strip line) board piece move (mkWorld rest out g) Hp)
    as (col & b' & g' & Hplay & Hon).
  { rewrite is_terminal_node_board, H0, H1. simpl.
    apply Nat.eqb_neq. by destruct (get_valid_locations board). }
  exists col, b', g'. split; [done|]. rewrite iteration_eq.
  unfold bind at 1. rewrite Hon. unfold on_move, on_reset, bind.
  by rewrite Hm, Hr.
Qed.

Lemma iteration_play_full nested board piece move line rest out g :
  contains "PLAY" (strip line) = true → get_valid_locations board = [] →
  iteration nested board piece move (mkWorld (line :: rest) out g)
  = Exc TypeError.
Proof.
  intros Hp Hfull. rewrite iteration_eq. unfold bind at 1.
  by rewrite on_play_full.
Qed.

(** Every [PLAY] fills a cell: with more [PLAY] lines than empty cells
    the loop ends before it runs out of lines. *)
Lemma loop_play_ends n fuel board piece move out g :
  session_ok board piece → count_empty board < n → n < fuel →
  (∃ w', loop fuel board piece move (mkWorld (replicate n "PLAY") out g)
         = Val ((), w'))
  ∨ loop fuel board piece move (mkWorld (replicate n "PLAY") out g)
    = Exc TypeError.
Proof.
  revert fuel board piece move out g.
  induction n as [|n IH]; intros fuel board piece move out g Hok Hn Hfuel;
    [lia|].
  destruct fuel as [|fuel]; [lia|]. rewrite loop_unfold. cbn [replicate].
  destruct (decide (get_valid_locations board = [])) as [Hfull|Hfree].
  { right. unfold bind. by rewrite iteration_play_full. }
  destruct (iteration_play (main fuel) board piece move "PLAY"
              (replicate n "PLAY") out g Hok Hfree)
    as (col & b' & g' & Hplay & Hit); [done..|].
  rewrite finish_eq in Hit. unfold bind.
  destruct (is_winning b' (PyStr (py_str piece))) eqn:Hw; rewrite Hit;
    [left; eauto|].
  apply IH; [by eapply iteration_session_ok | | lia].
  destruct Hok as (_ & Hp & _).
  apply play_count_empty in Hplay; [lia|]. by destruct Hp as [-> | ->].
Qed.
End self_play.

(** ** The text of a MOVE command *)

Section move_line.

Lemma move_line_contains o old (col : Z) :
  is_int_char o = false → (o ≠ "M")%char → (o ≠ "O")%char → (o ≠ "V")%char →
  (o ≠ "E")%char → (o ≠ ":")%char →
  contains (String o old) ("MOVE:" +:+ py_str (PyInt col)) = false.
Proof.
  intros Ho ?????.
  change ("MOVE:" +:+ py_str (PyInt col))
    with (String "M" (String "O" (String "V" (String "E" (String ":"
            (py_str (PyInt col))))))).
  cbn [contains]. rewrite !prefix_first by done.
  rewrite (contains_all is_int_char);
    eauto using is_int_char_not_letter, pretty_Z_chars.
Qed.

(** What the handlers see of the line [MOVE:] followed by an int. *)
Lemma move_line (col : Z) :
  let line := "MOVE:" +:+ py_str (PyInt col) in
  strip line = line
  ∧ contains "PLAY" line = false ∧ contains "MOVE" line = true
  ∧ contains "RESET" line = false
  ∧ int_of_str (replace "MOVE:" "" line) = Ok col.
Proof.
  intros line. subst line. split_and!.
  - apply (strip_all (λ c, negb (is_space c))).
    { by intros c ?%negb_true_iff. }
    rewrite all_chars_app. apply andb_true_iff. split; [done|].
    eapply all_chars_impl; [|apply pretty_Z_chars].
    intros c ?%is_int_char_not_space. by apply negb_true_iff.
  - by apply move_line_contains.
  - done.
  - by apply move_line_contains.
  - rewrite replace_prefix. change ("" +:+ ?x) with x.
    rewrite (replace_all is_int_char);
      eauto using is_int_char_not_letter, pretty_Z_chars.
    apply int_of_str_pretty.
Qed.
End move_line.

(** * Properties *)

Section properties.
Implicit Types (board b : Board) (piece : pyval) (move : option Z) (w : world).

(** C13 (termination). On a finite input [main] halts: with more fuel than
    there are lines to read it returns or raises, whatever the commands,
    nested [RESET]s included; the searches it runs never exhaust theirs. *)
Theorem main_terminates fuel w :
  length (stdin w) < fuel → main fuel w ≠ OutOfFuel.
Proof. apply loop_fueled. Qed.

(** The outcome of [main] (result, output, lines left,
    generator) is the same for any two amounts of fuel above the number
    of lines. *)
Theorem main_fuel_irrelevant fuel fuel' w :
  length (stdin w) < fuel → length (stdin w) < fuel' →
  main fuel w = main fuel' w.
Proof.
  intros Hf Hf'. set (n := S (length (stdin w))).
  pose proof (loop_fueled n init (PyInt 0) None w ltac:(lia)) as Hn.
  rewrite <-(below_defined _ _ (main_fuel_le n fuel ltac:(lia) w) Hn).
  by rewrite <-(below_defined _ _ (main_fuel_le n fuel' ltac:(lia) w) Hn).
Qed.

(** C14 (safety). [main] returns only on a win: if it returns, the last
    two texts it printed are a board reached by legal moves and the
    game-over line of the piece that moved last, and in the state of the
    specification's game that the board shows the player of that piece
    has four in a line.  A draw never ends the program normally. *)
Theorem main_returns_on_win fuel w w' :
  main fuel w = Val ((), w') →
  ∃ b p out, reachable b ∧ (p = PyInt 0 ∨ p = PyInt 1)
    ∧ (∃ s, refines b s ∧ wins s (player p))
    ∧ stdout w' = out ++ game_over_lines b p.
Proof.
  intros (b & p & w1 & ? & ? & ? & ->)%(loop_returns_won _ _ _ _ _ _ start_new_ok).
  by exists b, p, (stdout w1).
Qed.

(** C15 (invariant). The invariant of a session: if at the head of the
    loop the board was reached by legal moves, the piece is the int 0 or
    1 and neither ['0'] nor ['1'] has four in a row, the same holds after
    an iteration that does not end the game, whatever the command and
    whatever a nested session did. *)
Theorem session_invariant nested board piece move b' p' m' w w' :
  session_ok board piece →
  iteration nested board piece move w = Val (Some (b', p', m'), w') →
  session_ok b' p'.
Proof. apply iteration_session_ok. Qed.

(** C37 (functional). [MOVE:n]: on a command with the keyword [MOVE]
    only, whose text without ["MOVE:"] is the int [col], the iteration
    raises what [play(col, piece)] raises; otherwise it plays the piece,
    then either ends the game with the two game-over lines or records
    the move, changes the turn and prints the command, the board and the
    history. *)
Theorem move_command nested board piece move line rest out g col :
  contains "PLAY" (strip line) = false →
  contains "MOVE" (strip line) = true →
  contains "RESET" (strip line) = false →
  int_of_str (replace "MOVE:" "" (strip line)) = Ok col →
  iteration nested board piece move (mkWorld (line :: rest) out g)
  = match play board col piece with
    | Raise e => Exc e
    | Ok b' =>
        if is_winning b' (PyStr (py_str piece)) then
          Val (None, mkWorld rest (out ++ game_over_lines b' piece) g)
        else
          Val (Some (b', change_turn piece, Some col),
               mkWorld rest (out ++ turn_lines (strip line) b') g)
    end.
Proof.
  intros Hp Hm Hr Hcol. rewrite iteration_eq.
  unfold on_play, on_move, on_reset, bind. rewrite Hp, Hm, Hr, Hcol. simpl.
  destruct (play board col piece) as [b'|e]; [simpl|done].
  by rewrite finish_eq.
Qed.

(** [PLAY]: in a session that satisfies the invariant and
    on a board with a free column, a command with the keyword [PLAY] only
    never raises: the search returns a column, [play] accepts it, and the
    iteration goes on as after a [MOVE] of that column, the generator
    advanced. *)
Theorem play_command nested board piece move line rest out g :
  session_ok board piece → get_valid_locations board ≠ [] →
  contains "PLAY" (strip line) = true →
  contains "MOVE" (strip line) = false →
  contains "RESET" (strip line) = false →
  ∃ col b' g', play board col piece = Ok b'
    ∧ iteration nested board piece move (mkWorld (line :: rest) out g)
      = finish (strip line) b' piece (Some col) (mkWorld rest out g').
Proof. apply iteration_play. Qed.

(** C38 (error). [PLAY] on a full board: [minimax] returns no column,
    [main] passes [None] to [play] and the comparison [0 <= None] raises
    [TypeError]. *)
Theorem play_on_full_board nested board piece move line rest out g :
  get_valid_locations board = [] →
  contains "PLAY" (strip line) = true →
  iteration nested board piece move (mkWorld (line :: rest) out g)
  = Exc TypeError.
Proof.
  intros Hfull Hp. rewrite iteration_eq. unfold bind at 1.
  by rewrite on_play_full.
Qed.

(** C39 (functional). [RESET] does not reset: on a command with the
    keyword [RESET] only, [main] runs a nested session on the rest of the
    input, and when that session has ended the iteration goes on with the
    board, the move and the piece it had, changes the turn and prints. *)
Theorem reset_resumes_session nested board piece move line rest out g w1 :
  contains "PLAY" (strip line) = false →
  contains "MOVE" (strip line) = false →
  contains "RESET" (strip line) = true →
  is_winning board (PyStr (py_str piece)) = false →
  nested (mkWorld rest out g) = Val ((), w1) →
  iteration nested board piece move (mkWorld (line :: rest) out g)
  = Val (Some (board, change_turn piece, move),
         printed (turn_lines (strip line) board) w1).
Proof.
  intros Hp Hm Hr Hw Hn. rewrite iteration_eq.
  unfold on_play, on_move, on_reset, bind. rewrite Hp, Hm, Hr. simpl.
  rewrite Hn. by rewrite finish_eq, Hw.
Qed.

(** A line with none of the three keywords, the empty
    line included, passes the turn: no piece is played, the turn
    changes, and the command, the board and the history are printed. *)
Theorem unknown_command_passes_turn nested board piece move line rest out g :
  contains "PLAY" (strip line) = false →
  contains "MOVE" (strip line) = false →
  contains "RESET" (strip line) = false →
  is_winning board (PyStr (py_str piece)) = false →
  iteration nested board piece move (mkWorld (line :: rest) out g)
  = Val (Some (board, change_turn piece, move),
         mkWorld rest (out ++ turn_lines (strip line) board) g).
Proof.
  intros Hp Hm Hr Hw. rewrite iteration_eq.
  unfold on_play, on_move, on_reset, bind. rewrite Hp, Hm, Hr. simpl.
  by rewrite finish_eq, Hw.
Qed.

(** [change_turn] alternates the ints 0 and 1, and
    sends every other value to 0. *)
Theorem change_turn_alternates piece :
  change_turn (PyInt 0) = PyInt 1 ∧ change_turn (PyInt 1) = PyInt 0
  ∧ (piece ≠ PyInt 0 → change_turn piece = PyInt 0).
Proof.
  split_and!; [done..|]. intros Hp. unfold change_turn, py_eq.
  by rewrite bool_decide_eq_false_2.
Qed.

(** A whole session: on the seven moves of
    [game_lines] the two players alternate, the first wins on the bottom
    row with the seventh move, and [main] returns after printing six
    times three lines and the two game-over lines. *)
Example session_game :
  ∃ w', main 8 (world0 game_lines) = Val ((), w')
    ∧ stdin w' = [] ∧ length (stdout w') = 20
    ∧ take 3 (stdout w') = turn_lines "MOVE:0" (board_after [(0%Z, PyInt 0)])
    ∧ drop 18 (stdout w')
      = game_over_lines
          (board_after (zip [0; 0; 1; 1; 2; 2; 3]%Z (cycle_pieces 7)))
          (PyInt 0).
Proof. eexists. split; [vm_compute; reflexivity | by vm_compute]. Qed.

(** A drawn game: the forty-two moves of [draw_lines] fill
    the board without a winner, the loop goes on, and a [PLAY] then makes
    [main] raise [TypeError]; without it [main] raises [EOFError].  The
    program never reports a draw. *)
Example session_draw :
  get_valid_locations draw_board = []
  ∧ main 44 (world0 (draw_lines ++ ["PLAY"])) = Exc TypeError
  ∧ main 44 (world0 draw_lines) = Exc EOFError.
Proof. by vm_compute. Qed.

(** The end of the game the engine plays against itself.  After ten
    moves the second player has three pieces stacked in column 3 and the
    first player is to move.  Its search takes its own mark for the
    opponent's, so the [PLAY] command puts its piece into column 0
    instead of column 3, and the next [PLAY] command wins the game for
    the second player.  (Twelve [PLAY] commands from the empty board
    give the same twelve columns; the ten searches of the opening are
    replaced by [MOVE] commands here to keep the replay short.) *)
Example self_play_game :
  ∃ w', main 13 (world0 self_play_lines) = Val ((), w')
    ∧ stdin w' = []
    ∧ drop (length (stdout w') - 2) (stdout w')
      = game_over_lines (self_play_board 12) (PyInt 1)
    ∧ history (self_play_board 12)
      = zip (cycle_pieces 12) self_play_columns
    ∧ ∃ b, play (self_play_board 10) 3 (PyInt 0) = Ok b
           ∧ is_winning (self_play_board 12) (PyStr "1") = true
           ∧ is_winning b (PyStr "1") = false
           ∧ get_valid_locations b ≠ [].
Proof.
  eexists. split; [vm_compute; reflexivity|].
  split_and!; [by vm_compute..|]. eexists. by vm_compute.
Qed.

(** The end of a game that is a draw, six moves before the board is
    full: searched without a horizon (depth -1) the position is worth
    0, the value of exhaustive minimax to the end of the game; the
    depth 5 of [main] stops one move short of it and returns a centre
    count. *)
Example endgame_solved :
  count_empty endgame_board = 6
  ∧ run (minimax 43 endgame_board (-1) NegInf PosInf true (mark PlayerA)) rng0
    = Val (Fin 0, Some 5%Z)
  ∧ value 42 endgame_state true PlayerA = Fin 0
  ∧ run (choose endgame_board 5 (mark PlayerA)) rng0 = Val (Fin 9, Some 5%Z).
Proof. by vm_compute. Qed.

Lemma endgame_refines : refines endgame_board endgame_state.
Proof.
  pose proof (refines_play_all endgame_moves init empty refines_init) as H.
  assert (same_grid (board_after (marked endgame_moves)) endgame_board) as <-
    by (by split).
  unfold board_after. by destruct (play_all _ _).
Qed.

(** C31 (roundtrip). The column of a [MOVE] command is read back: for
    every int [col], the line [MOVE:] followed by [str(col)] is left as
    it is by [strip], triggers neither the [PLAY] nor the [RESET]
    handler, and the [MOVE] handler gets [col] back from
    [int(command.replace("MOVE:", ""))] and plays it. *)
Theorem move_roundtrip nested board piece move col :
  let line := "MOVE:" +:+ py_str (PyInt col) in
  strip line = line
  ∧ on_play line board piece move = ret (board, move)
  ∧ on_move line board piece move
    = (board' <- lift (play board col piece) ;; ret (board', Some col))%py
  ∧ on_reset line nested = ret ().
Proof.
  intros line. destruct (move_line col) as (Hs & Hp & Hm & Hr & Hint).
  fold line in Hs, Hp, Hm, Hr, Hint.
  unfold on_play, on_move, on_reset. by rewrite Hp, Hm, Hr, Hint.
Qed.
(** C30 (liveness). A game of the engine against itself ends: on more
    than 42 [PLAY] lines, and with fuel for them, [main] returns, which
    it does only on a win, or raises the [TypeError] of a [PLAY] on a
    full board.  It never reaches the end of the input ([EOFError]):
    every [PLAY] fills a cell. *)
Theorem self_play_ends n fuel out g :
  ROWS * COLS < n → n < fuel →
  (∃ w', main fuel (mkWorld (replicate n "PLAY") out g) = Val ((), w'))
  ∨ main fuel (mkWorld (replicate n "PLAY") out g) = Exc TypeError.
Proof.
  intros Hn Hfuel. apply loop_play_ends; [apply start_new_ok | | done].
  pose proof (count_empty_le init init_shape). lia.
Qed.
End properties.

(** * Witnesses *)

Lemma main_terminates_witness :
  main 3 (world0 ["MOVE:3"; "RESET"]) ≠ OutOfFuel.
Proof. apply main_terminates. simpl. lia. Defined.

Lemma main_fuel_irrelevant_witness :
  main 3 (world0 ["MOVE:3"; "RESET"]) = main 7 (world0 ["MOVE:3"; "RESET"]).
Proof. apply main_fuel_irrelevant; simpl; lia. Defined.

Lemma main_returns_on_win_witness :
  ∃ w', main 8 (world0 game_lines) = Val ((), w')
    ∧ ∃ b p out, reachable b ∧ (p = PyInt 0 ∨ p = PyInt 1)
        ∧ (∃ s, refines b s ∧ wins s (player p))
        ∧ stdout w' = out ++ game_over_lines b p.
Proof.
  eexists. split; [vm_compute; reflexivity|].
  apply (main_returns_on_win 8 (world0 game_lines)). vm_compute. reflexivity.
Defined.

Lemma session_invariant_witness :
  ∃ b' w', iteration (main 0) init (PyInt 0) None (world0 ["MOVE:3"])
           = Val (Some (b', PyInt 1, Some 3%Z), w')
    ∧ session_ok b' (PyInt 1).
Proof.
  eexists _, _. split; [vm_compute; reflexivity|].
  eapply (session_invariant (main 0) init (PyInt 0) None _ _ _
            (world0 ["MOVE:3"]));
    [apply start_new_ok | vm_compute; reflexivity].
Defined.

Lemma move_command_witness :
  iteration (main 0) init (PyInt 0) None (mkWorld ["MOVE:3"] [] rng0)
  = match play init 3 (PyInt 0) with
    | Raise e => Exc e
    | Ok b' =>
        if is_winning b' (PyStr (py_str (PyInt 0))) then
          Val (None, mkWorld [] ([] ++ game_over_lines b' (PyInt 0)) rng0)
        else
          Val (Some (b', change_turn (PyInt 0), Some 3%Z),
               mkWorld [] ([] ++ turn_lines (strip "MOVE:3") b') rng0)
    end.
Proof. apply move_command; reflexivity. Defined.

Lemma play_command_witness :
  ∃ col b' g', play init col (PyInt 0) = Ok b'
    ∧ iteration (main 0) init (PyInt 0) None (mkWorld ["PLAY"] [] rng0)
      = finish (strip "PLAY") b' (PyInt 0) (Some col) (mkWorld [] [] g').
Proof.
  apply play_command; [apply start_new_ok | by vm_compute | reflexivity..].
Defined.

Lemma play_on_full_board_witness :
  iteration (main 0) draw_board (PyInt 0) None (mkWorld ["PLAY"] [] rng0)
  = Exc TypeError.
Proof. apply play_on_full_board; reflexivity. Defined.

Lemma reset_resumes_session_witness :
  ∃ w1, main 8 (mkWorld game_lines [] rng0) = Val ((), w1)
    ∧ iteration (main 8) (board_after [(3%Z, PyInt 0)]) (PyInt 1) (Some 3%Z)
        (mkWorld ("RESET" :: game_lines) [] rng0)
      = Val (Some (board_after [(3%Z, PyInt 0)], change_turn (PyInt 1),
                   Some 3%Z),
             printed (turn_lines (strip "RESET")
                        (board_after [(3%Z, PyInt 0)])) w1).
Proof.
  eexists. split; [vm_compute; reflexivity|].
  apply reset_resumes_session; [reflexivity..|vm_compute; reflexivity].
Defined.

Lemma unknown_command_passes_turn_witness :
  iteration (main 0) init (PyInt 0) None (mkWorld [" hello "] [] rng0)
  = Val (Some (init, change_turn (PyInt 0), None),
         mkWorld [] ([] ++ turn_lines (strip " hello ") init) rng0).
Proof. apply unknown_command_passes_turn; reflexivity. Defined.

Lemma change_turn_alternates_witness :
  change_turn (PyInt 0) = PyInt 1 ∧ change_turn (PyInt 1) = PyInt 0
  ∧ (PyStr "0" ≠ PyInt 0 → change_turn (PyStr "0") = PyInt 0).
Proof. apply change_turn_alternates. Defined.

Lemma self_play_ends_witness :
  (∃ w', main 44 (mkWorld (replicate 43 "PLAY") [] rng0) = Val ((), w'))
  ∨ main 44 (mkWorld (replicate 43 "PLAY") [] rng0) = Exc TypeError.
Proof. apply self_play_ends; unfold ROWS, COLS; lia. Defined.
