(* ===== verification/Session.v ===== *)
(** * Session: [main] on objects

    [Driver] runs [main] on board values.  In [src/main.py] the board of
    a session is one object: [start_new] makes it with [Board()], the
    [PLAY] and [MOVE] handlers call [board.play] on it, which writes into
    it, [minimax] is handed the object and copies it, and [RESET] runs a
    new session with a new object while the old one is kept.  This file
    writes the driver with the store of [Store] beside the world and
    proves that it reads, prints, draws and raises exactly as [main] of
    [Driver] does: a session changes the objects of its own board and
    nothing else that existed, so the board of the session that called
    it is still what it was. *)

From S2P Require Import Prelude Python Board Win Eval Search Engine Store.
From S2P Require Import Spec Driver.

(** ** The state: the store and the world *)

Definition IOS : Type → Type := ST (heap * world).

Definition in_world {A} (m : IO A) : IOS A :=
  λ s, match m s.2 with
       | Val (a, w') => Val (a, (s.1, w'))
       | Exc e => Exc e
       | OutOfFuel => OutOfFuel
       end.

Definition in_store {A} (m : ST heap A) : IOS A :=
  λ s, match m s.1 with
       | Val (a, h') => Val (a, (h', s.2))
       | Exc e => Exc e
       | OutOfFuel => OutOfFuel
       end.

(** The search runs on the store and on the generator of the world. *)
Definition in_search {A} (m : ST (heap * rng) A) : IOS A :=
  λ s, match m (s.1, gen s.2) with
       | Val (a, (h', g)) => Val (a, (h', mkWorld (stdin s.2) (stdout s.2) g))
       | Exc e => Exc e
       | OutOfFuel => OutOfFuel
       end.

(** ** The functions of the driver *)

Definition end_logic_obj (board : loc) (piece : pyval) : IOS bool :=
  (win <- in_store (method (λ bd, is_winning bd (PyStr (py_str piece))) board) ;;
   if win : bool then
     text <- in_store (method print_board board) ;;
     _ <- in_world (print text) ;;
     _ <- in_world (print ("Game over: " +:+ py_str piece +:+ " won")) ;;
     ret true
   else ret false)%py.

(** The text of [board.print_board()] is dropped. *)
Definition start_new_obj : IOS (loc * pyval * option Z) :=
  (board <- in_store new_board ;;
   _ <- in_store (method print_board board) ;;
   ret (board, PyInt 0, None))%py.

(** [board.play(move, piece)] with the column [minimax] returned. *)
Definition play_move_obj (board : loc) (move : option Z) (piece : pyval)
    : ST heap unit :=
  match move with
  | Some col => play_obj board col piece
  | None => raise TypeError
  end.

Definition on_play_obj (command : string) (board : loc) (piece : pyval)
    (move : option Z) : IOS (option Z) :=
  if contains "PLAY" command then
    (r <- in_search (minimax_obj (S (Z.to_nat 5)) board 5 NegInf PosInf true
                       piece) ;;
     _ <- in_store (play_move_obj board r.2 piece) ;;
     ret r.2)%py
  else ret move.

Definition on_move_obj (command : string) (board : loc) (piece : pyval)
    (move : option Z) : IOS (option Z) :=
  if contains "MOVE" command then
    (player_choice <- in_world (lift (int_of_str (replace "MOVE:" "" command))) ;;
     _ <- in_store (play_obj board player_choice piece) ;;
     ret (Some player_choice))%py
  else ret move.

Definition on_reset_obj (command : string) (nested : IOS unit) : IOS unit :=
  if contains "RESET" command then nested else ret ().

Definition finish_obj (command : string) (board : loc) (piece : pyval)
    (move : option Z) : IOS (option (pyval * option Z)) :=
  (won <- end_logic_obj board piece ;;
   if won : bool then ret None
   else
     let piece := change_turn piece in
     _ <- in_world (print command) ;;
     text <- in_store (method print_board board) ;;
     _ <- in_world (print text) ;;
     hist <- in_store (method (λ bd, repr_history (history bd)) board) ;;
     _ <- in_world (print hist) ;;
     ret (Some (piece, move)))%py.

Definition iteration_obj (nested : IOS unit) (board : loc) (piece : pyval)
    (move : option Z) : IOS (option (pyval * option Z)) :=
  (line <- in_world input ;;
   let command := strip line in
   move <- on_play_obj command board piece move ;;
   move <- on_move_obj command board piece move ;;
   _ <- on_reset_obj command nested ;;
   finish_obj command board piece move)%py.

Fixpoint loop_obj (fuel : nat) (board : loc) (piece : pyval) (move : option Z)
    : IOS unit :=
  match fuel with
  | 0 => out_of_fuel
  | S fuel' =>
      (r <- iteration_obj
              (x <- start_new_obj ;; loop_obj fuel' x.1.1 x.1.2 x.2)
              board piece move ;;
       match r with
       | None => ret ()
       | Some (piece', move') => loop_obj fuel' board piece' move'
       end)%py
  end.

Definition main_obj (fuel : nat) : IOS unit :=
  (x <- start_new_obj ;; loop_obj fuel x.1.1 x.1.2 x.2)%py.

(** ** Specification vocabulary *)

(** From [h] to [h'] the store has grown, and the objects that existed,
    other than those at [fp], are what they were. *)
Definition changes_only (fp : list loc) (h h' : heap) : Prop :=
  length h ≤ length h' ∧ ∀ l, l < length h → l ∉ fp → h' !! l = h !! l.

(** The board of a session: the object at [b] holds [bd] and is made of
    the objects at [fp]. *)
Definition live (b : loc) (fp : list loc) (h : heap) (bd : Board) : Prop :=
  holds h b bd ∧ footprint h b = fp.

(** [m'], on the store [h] and a world, does what [m] does on the world,
    and writes to the objects at [fp] only. *)
Definition ssim {A' A : Type} (R : heap → A' → A → Prop) (fp : list loc)
    (h : heap) (m' : IOS A') (m : IO A) : Prop :=
  ∀ w, match m w with
       | Val (a, w') =>
           ∃ a' h', m' (h, w) = Val (a', (h', w')) ∧ changes_only fp h h'
                    ∧ R h' a' a
       | Exc e => m' (h, w) = Exc e
       | OutOfFuel => m' (h, w) = OutOfFuel
       end.

(** * Lemmas *)

Section frames.
Implicit Types (h : heap) (b l : loc) (bd : Board) (fp : list loc).

Lemma changes_only_refl fp h : changes_only fp h h.
Proof. by split. Qed.

Lemma changes_only_trans fp h1 h2 h3 :
  changes_only fp h1 h2 → changes_only fp h2 h3 → changes_only fp h1 h3.
Proof.
  intros [Hl1 H1] [Hl2 H2]. split; [lia|]. intros l Hl Hfp.
  rewrite H2, H1 by (done || lia). done.
Qed.

Lemma changes_only_prefix fp h h' : h `prefix_of` h' → changes_only fp h h'.
Proof.
  intros Hp. split; [by apply prefix_length|]. intros l Hl _.
  destruct (lookup_lt_is_Some_2 h l Hl) as [x Hx]. rewrite Hx.
  by eapply prefix_lookup_Some.
Qed.

Lemma changes_only_weaken fp h h' : changes_only [] h h' → changes_only fp h h'.
Proof.
  intros [Hl Hag]. split; [done|]. intros l ? _. apply Hag; [done|].
  apply not_elem_of_nil.
Qed.

(** Changes to fresh objects only are no changes to what existed. *)
Lemma changes_only_fresh fp h h1 h2 :
  h `prefix_of` h1 → Forall (λ l, length h ≤ l) fp →
  changes_only fp h1 h2 → changes_only [] h h2.
Proof.
  intros Hp Hfresh [Hl Hag]. pose proof (prefix_length _ _ Hp).
  split; [lia|]. intros l Hlt _. rewrite Hag; [| lia |].
  - destruct (lookup_lt_is_Some_2 h l Hlt) as [x Hx]. rewrite Hx.
    by eapply prefix_lookup_Some.
  - intros Hin. apply (proj1 (Forall_forall _ _) Hfresh) in Hin.
    cbv beta in Hin. lia.
Qed.

(** The board of a session lives through what happens to other objects. *)
Lemma live_unchanged b fp h h' bd :
  live b fp h bd → changes_only [] h h' → live b fp h' bd.
Proof.
  intros [Hb <-] [_ Hag].
  assert (∀ l, l ∈ footprint h b → h' !! l = h !! l) as Hfp.
  { intros l Hl. apply Hag; [|apply not_elem_of_nil].
    by apply (proj1 (Forall_forall _ _) (footprint_lt _ _ _ Hb)). }
  split; [by eapply holds_agree|].
  destruct (holds_repr _ _ _ Hb) as (g & hl & vl & rs & Hr & _).
  rewrite (repr_footprint _ _ _ _ _ _ _ Hr) in Hfp |- *.
  by eapply repr_footprint, repr_agree.
Qed.

Lemma live_prefix b fp h h' bd :
  live b fp h bd → h `prefix_of` h' → live b fp h' bd.
Proof. intros Hb Hp. eapply live_unchanged; [done|]. by apply changes_only_prefix. Qed.
End frames.

(** ** Rules *)

Section rules.
Implicit Types (h : heap) (b : loc) (bd : Board) (fp : list loc).

Lemma ssim_ret {A' A} (R : heap → A' → A → Prop) fp h a' a :
  R h a' a → ssim R fp h (ret a') (ret a).
Proof. intros HR w. exists a', h. eauto using changes_only_refl. Qed.

Lemma ssim_out_of_fuel {A' A} (R : heap → A' → A → Prop) fp h :
  ssim R fp h out_of_fuel out_of_fuel.
Proof. by intros w. Qed.

Lemma ssim_bind {A' A B' B} (R : heap → A' → A → Prop)
    (S : heap → B' → B → Prop) fp h m' m k' k :
  ssim R fp h m' m →
  (∀ h' a' a, R h' a' a → ssim S fp h' (k' a') (k a)) →
  ssim S fp h (bind m' k') (bind m k).
Proof.
  intros Hm Hk w. unfold bind. specialize (Hm w).
  destruct (m w) as [[a w1]| |]; [|by rewrite Hm..].
  destruct Hm as (a' & h1 & -> & Hc & HR).
  specialize (Hk h1 a' a HR w1).
  destruct (k a w1) as [[c w2]| |]; [|done..].
  destruct Hk as (c' & h2 & -> & Hc2 & HS).
  exists c', h2. eauto using changes_only_trans.
Qed.

Lemma ssim_mono {A' A} (R S : heap → A' → A → Prop) fp h m' m :
  ssim R fp h m' m → (∀ h' a' a, R h' a' a → S h' a' a) → ssim S fp h m' m.
Proof.
  intros Hm HRS w. specialize (Hm w). destruct (m w) as [[a w1]| |]; [|done..].
  destruct Hm as (a' & h' & ? & ? & ?). eauto 6.
Qed.

(** A step of the world alone. *)
Lemma ssim_world {A} (m : IO A) (R : heap → A → A → Prop) fp h :
  (∀ a, R h a a) → ssim R fp h (in_world m) m.
Proof.
  intros HR w. unfold in_world. cbn [fst snd].
  destruct (m w) as [[a w']| |]; [|done..].
  exists a, h. eauto using changes_only_refl.
Qed.

(** A method that only reads is a step of the store side alone. *)
Lemma ssim_read {A' A C} (R : heap → A' → A → Prop) (f : Board → C)
    fp h b bd (k' : C → IOS A') (m : IO A) :
  live b fp h bd → ssim R fp h (k' (f bd)) m →
  ssim R fp h (bind (in_store (method f b)) k') m.
Proof.
  intros [Hb _] Hk w. unfold bind, in_store. cbn [fst snd].
  rewrite (method_holds _ _ _ _ Hb). apply Hk.
Qed.
End rules.

(** ** The steps of a session *)

Section steps.
Implicit Types (h : heap) (b : loc) (bd : Board) (fp : list loc).
Implicit Types (piece : pyval) (move : option Z) (command : string).

(** The search: the store grows, the board is what it was. *)
Lemma ssim_search fuel fp h b bd depth alpha beta mx piece :
  live b fp h bd →
  ssim (λ h' r' r, r' = r ∧ live b fp h' bd) fp h
    (in_search (minimax_obj fuel b depth alpha beta mx piece))
    (with_rng (minimax fuel bd depth alpha beta mx piece)).
Proof.
  intros Hb w. unfold in_search, with_rng. cbn [fst snd].
  pose proof (minimax_obj_sim fuel h b bd depth alpha beta mx piece
                (proj1 Hb) (gen w)) as Hs.
  destruct (minimax fuel bd depth alpha beta mx piece (gen w))
    as [[r g]| |]; [|by rewrite Hs..].
  destruct Hs as (r' & h' & -> & Hp & ->).
  exists r, h'. split; [done|].
  split; [by apply changes_only_prefix|]. split; [done|by eapply live_prefix].
Qed.

(** [board.play]: the objects of the board change, and no other. *)
Lemma ssim_play fp h b bd col piece :
  live b fp h bd →
  ssim (λ h' _ bd', live b fp h' bd') fp h
    (in_store (play_obj b col piece)) (lift (play bd col piece)).
Proof.
  intros [Hb <-] w. unfold in_store, lift. cbn [fst snd].
  pose proof (play_obj_spec h b bd col piece Hb) as Hs.
  destruct (play bd col piece) as [bd'|e]; [|by rewrite Hs].
  destruct Hs as (h' & -> & Hb' & Hlen & Hframe & Hfp).
  exists (), h'. split; [done|]. split; [|done].
  split; [lia|]. intros l _. apply Hframe.
Qed.

Lemma ssim_play_move fp h b bd move piece :
  live b fp h bd →
  ssim (λ h' _ bd', live b fp h' bd') fp h
    (in_store (play_move_obj b move piece)) (lift (play_move bd move piece)).
Proof. intros Hb. destruct move; [by apply ssim_play | by intros w]. Qed.

(** What the handlers relate: the same move, and the board of the
    session holding the board value. *)
Definition moved_to (b : loc) fp : heap → option Z → Board * option Z → Prop :=
  λ h' move' bm, move' = bm.2 ∧ live b fp h' bm.1.

Lemma on_play_sim fp h b bd command piece move :
  live b fp h bd →
  ssim (moved_to b fp) fp h
    (on_play_obj command b piece move) (on_play command bd piece move).
Proof.
  intros Hb. unfold on_play_obj, on_play.
  destruct (contains "PLAY" command); [|by apply ssim_ret].
  eapply ssim_bind; [by apply ssim_search|]. intros h1 ? r [-> Hb1].
  eapply ssim_bind; [by apply ssim_play_move|]. intros h2 [] bd2 Hb2.
  by apply ssim_ret.
Qed.

Lemma on_move_sim fp h b bd command piece move :
  live b fp h bd →
  ssim (moved_to b fp) fp h
    (on_move_obj command b piece move) (on_move command bd piece move).
Proof.
  intros Hb. unfold on_move_obj, on_move.
  destruct (contains "MOVE" command); [|by apply ssim_ret].
  eapply (ssim_bind (λ h' x y, x = y ∧ h' = h)); [by apply ssim_world|].
  intros ? ? col [-> ->].
  eapply ssim_bind; [by apply ssim_play|]. intros h2 [] bd2 Hb2.
  by apply ssim_ret.
Qed.

(** A session that was started anew leaves the board of this one. *)
Lemma on_reset_sim fp h b bd command nested' nested :
  live b fp h bd →
  ssim (λ _ _ _, True) [] h nested' nested →
  ssim (λ h' _ _, live b fp h' bd) fp h
    (on_reset_obj command nested') (on_reset command nested).
Proof.
  intros Hb Hn. unfold on_reset_obj, on_reset.
  destruct (contains "RESET" command); [|by apply ssim_ret].
  intros w. specialize (Hn w). destruct (nested w) as [[[] w']| |]; [|done..].
  destruct Hn as ([] & h' & -> & Hc & _).
  exists (), h'. eauto using changes_only_weaken, live_unchanged.
Qed.

Lemma end_logic_sim fp h b bd piece :
  live b fp h bd →
  ssim (λ h' x y, x = y ∧ h' = h) fp h
    (end_logic_obj b piece) (end_logic bd piece).
Proof.
  intros Hb. unfold end_logic_obj, end_logic.
  apply (ssim_read _ _ _ _ _ bd); [done|].
  destruct (is_winning bd (PyStr (py_str piece))); [|by apply ssim_ret].
  apply (ssim_read _ _ _ _ _ bd); [done|].
  eapply (ssim_bind (λ h' x y, x = y ∧ h' = h)); [by apply ssim_world|].
  intros ? ? [] [-> ->].
  eapply (ssim_bind (λ h' x y, x = y ∧ h' = h)); [by apply ssim_world|].
  intros ? ? [] [-> ->]. by apply ssim_ret.
Qed.

(** What an iteration relates: both break, or both go on with the same
    piece and move and the board of the session holding the board
    value. *)
Definition goes_on (b : loc) fp : heap → option (pyval * option Z)
    → option (Board * pyval * option Z) → Prop :=
  λ h' r' r,
    match r', r with
    | None, None => True
    | Some (piece', move'), Some (bd', piece, move) =>
        piece' = piece ∧ move' = move ∧ live b fp h' bd'
    | _, _ => False
    end.

Lemma finish_sim fp h b bd command piece move :
  live b fp h bd →
  ssim (goes_on b fp) fp h
    (finish_obj command b piece move) (finish command bd piece move).
Proof.
  intros Hb. unfold finish_obj, finish.
  eapply ssim_bind; [by apply end_logic_sim|]. intros ? ? won [-> ->].
  destruct won; [by apply ssim_ret|].
  eapply (ssim_bind (λ h' x y, x = y ∧ h' = h)); [by apply ssim_world|].
  intros ? ? [] [-> ->]. apply (ssim_read _ _ _ _ _ bd); [done|].
  eapply (ssim_bind (λ h' x y, x = y ∧ h' = h)); [by apply ssim_world|].
  intros ? ? [] [-> ->]. apply (ssim_read _ _ _ _ _ bd); [done|].
  eapply (ssim_bind (λ h' x y, x = y ∧ h' = h)); [by apply ssim_world|].
  intros ? ? [] [-> ->]. by apply ssim_ret.
Qed.

Lemma iteration_sim fp h b bd nested' nested piece move :
  live b fp h bd →
  (∀ h', ssim (λ _ _ _, True) [] h' nested' nested) →
  ssim (goes_on b fp) fp h
    (iteration_obj nested' b piece move) (iteration nested bd piece move).
Proof.
  intros Hb Hn. unfold iteration_obj, iteration.
  eapply (ssim_bind (λ h' x y, x = y ∧ h' = h)); [by apply ssim_world|].
  intros ? ? line [-> ->].
  eapply ssim_bind; [by apply on_play_sim|]. intros h1 ? [bd1 m1] [-> Hb1].
  eapply ssim_bind; [by apply on_move_sim|]. intros h2 ? [bd2 m2] [-> Hb2].
  eapply ssim_bind; [by apply on_reset_sim|]. intros h3 ? ? Hb3.
  by apply finish_sim.
Qed.

(** A new session writes to new objects only. *)
Lemma start_new_sim {A' A} (R : heap → A' → A → Prop) h
    (k' : loc → pyval → option Z → IOS A') (k : Board → pyval → option Z → IO A) :
  (∀ h' b fp, live b fp h' init →
              ssim R fp h' (k' b (PyInt 0) None) (k init (PyInt 0) None)) →
  ssim (λ _ _ _, True) [] h
    (x <- start_new_obj ;; k' x.1.1 x.1.2 x.2)%py
    (let '(b, p, m) := start_new in k b p m).
Proof.
  intros Hk w. unfold start_new_obj, start_new, bind, in_store. cbn [fst snd].
  destruct (new_board_spec h) as (b & h1 & -> & Hp & Hb & Hfresh).
  cbn [fst snd]. rewrite (method_holds _ _ _ _ Hb). cbn [ret fst snd]. specialize (Hk h1 b _ (conj Hb eq_refl) w).
  destruct (k init (PyInt 0) None w) as [[a w']| |]; [|done..].
  destruct Hk as (a' & h2 & -> & Hc & _).
  exists a', h2. eauto using changes_only_fresh.
Qed.

Lemma loop_sim fuel fp h b bd piece move :
  live b fp h bd →
  ssim (λ _ _ _, True) fp h (loop_obj fuel b piece move) (loop fuel bd piece move).
Proof.
  revert fp h b bd piece move.
  induction fuel as [|fuel IH]; intros fp h b bd piece move Hb.
  { apply ssim_out_of_fuel. }
  cbn [loop_obj loop]. eapply ssim_bind.
  { apply iteration_sim; [done|]. intros h'.
    apply (start_new_sim (λ _ _ _, True) h' (loop_obj fuel) (loop fuel)).
    intros. by apply IH. }
  intros h1 [[p' m']|] [[[bd1 p] m]|] Hr; try done; [|by apply ssim_ret].
  destruct Hr as (-> & -> & Hb1). by apply IH.
Qed.

Lemma main_sim fuel h : ssim (λ _ _ _, True) [] h (main_obj fuel) (main fuel).
Proof.
  apply (start_new_sim (λ _ _ _, True) h (loop_obj fuel) (loop fuel)).
  intros. by apply loop_sim.
Qed.
End steps.

(** * Properties *)

Section properties.
Implicit Types (h : heap) (b : loc) (bd : Board) (w : world).

(** C17 (refinement). [main] on objects is [main] on values: started in
    any store, the program that makes the board of a session with
    [Board()], hands it to [minimax] and writes the moves into it reads
    and prints what [main] of [Driver] reads and prints, draws the same
    numbers and ends the same way, by returning, by the same exception
    or for lack of fuel; the objects that existed before are what they
    were. *)
Theorem main_obj_refines fuel h w :
  match main fuel w with
  | Val (_, w') =>
      ∃ h', main_obj fuel (h, w) = Val ((), (h', w')) ∧ changes_only [] h h'
  | Exc e => main_obj fuel (h, w) = Exc e
  | OutOfFuel => main_obj fuel (h, w) = OutOfFuel
  end.
Proof.
  pose proof (main_sim fuel h w) as Hs.
  destruct (main fuel w) as [[[] w']| |]; [|done..].
  destruct Hs as ([] & h' & ? & ? & _). eauto.
Qed.

(** C21 (safety). [RESET] leaves the board of the session that received
    it: when the nested [main()] has returned, the board object holds
    the board it held and is made of the same objects, whatever the
    nested session played on its own board. *)
Theorem reset_keeps_board fuel h b bd command w h' w' :
  holds h b bd →
  on_reset_obj command (main_obj fuel) (h, w) = Val ((), (h', w')) →
  holds h' b bd ∧ footprint h' b = footprint h b
  ∧ on_reset command (main fuel) w = Val ((), w').
Proof.
  intros Hb Hrun.
  pose proof (on_reset_sim _ h b bd command _ _ (conj Hb eq_refl)
                (main_sim fuel h) w) as Hs.
  destruct (on_reset command (main fuel) w) as [[[] w1]| |]; [|congruence..].
  destruct Hs as ([] & h1 & Hrun1 & _ & Hb1 & Hfp).
  rewrite Hrun in Hrun1. by simplify_eq.
Qed.

(** On a finite input [main] on objects halts, as [main] on values
    does. *)
Corollary main_obj_terminates fuel h w :
  length (stdin w) < fuel → main_obj fuel (h, w) ≠ OutOfFuel.
Proof.
  intros Hf Hrun. pose proof (main_sim fuel h w) as Hs.
  pose proof (loop_fueled fuel init (PyInt 0) None w Hf) as Hm.
  change (loop fuel init (PyInt 0) None w) with (main fuel w) in Hm.
  destruct (main fuel w) as [[[] w']| |]; [|congruence..].
  destruct Hs as (? & ? & ? & _). congruence.
Qed.

(** A game of seven [MOVE]s on objects, run from the empty store: the
    world it leaves is that of [main] on values, and the store holds the
    ten objects of one board. *)
Example main_obj_game :
  ∃ h' w', main_obj 8 ([], world0 game_lines) = Val ((), (h', w'))
           ∧ main 8 (world0 game_lines) = Val ((), w') ∧ length h' = 10.
Proof. eexists _, _. split; [vm_compute; reflexivity|]. by vm_compute. Qed.
End properties.

(** * Witnesses *)

Lemma reset_keeps_board_witness :
  ∃ h' w',
    on_reset_obj "RESET" (main_obj 8) (store0, world0 game_lines)
    = Val ((), (h', w'))
    ∧ holds h' board0 init ∧ footprint h' board0 = footprint store0 board0
    ∧ on_reset "RESET" (main 8) (world0 game_lines) = Val ((), w').
Proof.
  eexists _, _. split; [vm_compute; reflexivity|].
  apply (reset_keeps_board 8 store0 board0 init "RESET" (world0 game_lines));
    [apply store0_holds | vm_compute; reflexivity].
Defined.
