(* ===== verification/Tests.v ===== *)
(** * Tests: the unit tests of [src/tests/main_test.py]

    The test case [TestBoard] of the repository: [setUp] makes a board
    object, [test_hello_world] compares two equal strs, and
    [test_play_middle] plays the int 0 into column 3, prints the text of
    [print_board] and compares it with the expected picture.  The tests
    are run on the store of [Store] and the world of [Driver], as
    [Session] runs [main]; they are proved to pass from every store and
    every world, and a board that a test leaves behind is proved not to
    matter to the next test. *)

From S2P Require Import Prelude Python Board Store Driver Session.

(** [self.assertEqual(first, second)] on strs *)
Definition assertEqual (first second : string) : res unit :=
  if String.eqb first second then Ok () else Raise AssertionError.

(** [self.board = Board()] *)
Definition setUp : IOS loc := in_store new_board.

Definition test_hello_world : IOS unit :=
  in_world (lift (assertEqual "Hello world" "Hello world")).

(** The picture [test_play_middle] expects. *)
Definition expected_middle : string :=
  "| | | | | | | |" +:+ newline +:+ "| | | | | | | |" +:+ newline
  +:+ "| | | | | | | |" +:+ newline +:+ "| | | | | | | |" +:+ newline
  +:+ "| | | | | | | |" +:+ newline +:+ "| | | |0| | | |" +:+ newline
  +:+ " 0 1 2 3 4 5 6".

Definition test_play_middle (board : loc) : IOS unit :=
  (_ <- in_store (play_obj board 3 (PyInt 0)) ;;
   result <- in_store (method print_board board) ;;
   _ <- in_world (print result) ;;
   in_world (lift (assertEqual result expected_middle)))%py.

(** A test of the test case: [setUp], then the test method. *)
Definition run_test (test : loc → IOS unit) : IOS unit :=
  (board <- setUp ;; test board)%py.

(** The two tests, in the order [unittest] runs them (by name). *)
Definition TestBoard : IOS unit :=
  (_ <- run_test (λ _, test_hello_world) ;; run_test test_play_middle)%py.

(** * Lemmas *)

Section tests.
Implicit Types (h : heap) (w : world) (b : loc).

Lemma assertEqual_refl s : assertEqual s s = Ok ().
Proof. unfold assertEqual. by rewrite String.eqb_refl. Qed.

Lemma assertEqual_Ok s t : assertEqual s t = Ok () ↔ s = t.
Proof.
  unfold assertEqual. destruct (String.eqb_spec s t) as [->|Hne]; [done|].
  split; [done | by intros ->].
Qed.

(** The test method on a new board. *)
Lemma test_play_middle_new h b w :
  holds h b init →
  ∃ h', test_play_middle b (h, w)
        = Val ((), (h', printed [expected_middle +:+ newline] w))
        ∧ changes_only (footprint h b) h h'
        ∧ holds h' b (board_after [(3%Z, PyInt 0)]).
Proof.
  intros Hb. pose proof (play_obj_spec h b init 3 (PyInt 0) Hb) as Hplay.
  assert (play init 3 (PyInt 0) = Ok (board_after [(3%Z, PyInt 0)])) as Heq
    by reflexivity.
  rewrite Heq in Hplay.
  destruct Hplay as (h' & Hrun & Hb' & Hlen & Hframe & _).
  exists h'. split_and!; [|split; [lia | by intros l _; apply Hframe]|done].
  unfold test_play_middle, bind, in_store, in_world. cbn [fst snd].
  rewrite Hrun. cbn [fst snd]. by rewrite (method_holds _ _ _ _ Hb').
Qed.

Lemma run_test_new h w (test : loc → IOS unit) w' :
  (∀ h1 b, holds h1 b init →
     ∃ h', test b (h1, w) = Val ((), (h', w'))
           ∧ changes_only (footprint h1 b) h1 h') →
  ∃ h', run_test test (h, w) = Val ((), (h', w')) ∧ changes_only [] h h'.
Proof.
  intros Htest. destruct (new_board_spec h) as (b & h1 & Hnew & Hp & Hb & Hfresh).
  destruct (Htest h1 b Hb) as (h' & Hrun & Hc). exists h'.
  split; [|by eapply changes_only_fresh].
  unfold run_test, setUp, bind, in_store. cbn [fst snd]. by rewrite Hnew.
Qed.
End tests.

(** * Properties *)

Section properties.
Implicit Types (h : heap) (w : world).

(** [test_hello_world] passes: from every store and world it returns,
    prints nothing and changes no object that existed. *)
Theorem test_hello_world_passes h w :
  ∃ h', run_test (λ _, test_hello_world) (h, w) = Val ((), (h', w))
        ∧ changes_only [] h h'.
Proof.
  apply run_test_new. intros h1 b _. exists h1.
  split; [done | apply changes_only_refl].
Qed.

(** [test_play_middle] passes: from every store and
    world, [setUp] and the test return without [AssertionError]; the
    text of [print_board] after [play(3, 0)] on a new board is the
    expected picture, it is what the test printed, and no object that
    existed before the test has changed. *)
Theorem test_play_middle_passes h w :
  ∃ h', run_test test_play_middle (h, w)
        = Val ((), (h', printed [expected_middle +:+ newline] w))
        ∧ changes_only [] h h'.
Proof.
  apply run_test_new. intros h1 b Hb.
  destruct (test_play_middle_new h1 b w Hb) as (h' & ? & ? & _). eauto.
Qed.

(** The test case passes: the board the first test leaves in the store
    does not matter to the second. *)
Theorem TestBoard_passes h w :
  ∃ h', TestBoard (h, w)
        = Val ((), (h', printed [expected_middle +:+ newline] w))
        ∧ changes_only [] h h'.
Proof.
  destruct (test_hello_world_passes h w) as (h1 & Hrun1 & Hc1).
  destruct (run_test_new h1 w test_play_middle
              (printed [expected_middle +:+ newline] w)) as (h2 & Hrun2 & Hc2).
  { intros h' b Hb.
    destruct (test_play_middle_new h' b w Hb) as (h'' & ? & ? & _). eauto. }
  exists h2. split; [|by eapply changes_only_trans].
  unfold TestBoard, bind. by rewrite Hrun1.
Qed.

(** Run from the empty store, the test case leaves the two boards of
    its tests. *)
Example TestBoard_run :
  ∃ h', TestBoard ([], world0 [])
        = Val ((), (h', printed [expected_middle +:+ newline] (world0 [])))
        ∧ length h' = 20.
Proof. eexists. split; [vm_compute; reflexivity | done]. Qed.
End properties.
